(** * PandocCodeDecorator: the offset index of a highlighted code block

    A shallow embedding of [src/main.js] (class [PandocCodeDecorator]) and
    the properties of its segment store: lookup, splitting, decoration and
    position translation.

    What the embedding keeps of JavaScript and of the DOM:
    - offsets, columns and lengths are integers; an offset passed by a
      caller may also be [Infinity].  Fractions, [NaN] and [-Infinity] as
      offsets are not modelled;
    - a property read on [undefined] throws; what a method did to the store
      before it threw stays done;
    - of the document tree only the spans the entries point to are kept,
      with their text and their class list; where a new span is put in the
      tree ([after]) is not modelled;
    - [classList.add] and [classList.remove] throw a [DOMException] on an
      empty name or one with white space.  [decorateSpan] and [clearSpan]
      are the two methods on the names the DOM takes; [decorateSpan_dom]
      and [clearSpan_dom] are the methods for all names, with that
      exception, and are the former on those names
      ([decorateSpan_dom_valid], [clearSpan_dom_valid]). *)

From Stdlib Require Import Ascii String.
From stdpp Require Import gmap strings list sorting.

Local Open Scope Z_scope.

(** ** JavaScript values *)

(** A line number as [Number(...)] produces it: an integer or [NaN]. *)
Inductive JSNum := Num (z : Z) | NaN.

(** An offset as callers pass it: an integer, or [Infinity], the
    "through the end of the document" sentinel. *)
Inductive Offset := Fin (z : Z) | Infinity.

(** The outcome of a call: it returns a value, or throws the [TypeError] of
    a property read on [undefined]. *)
Inductive Res (A : Type) := Ok (a : A) | TypeError.
Arguments Ok {A} a.
Arguments TypeError {A}.

(** ** Strings: [length] and [slice] *)

Fixpoint str_take (n : nat) (s : string) : string :=
  match n, s with
  | S n', String c s' => String c (str_take n' s')
  | _, _ => EmptyString
  end.

Fixpoint str_drop (n : nat) (s : string) : string :=
  match n, s with
  | S n', String _ s' => str_drop n' s'
  | _, _ => s
  end.

Definition str_length (s : string) : Z := Z.of_nat (String.length s).

(** How [String.prototype.slice] resolves one of its two indices: a negative
    index counts from the end, and the result is clamped to [0, len]. *)
Definition slice_index (len k : Z) : Z :=
  if k <? 0 then Z.max (len + k) 0 else Z.min k len.

(** [s.slice(from, to)]; [to = None] is the one-argument call. *)
Definition slice (s : string) (from : Z) (to : option Z) : string :=
  let len := str_length s in
  let f := slice_index len from in
  let t := match to with Some t => slice_index len t | None => len end in
  str_take (Z.to_nat (t - f)) (str_drop (Z.to_nat f) s).

(** ** The rendering surface *)

(** A [<span>] of the code block: its text and its class list.  A
    [DOMTokenList] is an ordered set; the decorator never reads the order. *)
Record Node := mkNode { textContent : string; classList : gset string }.

(** A child of a line: a naked text node, a [<span>], or any other node
    (pandoc puts an [<a>] anchor at the start of each line). *)
Inductive ChildNode :=
  | TextNode (data : string)
  | SpanElement (n : Node)
  | OtherNode.

(** A line is a [code > span] element: its [id] and its children. *)
Record Line := mkLine { id : string; childNodes : list ChildNode }.

(** The node the decorator is built on: the [data-source-offset] attribute of
    its parent (absent or a string) and its lines. *)
Record CodeNode := mkCodeNode { sourceOffset : option string; lines : list Line }.

(** ** The segment store *)

(** An element of [_elementEntryPoints].  Each entry owns its [node]: the
    builder makes one entry per span and [splitEntry] makes a new span for
    the entry it adds, so the node is kept inside the entry. *)
Record Entry := mkEntry { offset : Z; line : JSNum; column : Z; node : Node }.

Abbreviation Store := (list Entry).

Definition textLength (e : Entry) : Z := str_length (textContent (node e)).

(** The result object of [locateEntry].  [entry] is a reference to
    [_elementEntryPoints[index]] whenever it is defined. *)
Record Located := mkLocated { entry : option Entry; index : Z }.

Record Position := mkPosition { pos_line : JSNum; pos_column : Offset }.

(** [a[i]] for a JavaScript index: [undefined] out of range. *)
Definition lookupZ {A} (l : list A) (i : Z) : option A :=
  if i <? 0 then None else l !! Z.to_nat i.

(** ** Methods mutate [this._elementEntryPoints] and may throw *)

Definition M (A : Type) : Type := Store → Store * Res A.

Definition ret {A} (a : A) : M A := λ s, (s, Ok a).

Definition bind {A B} (m : M A) (k : A → M B) : M B :=
  λ s, match m s with
       | (s', Ok a) => k a s'
       | (s', TypeError) => (s', TypeError)
       end.

Notation "'let!' x ':=' m 'in' k" := (bind m (λ x, k))
  (at level 10, x name, m at level 100, k at level 200).

(** Run a read-only computation on the current store. *)
Definition read {A} (f : Store → Res A) : M A := λ s, (s, f s).

(** Read a property of [o]: a [TypeError] when [o] is [undefined]. *)
Definition deref {A} (o : option A) : Res A :=
  match o with Some a => Ok a | None => TypeError end.

Fixpoint forM_ {A} (l : list A) (f : A → M unit) : M unit :=
  match l with
  | [] => ret tt
  | x :: l' => let! _ := f x in forM_ l' f
  end.

(** ** normalizeCodeRange *)

(** [wholeText] of a text node when the nodes before it have already been
    replaced by spans: its own data and that of the text nodes that follow
    it directly. *)
Fixpoint wholeText_rest (cs : list ChildNode) : string :=
  match cs with
  | TextNode t :: cs' => t +:+ wholeText_rest cs'
  | _ => EmptyString
  end.

Fixpoint normalizeChildren (cs : list ChildNode) : list ChildNode :=
  match cs with
  | [] => []
  | TextNode t :: cs' =>
      SpanElement (mkNode (t +:+ wholeText_rest cs') ∅) :: normalizeChildren cs'
  | c :: cs' => c :: normalizeChildren cs'
  end.

Definition normalizeCodeRange (n : CodeNode) : CodeNode :=
  mkCodeNode (sourceOffset n)
    ((λ l, mkLine (id l) (normalizeChildren (childNodes l))) <$> lines n).

(** ** initializeEntryPoints *)

(** [s.split("-")] *)
Fixpoint split_dash (s : string) : list string :=
  match s with
  | EmptyString => [EmptyString]
  | String c s' =>
      if Ascii.eqb c "-"%char then EmptyString :: split_dash s'
      else match split_dash s' with
           | h :: t => String c h :: t
           | [] => [String c EmptyString]
           end
  end.

(** [a.pop()] on a non-empty array of strings *)
Definition pop (a : list string) : string := default EmptyString (last a).

Section Builder.
(** The built-in [Number] on strings. *)
Variable Number : string → JSNum.

(** [(x && -Number(x)) || 0] for [x = dataset.sourceOffset] *)
Definition initialOffset (x : option string) : Z :=
  match x with
  | None => 0
  | Some EmptyString => 0
  | Some x => match Number x with Num z => - z | NaN => 0 end
  end.

(** The body of the inner [forEach]: one entry per [<span>] child. *)
Definition pushChild (lineNumber : JSNum) (acc : Store * Z * Z) (n : ChildNode)
  : Store * Z * Z :=
  let '(result, off, col) := acc in
  match n with
  | SpanElement nd =>
      (result ++ [mkEntry off lineNumber col nd],
       off + str_length (textContent nd),
       col + str_length (textContent nd))
  | _ => acc
  end.

(** The body of the outer [for]. *)
Definition pushLine (acc : Store * Z) (l : Line) : Store * Z :=
  let '(result, off) := acc in
  let lineNumber := Number (pop (split_dash (id l))) in
  let '(result', off', _) :=
    foldl (pushChild lineNumber) (result, off, 1) (childNodes l) in
  (result', off' + 1).

Definition initializeEntryPoints (n : CodeNode) : Store :=
  fst (foldl pushLine ([], initialOffset (sourceOffset n)) (lines n)).

Definition constructor (n : CodeNode) : Store :=
  initializeEntryPoints (normalizeCodeRange n).
End Builder.

(** ** locateEntry *)

(** The [for] loop of [locateEntry] from index [i] on, [es] being the
    entries not yet visited. *)
Fixpoint locate_loop (es : list Entry) (i : Z) (candidate : option Entry) (o : Z)
  : Res (option Located) :=
  match es with
  | e :: es' =>
      if offset e >? o then Ok (Some (mkLocated candidate (i - 1)))
      else locate_loop es' (i + 1) (Some e) o
  | [] =>
      match candidate with
      | None => TypeError
      | Some c =>
          if o <? offset c + textLength c
          then Ok (Some (mkLocated (Some c) (i - 1)))
          else Ok None
      end
  end.

Definition locateEntry (s : Store) (o : Offset) : Res (option Located) :=
  match o with
  | Infinity => Ok None
  | Fin o => locate_loop s 0 None o
  end.

(** ** offsetToLineColumn *)

Definition offset_min (len : Z) (o : Offset) (base : Z) : Z :=
  match o with
  | Fin a => Z.min len (a - base)
  | Infinity => len
  end.

Definition offset_plus (c : Z) (o : Offset) (base : Z) : Offset :=
  match o with
  | Fin a => Fin (c + a - base)
  | Infinity => Infinity
  end.

Definition offsetToLineColumn (s : Store) (o : Offset) : Res Position :=
  match locateEntry s o with
  | TypeError => TypeError
  | Ok None =>
      match last s with
      | None => TypeError
      | Some l =>
          Ok (mkPosition (line l) (Fin (column l + offset_min (textLength l) o (offset l))))
      end
  | Ok (Some le) =>
      match entry le with
      | None => TypeError
      | Some e => Ok (mkPosition (line e) (offset_plus (column e) o (offset e)))
      end
  end.

(** ** ensureExactSpan *)

(** [sort((a, b) => a.offset - b.offset)]: a sort by offset that keeps the
    order of entries with equal offsets, as [Array.prototype.sort] does. *)
Fixpoint insert_by_offset (x : Entry) (l : list Entry) : list Entry :=
  match l with
  | [] => [x]
  | y :: l' =>
      if offset x <=? offset y then x :: l else y :: insert_by_offset x l'
  end.

Definition sort_by_offset (l : list Entry) : list Entry :=
  foldr insert_by_offset [] l.

(** The class-copying loop on a fresh span. *)
Definition copyClasses (cl : gset string) : gset string :=
  foldl (λ acc c, acc ∪ {[c]}) ∅ (elements cl).

Definition set_text (t : string) (e : Entry) : Entry :=
  mkEntry (offset e) (line e) (column e) (mkNode t (classList (node e))).

(** [splitEntry(entry, offset)].  [entry] is an object of the array; the
    embedding passes it with its index [i] ([locateEntry] returns both as
    [entry] and [index]), so that the text can be cut in place.  The entry
    of the new span is pushed and the array sorted again. *)
Definition splitEntry (i : Z) (entry : Entry) (o : Z) : M unit := λ s,
  let newClasses := copyClasses (classList (node entry)) in
  let beforeText := slice (textContent (node entry)) 0 (Some (o - offset entry)) in
  let afterText := slice (textContent (node entry)) (o - offset entry) None in
  let s1 := <[Z.to_nat i := set_text beforeText entry]> s in
  let s2 := s1 ++ [mkEntry o (line entry) (column entry + o - offset entry)
                     (mkNode afterText newClasses)] in
  (sort_by_offset s2, Ok tt).

(** [locateEntry] answers [undefined] on [Infinity], so a located boundary is
    always finite. *)
Definition ensureExactSpan (start end_ : Offset) : M unit :=
  let! startEntry := read (λ s, locateEntry s start) in
  let! _ :=
  match startEntry, start with
  | Some se, Fin a =>
      let! e := read (λ _, deref (entry se)) in
      if negb (offset e =? a) then splitEntry (index se) e a else ret tt
  | _, _ => ret tt
  end in
  let! endEntry := read (λ s, locateEntry s end_) in
  match endEntry, end_ with
  | Some ee, Fin b =>
      let! e := read (λ _, deref (entry ee)) in
      if negb (offset e =? b) then splitEntry (index ee) e b else ret tt
  | _, _ => ret tt
  end.

(** ** spanSelection, decorateSpan, clearSpan *)

(** [(endEntry && endEntry.index) || length] *)
Definition endIndexOf (endEntry : option Located) (len : Z) : Z :=
  match endEntry with
  | Some ee => if index ee =? 0 then len else index ee
  | None => len
  end.

(** The generator: the indices of the entries it yields, in order.  Its
    consumers only touch the class lists of the yielded entries, so the
    array is the same at every [yield]. *)
Definition spanSelection (start end_ : Offset) : M (list Z) :=
  let! _ := ensureExactSpan start end_ in
  let! startEntry := read (λ s, locateEntry s start) in
  let! endEntry := read (λ s, locateEntry s end_) in
  match startEntry with
  | None => ret []
  | Some se =>
      let! len := read (λ s, Ok (Z.of_nat (length s))) in
      let startIndex := index se in
      let endIndex := endIndexOf endEntry len in
      ret (seqZ startIndex (endIndex - startIndex))
  end.

Definition set_classes (cl : gset string) (e : Entry) : Entry :=
  mkEntry (offset e) (line e) (column e) (mkNode (textContent (node e)) cl).

(** [this._elementEntryPoints[i].node.classList.add(cssClass)] and
    [...remove(cssClass)] for a name the DOM takes; [classList_checked]
    below is the call for any name. *)
Definition classList_update (f : gset string → gset string) (i : Z) : M unit := λ s,
  match lookupZ s i with
  | None => (s, TypeError)
  | Some e => (<[Z.to_nat i := set_classes (f (classList (node e))) e]> s, Ok tt)
  end.

Definition classList_add (c : string) : Z → M unit :=
  classList_update (λ cl, cl ∪ {[c]}).

Definition classList_remove (c : string) : Z → M unit :=
  classList_update (λ cl, cl ∖ {[c]}).

Definition decorateSpan (start end_ : Offset) (classes : list string) : M unit :=
  let! sel := spanSelection start end_ in
  forM_ sel (λ i, forM_ classes (λ cssClass, classList_add cssClass i)).

(** The class has two methods named [clearSpan]; the second one (the one
    without the generator) is the one in force. *)
Definition clearSpan (start end_ : Offset) (classes : list string) : M unit :=
  let! _ := ensureExactSpan start end_ in
  let! startEntry := read (λ s, locateEntry s start) in
  let! endEntry := read (λ s, locateEntry s end_) in
  match startEntry with
  | None => ret tt
  | Some se =>
      let! len := read (λ s, Ok (Z.of_nat (length s))) in
      let startIndex := index se in
      let endIndex := endIndexOf endEntry len in
      forM_ (seqZ startIndex (endIndex - startIndex))
        (λ i, forM_ classes (λ cssClass, classList_remove cssClass i))
  end.

(** ** A worked document *)

(** [Number] on the identifiers pandoc writes: a string of decimal digits is
    its value and the empty string is [0]; a string with any other character
    is taken as not numeric. *)
Definition digit_value (c : ascii) : option Z :=
  let n := Z.of_N (Ascii.N_of_ascii c) in
  if (48 <=? n) && (n <=? 57) then Some (n - 48) else None.

Fixpoint decimal_value (acc : Z) (s : string) : JSNum :=
  match s with
  | EmptyString => Num acc
  | String c s' =>
      match digit_value c with
      | Some d => decimal_value (10 * acc + d) s'
      | None => NaN
      end
  end.

Definition decimalNumber (s : string) : JSNum := decimal_value 0 s.

Definition span (t : string) : ChildNode := SpanElement (mkNode t ∅).

(** The two-line document "ab" / "cd", one span per character. *)
Definition abcd_chars : CodeNode :=
  mkCodeNode None
    [ mkLine "cb1-1" [OtherNode; span "a"; span "b"];
      mkLine "cb1-2" [OtherNode; span "c"; span "d"] ].

(** The same document, one span per line. *)
Definition abcd_lines : CodeNode :=
  mkCodeNode None
    [ mkLine "cb1-1" [OtherNode; span "ab"];
      mkLine "cb1-2" [OtherNode; span "cd"] ].

Definition seg (o : Z) (l : Z) (c : Z) (t : string) (cl : gset string) : Entry :=
  mkEntry o (Num l) c (mkNode t cl).

(** ** Definitions used by the properties *)

Definition sorted (s : Store) : Prop :=
  StronglySorted (λ a b, offset a ≤ offset b) s.

Definition strictly_sorted (s : Store) : Prop :=
  StronglySorted (λ a b, offset a < offset b) s.

(** The number of entries the loop of [locateEntry] passes before it meets
    an offset above [o]. *)
Fixpoint scan (o : Z) (s : list Entry) : nat :=
  match s with
  | e :: s' => if offset e >? o then 0%nat else S (scan o s')
  | [] => 0%nat
  end.

(** The entry before position [k]: the last candidate of the loop. *)
Definition prev (s : Store) (k : nat) : option Entry :=
  match k with
  | O => None
  | S k' => s !! k'
  end.

(** [ensureExactSpan] treats its two boundaries alike, one after the
    other. *)
Definition boundary (o : Offset) : M unit :=
  let! located := read (λ s, locateEntry s o) in
  match located, o with
  | Some le, Fin a =>
      let! e := read (λ _, deref (entry le)) in
      if negb (offset e =? a) then splitEntry (index le) e a else ret tt
  | _, _ => ret tt
  end.

(** The two entries an entry [e] split at offset [a] leaves. *)
Definition cut_head (e : Entry) (a : Z) : Entry :=
  set_text (slice (textContent (node e)) 0 (Some (a - offset e))) e.

Definition cut_tail (e : Entry) (a : Z) : Entry :=
  mkEntry a (line e) (column e + a - offset e)
    (mkNode (slice (textContent (node e)) (a - offset e) None) (classList (node e))).

(** The store after the entry [e] at index [k] was split at offset [a]. *)
Definition split_at (s : Store) (k : nat) (e : Entry) (a : Z) : Store :=
  take k s ++ cut_head e a :: cut_tail e a :: drop (S k) s.

(** A boundary needs no split: a segment starts there, or it is at or
    behind the end of the last segment. *)
Definition aligned (s : Store) (o : Offset) : Prop :=
  match o with
  | Infinity => True
  | Fin a =>
      (∃ e, e ∈ s ∧ offset e = a) ∨
      (∃ l, last s = Some l ∧ offset l + textLength l ≤ a)
  end.

(** The conditions under which [ensureExactSpan] splits the entry [e] at
    index [k] for the boundary [a]. *)
Definition splits (s : Store) (k : nat) (e : Entry) (a : Z) : Prop :=
  scan a s = S k ∧ s !! k = Some e ∧ offset e < a ∧
  ((S k < length s)%nat ∨ a < offset e + textLength e).

(** The text of the document, line breaks left out: the texts of the
    segments in the order of the store. *)
Definition document_text (s : Store) : string :=
  foldr (λ e acc, textContent (node e) +:+ acc) EmptyString s.

Definition document_length (s : Store) : Z := str_length (document_text s).

(** Where the document starts and where it ends. *)
Definition docStart (s : Store) : option Z := offset <$> head s.

Definition docEnd (s : Store) : option Z :=
  (λ l, offset l + textLength l) <$> last s.

(** The offsets at which segments start. *)
Definition starts (s : Store) (a : Z) : Prop := ∃ e, e ∈ s ∧ offset e = a.

(** The boundary is inside the document. *)
Definition inside (s : Store) (o : Offset) : Prop :=
  match o with
  | Infinity => False
  | Fin a => (∃ z, docStart s = Some z ∧ z ≤ a) ∧ (∃ z, docEnd s = Some z ∧ a < z)
  end.

(** The boundary is not before the document. *)
Definition not_before (s : Store) (o : Offset) : Prop :=
  match o with
  | Infinity => True
  | Fin a => ∃ z, docStart s = Some z ∧ z ≤ a
  end.

(** The class list after the inner loop over [classes]. *)
Definition apply_classes (g : string → gset string → gset string)
    (classes : list string) (cl : gset string) : gset string :=
  foldl (λ cl c, g c cl) cl classes.

(** The store after the tags of the entries at the indices from [i] up to
    [j], [j] left out, went through [G]. *)
Definition retag_range (G : gset string → gset string) (i j : Z) (s : Store) : Store :=
  imap (λ k e, if decide (i ≤ Z.of_nat k < j)
               then set_classes (G (classList (node e))) e else e) s.

(** What [decorateSpan] and [clearSpan] do once [ensureExactSpan] has
    returned: find the indices of the range and update the class lists. *)
Definition tag_selected (g : string → gset string → gset string)
    (start end_ : Offset) (classes : list string) : M unit :=
  let! startEntry := read (λ s, locateEntry s start) in
  let! endEntry := read (λ s, locateEntry s end_) in
  match startEntry with
  | None => ret tt
  | Some se =>
      let! len := read (λ s, Ok (Z.of_nat (length s))) in
      forM_ (seqZ (index se) (endIndexOf endEntry len - index se))
        (λ i, forM_ classes (λ c, classList_update (g c) i))
  end.

Definition add_class (c : string) (cl : gset string) : gset string := cl ∪ {[c]}.
Definition remove_class (c : string) (cl : gset string) : gset string := cl ∖ {[c]}.

Definition located_index (r : Res (option Located)) : option Z :=
  match r with
  | Ok (Some le) => Some (index le)
  | _ => None
  end.

(** The indices [startIndex] and [endIndex] of the range, or an empty range
    when [start] is not found. *)
Definition selection (s : Store) (start end_ : Offset) : Z * Z :=
  match located_index (locateEntry s start) with
  | Some i =>
      (i, match located_index (locateEntry s end_) with
          | Some j => if j =? 0 then Z.of_nat (length s) else j
          | None => Z.of_nat (length s)
          end)
  | None => (0, 0)
  end.

Definition shape (s : Store) : list (Z * Z) := (λ e, (offset e, textLength e)) <$> s.

(** [p] is the segment of [s] that holds the offset at which [e'] starts:
    the last one that does not start behind it. *)
Definition origin (s : Store) (e' p : Entry) : Prop :=
  p ∈ s ∧ offset p ≤ offset e' ∧ ∀ x, x ∈ s → offset x ≤ offset e' → offset x ≤ offset p.

(** The order of offsets, [Infinity] on top. *)
Definition offset_le (x y : Offset) : Prop :=
  match x, y with
  | Fin a, Fin b => a ≤ b
  | _, Infinity => True
  | Infinity, Fin _ => False
  end.

Definition offset_lt (x y : Offset) : Prop :=
  match x, y with
  | Fin a, Fin b => a < b
  | Fin _, Infinity => True
  | Infinity, _ => False
  end.

(** No segment reaches into the next one. *)
Definition separated (s : Store) : Prop :=
  StronglySorted (λ a b, offset a + textLength a ≤ offset b) s.

(** The entries the inner loop pushes lie between the offset cursor before
    the loop and the cursor after it. *)
Definition between (off off' : Z) (es : Store) : Prop :=
  separated es ∧ off ≤ off' ∧
  Forall (λ e, off ≤ offset e ∧ offset e + textLength e ≤ off') es.

(** The stores of the two renderings of "ab" / "cd". *)
Definition doc_chars : Store :=
  [seg 0 1 1 "a" ∅; seg 1 1 2 "b" ∅; seg 3 2 1 "c" ∅; seg 4 2 2 "d" ∅].

Definition doc_lines : Store := [seg 0 1 1 "ab" ∅; seg 3 2 1 "cd" ∅].

(** [doc_lines] after boundaries were made at the offsets 1 and 4. *)
Definition doc_lines_1_4 : Store :=
  [seg 0 1 1 "a" ∅; seg 1 1 2 "b" ∅; seg 3 2 1 "c" ∅; seg 4 2 2 "d" ∅].

Ltac solve_sorted :=
  unfold sorted, strictly_sorted; repeat (constructor; simpl); lia.

(** A segment that carries the tag before the decoration. *)
Definition doc_tagged : Store := [seg 0 1 1 "ab" {["hl"%string]}].

(** A line whose identifier does not end in a number. *)
Definition unnumbered : CodeNode :=
  mkCodeNode None [mkLine "cb1-x" [OtherNode; span "ab"]].

(** ** The other definitions of the methods *)

(** The first [clearSpan] of the class, the one with the generator, which
    the second definition replaces. *)
Definition clearSpan_generator (start end_ : Offset) (classes : list string) : M unit :=
  let! sel := spanSelection start end_ in
  forM_ sel (λ i, forM_ classes (λ cssClass, classList_remove cssClass i)).

(** [decorateSpan] as the revision without the generator has it. *)
Definition decorateSpan_direct (start end_ : Offset) (classes : list string) : M unit :=
  let! _ := ensureExactSpan start end_ in
  let! startEntry := read (λ s, locateEntry s start) in
  let! endEntry := read (λ s, locateEntry s end_) in
  match startEntry with
  | None => ret tt
  | Some se =>
      let! len := read (λ s, Ok (Z.of_nat (length s))) in
      let startIndex := index se in
      let endIndex := endIndexOf endEntry len in
      forM_ (seqZ startIndex (endIndex - startIndex))
        (λ i, forM_ classes (λ cssClass, classList_add cssClass i))
  end.

(** ** The loops of the builder as recursive functions *)

(** The entries the inner loop makes for the children [cs] of a line. *)
Fixpoint line_entries (ln : JSNum) (off col : Z) (cs : list ChildNode) : Store :=
  match cs with
  | [] => []
  | SpanElement nd :: cs' =>
      mkEntry off ln col nd
      :: line_entries ln (off + str_length (textContent nd))
           (col + str_length (textContent nd)) cs'
  | _ :: cs' => line_entries ln off col cs'
  end.

(** The text of the spans of a line, and its length. *)
Fixpoint line_text (cs : list ChildNode) : string :=
  match cs with
  | [] => EmptyString
  | SpanElement nd :: cs' => textContent nd +:+ line_text cs'
  | _ :: cs' => line_text cs'
  end.

Definition line_length (cs : list ChildNode) : Z := str_length (line_text cs).

(** The entries the outer loop makes for the lines [ls]. *)
Fixpoint store_of (Number : string → JSNum) (off : Z) (ls : list Line) : Store :=
  match ls with
  | [] => []
  | l :: ls' =>
      line_entries (Number (pop (split_dash (id l)))) off 1 (childNodes l)
      ++ store_of Number (off + line_length (childNodes l) + 1) ls'
  end.

(** The text of the spans of all lines, line breaks left out. *)
Definition surface_text (n : CodeNode) : string :=
  foldr (λ l acc, line_text (childNodes l) +:+ acc) EmptyString (lines n).

(** All the text of a line, that of its naked text nodes included. *)
Fixpoint raw_line_text (cs : list ChildNode) : string :=
  match cs with
  | [] => EmptyString
  | TextNode t :: cs' => t +:+ raw_line_text cs'
  | SpanElement nd :: cs' => textContent nd +:+ raw_line_text cs'
  | OtherNode :: cs' => raw_line_text cs'
  end.

Definition is_text (c : ChildNode) : bool :=
  match c with TextNode _ => true | _ => false end.

(** No two text nodes are next to each other, as in a parsed document. *)
Fixpoint no_adjacent_text (cs : list ChildNode) : Prop :=
  match cs with
  | TextNode _ :: cs' =>
      match cs' with TextNode _ :: _ => False | _ => True end ∧ no_adjacent_text cs'
  | _ :: cs' => no_adjacent_text cs'
  | [] => True
  end.

(** A store moved by [d] offsets. *)
Definition shift (d : Z) (s : Store) : Store :=
  (λ e, mkEntry (offset e + d) (line e) (column e) (node e)) <$> s.

(** How two segments that are neighbours in the store lie: in one line,
    the second where the first ends, or the second at the start of a later
    line. *)
Definition follows (x y : Entry) : Prop :=
  (line y = line x ∧ offset y = offset x + textLength x
   ∧ column y = column x + textLength x) ∨
  (column y = 1 ∧ offset x + textLength x < offset y).

(** The stores a decorator can hold: the one the constructor builds, and
    the ones [decorateSpan] and [clearSpan] leave, whether they return or
    throw. *)
Inductive reachable (Number : string → JSNum) (n : CodeNode) : Store → Prop :=
  | reachable_constructor : reachable Number n (constructor Number n)
  | reachable_decorateSpan s start end_ classes :
      reachable Number n s →
      reachable Number n (decorateSpan start end_ classes s).1
  | reachable_clearSpan s start end_ classes :
      reachable Number n s →
      reachable Number n (clearSpan start end_ classes s).1.

(** What [locateEntry] tells about the offset [b] when it finds the
    segment [e]: the line, the column of [b], and the tags. *)
Definition place (b : Z) (e : Entry) : JSNum * Z * gset string :=
  (line e, column e + b - offset e, classList (node e)).

Definition located_place (b : Z) (r : Res (option Located))
  : Res (option (option (JSNum * Z * gset string))) :=
  match r with
  | TypeError => TypeError
  | Ok None => Ok None
  | Ok (Some le) => Ok (Some (place b <$> entry le))
  end.

(** The line of a segment and the column behind its last character. *)
Definition line_end (e : Entry) : JSNum * Z := (line e, column e + textLength e).

(** What [locateEntry] and [offsetToLineColumn] read of a segment. *)
Definition geometry (s : Store) : list (Z * Z * JSNum * Z) :=
  (λ e, (offset e, textLength e, line e, column e)) <$> s.

(** The segment [e] starts in the range from [start] up to [end_], or from
    [start] on when [end_] is not inside the document. *)
Definition in_span (s : Store) (start end_ : Offset) (e : Entry) : Prop :=
  offset_le start (Fin (offset e)) ∧
  (offset_lt (Fin (offset e)) end_ ∨ ¬ inside s end_).

(** ** The first revision of [locateEntry] *)

(** [entry.offset > offset], the argument being a number or [Infinity]. *)
Definition exceeds (x : Z) (o : Offset) : bool :=
  match o with
  | Fin a => x >? a
  | Infinity => false
  end.

(** [locateEntry] as the first revision of the class has it: no early
    return for [Infinity] and, after the loop, [undefined] without a look
    at the last entry.  It reads nothing but the offsets. *)
Fixpoint locate_loop_000 (es : list Entry) (i : Z) (candidate : option Entry)
    (o : Offset) : option Located :=
  match es with
  | e :: es' =>
      if exceeds (offset e) o then Some (mkLocated candidate (i - 1))
      else locate_loop_000 es' (i + 1) (Some e) o
  | [] => None
  end.

Definition locateEntry_000 (s : Store) (o : Offset) : option Located :=
  locate_loop_000 s 0 None o.

(** ** The class lists of the DOM *)

(** ASCII white space as the DOM has it: tab, line feed, form feed,
    carriage return and space. *)
Definition is_ascii_whitespace (c : ascii) : bool :=
  let n := nat_of_ascii c in
  ((n =? 9) || (n =? 10) || (n =? 12) || (n =? 13) || (n =? 32))%nat.

Fixpoint no_whitespace (c : string) : bool :=
  match c with
  | EmptyString => true
  | String a c' => negb (is_ascii_whitespace a) && no_whitespace c'
  end.

(** The names [classList.add] and [classList.remove] take: any other one,
    the empty string or one with white space, makes them throw a
    [DOMException] before they change anything. *)
Definition valid_token (c : string) : bool :=
  match c with
  | EmptyString => false
  | _ => no_whitespace c
  end.

(** The outcome of a method that reaches [classList.add] or
    [classList.remove]: besides the [TypeError] of a property read on
    [undefined] there is the [DOMException] of these two. *)
Inductive Outcome (A : Type) :=
  | Returned (a : A)
  | Thrown_TypeError
  | Thrown_DOMException.
Arguments Returned {A} a.
Arguments Thrown_TypeError {A}.
Arguments Thrown_DOMException {A}.

Definition D (A : Type) : Type := Store → Store * Outcome A.

(** A part of a method that does not reach the class lists. *)
Definition liftD {A} (m : M A) : D A := λ s,
  match m s with
  | (s', Ok a) => (s', Returned a)
  | (s', TypeError) => (s', Thrown_TypeError)
  end.

Definition bindD {A B} (m : D A) (k : A → D B) : D B := λ s,
  match m s with
  | (s', Returned a) => k a s'
  | (s', Thrown_TypeError) => (s', Thrown_TypeError)
  | (s', Thrown_DOMException) => (s', Thrown_DOMException)
  end.

Fixpoint forD_ {A} (l : list A) (f : A → D unit) : D unit :=
  match l with
  | [] => λ s, (s, Returned tt)
  | x :: l' => bindD (f x) (λ _, forD_ l' f)
  end.

(** [this._elementEntryPoints[i].node.classList.add(cssClass)] and
    [...remove(cssClass)] with both ways to throw: the entry is read
    first, then the name is checked. *)
Definition classList_checked (g : string → gset string → gset string)
    (cssClass : string) (i : Z) : D unit := λ s,
  match lookupZ s i with
  | None => (s, Thrown_TypeError)
  | Some e =>
      if valid_token cssClass
      then (<[Z.to_nat i := set_classes (g cssClass (classList (node e))) e]> s,
            Returned tt)
      else (s, Thrown_DOMException)
  end.

(** [decorateSpan] and the [clearSpan] in force, for all class names:
    [decorateSpan] and [clearSpan] above are these two on the names the
    DOM takes. *)
Definition decorateSpan_dom (start end_ : Offset) (classes : list string) : D unit :=
  bindD (liftD (spanSelection start end_)) (λ sel,
    forD_ sel (λ i,
      forD_ classes (λ cssClass, classList_checked add_class cssClass i))).

Definition clearSpan_dom (start end_ : Offset) (classes : list string) : D unit :=
  bindD (liftD (ensureExactSpan start end_)) (λ _,
  bindD (liftD (read (λ s, locateEntry s start))) (λ startEntry,
  bindD (liftD (read (λ s, locateEntry s end_))) (λ endEntry,
  match startEntry with
  | None => λ s, (s, Returned tt)
  | Some se =>
      bindD (liftD (read (λ s, Ok (Z.of_nat (length s))))) (λ len,
      let startIndex := index se in
      let endIndex := endIndexOf endEntry len in
      forD_ (seqZ startIndex (endIndex - startIndex)) (λ i,
        forD_ classes (λ cssClass, classList_checked remove_class cssClass i)))
  end))).

(** The names the inner loop gets through before it throws. *)
Fixpoint accepted (classes : list string) : list string :=
  match classes with
  | c :: cs => if valid_token c then c :: accepted cs else []
  | [] => []
  end.

(** The loops of [decorateSpan_dom] and [clearSpan_dom] over the entries
    from [i] up to [j] of a store in which these indices exist: with names
    the DOM takes they go through; otherwise they throw in the first
    entry, after the names before the first one that is not taken. *)
Definition tag_range_dom (g : string → gset string → gset string)
    (classes : list string) (i j : Z) : D unit := λ s,
  if forallb valid_token classes
  then (retag_range (apply_classes g classes) i j s, Returned tt)
  else if decide (i < j)
       then (retag_range (apply_classes g (accepted classes)) i (i + 1) s,
             Thrown_DOMException)
       else (s, Returned tt).

(** What [decorateSpan_dom] and [clearSpan_dom] do once [ensureExactSpan]
    has returned. *)
Definition tag_selected_dom (g : string → gset string → gset string)
    (start end_ : Offset) (classes : list string) : D unit :=
  bindD (liftD (read (λ s, locateEntry s start))) (λ startEntry,
  bindD (liftD (read (λ s, locateEntry s end_))) (λ endEntry,
  match startEntry with
  | None => λ s, (s, Returned tt)
  | Some se =>
      bindD (liftD (read (λ s, Ok (Z.of_nat (length s))))) (λ len,
      forD_ (seqZ (index se) (endIndexOf endEntry len - index se)) (λ i,
        forD_ classes (λ c, classList_checked g c i)))
  end)).


(** * Properties *)

(** ** Strings *)

Lemma append_String c s t : String c s +:+ t = String c (s +:+ t).
Proof. reflexivity. Qed.

Lemma str_take_drop n s : str_take n s +:+ str_drop n s = s.
Proof.
  revert s; induction n as [|n IH]; intros [|c s]; simpl; try reflexivity.
  rewrite append_String. f_equal. apply IH.
Qed.

Lemma length_str_take n s : String.length (str_take n s) = (n `min` String.length s)%nat.
Proof.
  revert s; induction n as [|n IH]; intros [|c s]; simpl; try reflexivity.
  f_equal. apply IH.
Qed.

Lemma length_str_drop n s : String.length (str_drop n s) = (String.length s - n)%nat.
Proof.
  revert s; induction n as [|n IH]; intros [|c s]; simpl; try reflexivity.
  apply IH.
Qed.

Lemma str_take_all n s : (String.length s ≤ n)%nat → str_take n s = s.
Proof.
  revert s; induction n as [|n IH]; intros [|c s]; simpl; intros; try reflexivity; try lia.
  f_equal. apply IH. lia.
Qed.

Lemma str_length_app s t : str_length (s +:+ t) = str_length s + str_length t.
Proof.
  unfold str_length. induction s as [|c s IH]; [done|].
  rewrite append_String. simpl. lia.
Qed.

Lemma str_length_nonneg s : 0 ≤ str_length s.
Proof. unfold str_length. lia. Qed.

Lemma slice_before s k :
  0 ≤ k → slice s 0 (Some k) = str_take (Z.to_nat (Z.min k (str_length s))) s.
Proof.
  intros Hk. unfold slice, slice_index.
  pose proof (str_length_nonneg s).
  destruct (k <? 0) eqn:Ek; [lia|]. simpl.
  replace (0 `min` str_length s) with 0 by lia. simpl. f_equal. lia.
Qed.

Lemma slice_after s k :
  0 ≤ k → slice s k None = str_drop (Z.to_nat (Z.min k (str_length s))) s.
Proof.
  intros Hk. unfold slice, slice_index.
  pose proof (str_length_nonneg s).
  destruct (k <? 0) eqn:Ek; [lia|].
  apply str_take_all. rewrite length_str_drop. unfold str_length in *. lia.
Qed.

Lemma slice_split s k : 0 ≤ k → slice s 0 (Some k) +:+ slice s k None = s.
Proof. intros. rewrite slice_before, slice_after by done. apply str_take_drop. Qed.

Lemma slice_after_length s k :
  0 ≤ k → str_length (slice s k None) = str_length s - Z.min k (str_length s).
Proof.
  intros. rewrite slice_after by done. unfold str_length.
  rewrite length_str_drop. lia.
Qed.

(** ** The order of the store *)

Lemma strictly_sorted_sorted s : strictly_sorted s → sorted s.
Proof.
  induction 1 as [|a l _ IH Ha]; constructor; [done|].
  eapply Forall_impl; [exact Ha|]. simpl. lia.
Qed.

Lemma sorted_lookup s i j a b :
  sorted s → s !! i = Some a → s !! j = Some b → (i ≤ j)%nat → offset a ≤ offset b.
Proof.
  intros Hs. revert i j. induction Hs as [|x l _ IH Hx]; intros i j Hi Hj Hij.
  { by rewrite lookup_nil in Hi. }
  destruct i as [|i], j as [|j]; simpl in *; simplify_eq; try lia.
  - rewrite Forall_forall in Hx. apply Hx. by eapply list_elem_of_lookup_2.
  - eapply IH; eauto. lia.
Qed.

Lemma strictly_sorted_lookup s i j a b :
  strictly_sorted s → s !! i = Some a → s !! j = Some b → (i < j)%nat →
  offset a < offset b.
Proof.
  intros Hs. revert i j. induction Hs as [|x l _ IH Hx]; intros i j Hi Hj Hij.
  { by rewrite lookup_nil in Hi. }
  destruct i as [|i], j as [|j]; simpl in *; simplify_eq; try lia.
  - rewrite Forall_forall in Hx. apply Hx. by eapply list_elem_of_lookup_2.
  - eapply IH; eauto. lia.
Qed.

Lemma scan_le_length o s : (scan o s ≤ length s)%nat.
Proof. induction s as [|e s IH]; simpl; [lia|]. destruct (offset e >? o); simpl; lia. Qed.

Lemma scan_lookup_lt o s i e :
  (i < scan o s)%nat → s !! i = Some e → offset e ≤ o.
Proof.
  revert i. induction s as [|x s IH]; simpl; intros i Hi He; [lia|].
  destruct (offset x >? o) eqn:E; [lia|].
  destruct i as [|i]; simpl in *; simplify_eq; [lia|].
  eapply IH; eauto. lia.
Qed.

Lemma scan_lookup_eq o s e : s !! scan o s = Some e → o < offset e.
Proof.
  induction s as [|x s IH]; simpl; [done|].
  destruct (offset x >? o) eqn:E; simpl; intros; simplify_eq; [lia|eauto].
Qed.

Lemma scan_sorted_ge o s i e :
  sorted s → (scan o s ≤ i)%nat → s !! i = Some e → o < offset e.
Proof.
  intros Hs Hi He.
  destruct (s !! scan o s) as [x|] eqn:Hx.
  - pose proof (scan_lookup_eq _ _ _ Hx).
    pose proof (sorted_lookup _ _ _ _ _ Hs Hx He Hi). lia.
  - apply lookup_ge_None in Hx. apply lookup_lt_Some in He.
    pose proof (scan_le_length o s). lia.
Qed.

Lemma scan_unique o s k :
  (∀ i e, (i < k)%nat → s !! i = Some e → offset e ≤ o) →
  (∀ e, s !! k = Some e → o < offset e) →
  (k ≤ length s)%nat →
  scan o s = k.
Proof.
  revert k. induction s as [|x s IH]; simpl; intros k Hlt Heq Hk; [lia|].
  destruct (offset x >? o) eqn:E.
  - destruct k as [|k]; [done|].
    pose proof (Hlt 0%nat x ltac:(lia) eq_refl). lia.
  - destruct k as [|k].
    + specialize (Heq x eq_refl). lia.
    + f_equal. apply IH; [|done|lia].
      intros i e Hi He. apply (Hlt (S i)); [lia|done].
Qed.

Lemma scan_mono o o' s : o ≤ o' → (scan o s ≤ scan o' s)%nat.
Proof.
  intros Ho. induction s as [|x s IH]; simpl; [lia|].
  destruct (offset x >? o) eqn:E, (offset x >? o') eqn:E'; lia.
Qed.

Lemma scan_all o s :
  Forall (λ e, offset e ≤ o) s → scan o s = length s.
Proof.
  induction 1 as [|x s Hx _ IH]; simpl; [done|].
  destruct (offset x >? o) eqn:E; [lia|]. by rewrite IH.
Qed.

(** ** The stable sort after a push *)

Lemma insert_by_offset_head x l :
  (∀ y, head l = Some y → offset x ≤ offset y) → insert_by_offset x l = x :: l.
Proof.
  destruct l as [|y l]; simpl; [done|]. intros H.
  specialize (H y eq_refl). destruct (offset x <=? offset y) eqn:E; [done|lia].
Qed.

Lemma sort_by_offset_sorted l : sorted l → sort_by_offset l = l.
Proof.
  unfold sort_by_offset. induction 1 as [|a l _ IH Ha]; simpl; [done|].
  rewrite IH. apply insert_by_offset_head.
  intros y Hy. destruct l; simplify_eq/=. by inversion Ha.
Qed.

(** Sorting a sorted array to which one entry was pushed moves that entry
    behind the entries whose offset is not above its own. *)
Lemma sort_by_offset_push l n :
  sorted l →
  sort_by_offset (l ++ [n]) =
  take (scan (offset n) l) l ++ n :: drop (scan (offset n) l) l.
Proof.
  unfold sort_by_offset. induction 1 as [|a l Hl IH Ha]; simpl; [done|].
  rewrite IH.
  destruct (offset a >? offset n) eqn:E; simpl.
  - assert (scan (offset n) l = 0%nat) as ->.
    { destruct l as [|b l]; simpl; [done|]. inversion Ha; subst.
      destruct (offset b >? offset n) eqn:E'; [done|lia]. }
    simpl. destruct (offset a <=? offset n) eqn:E'; [lia|].
    f_equal. apply insert_by_offset_head.
    intros y Hy. destruct l; simplify_eq/=. by inversion Ha.
  - apply insert_by_offset_head. intros y Hy.
    destruct l as [|b l]; simpl in *.
    + simplify_eq. lia.
    + inversion Ha; subst. destruct (offset b >? offset n) eqn:E'; simplify_eq/=; lia.
Qed.

(** ** What [locateEntry] computes *)

Lemma locate_loop_scan es i cand o :
  locate_loop es i cand o =
  let k := scan o es in
  let c := match k with O => cand | S k' => es !! k' end in
  if (k <? length es)%nat then Ok (Some (mkLocated c (i + Z.of_nat k - 1)))
  else match c with
       | None => TypeError
       | Some c =>
           if o <? offset c + textLength c
           then Ok (Some (mkLocated (Some c) (i + Z.of_nat k - 1)))
           else Ok None
       end.
Proof.
  revert i cand. induction es as [|e es IH]; intros i cand; simpl.
  { by rewrite Z.add_0_r. }
  destruct (offset e >? o) eqn:E; simpl.
  { by rewrite Z.add_0_r. }
  rewrite IH. simpl.
  replace (i + 1 + Z.of_nat (scan o es) - 1) with (i + Z.of_nat (S (scan o es)) - 1) by lia.
  assert (match scan o es with O => Some e | S k' => es !! k' end
          = (e :: es) !! scan o es) as -> by (by destruct (scan o es)).
  done.
Qed.

Lemma locateEntry_scan s o :
  locateEntry s (Fin o) =
  let k := scan o s in
  if (k <? length s)%nat then Ok (Some (mkLocated (prev s k) (Z.of_nat k - 1)))
  else match prev s k with
       | None => TypeError
       | Some c =>
           if o <? offset c + textLength c
           then Ok (Some (mkLocated (Some c) (Z.of_nat k - 1)))
           else Ok None
       end.
Proof. unfold locateEntry. rewrite locate_loop_scan. done. Qed.

(** A located entry is the entry of the store at the located index, its
    offset is not above the one looked for, and the next entry starts
    above it. *)
Lemma locateEntry_found s o le e :
  locateEntry s (Fin o) = Ok (Some le) → entry le = Some e →
  ∃ k, scan o s = S k ∧ index le = Z.of_nat k ∧ s !! k = Some e ∧ offset e ≤ o ∧
       ((S k < length s)%nat ∨ o < offset e + textLength e).
Proof.
  rewrite locateEntry_scan. simpl. intros H He.
  destruct (scan o s) as [|k] eqn:Hk; simpl in H.
  - destruct (0 <? length s)%nat; simplify_eq/=.
  - exists k. destruct (S k <? length s)%nat eqn:Hlt.
    + simplify_eq/=. split_and!; try done; try lia.
      * eapply scan_lookup_lt; [|done]. lia.
      * left. by apply Nat.ltb_lt.
    + destruct (s !! k) as [c|] eqn:Hc; [|done].
      destruct (o <? offset c + textLength c) eqn:Ho; simplify_eq/=.
      split_and!; try done; try lia.
      eapply scan_lookup_lt; [|done]. lia.
Qed.

Lemma locateEntry_not_found s o :
  locateEntry s (Fin o) = Ok None →
  ∃ l, last s = Some l ∧ scan o s = length s ∧ offset l + textLength l ≤ o.
Proof.
  rewrite locateEntry_scan. simpl. intros H.
  pose proof (scan_le_length o s) as Hle.
  destruct (scan o s <? length s)%nat eqn:Hlt; [done|].
  apply Nat.ltb_ge in Hlt. assert (scan o s = length s) as Hk by lia.
  rewrite Hk in H. destruct s as [|x s] using rev_ind; [done|].
  rewrite length_app in H. simpl in H. rewrite Nat.add_1_r in H. simpl in H.
  rewrite lookup_app_r in H by lia. rewrite Nat.sub_diag in H. simpl in H.
  exists x. rewrite last_snoc. destruct (o <? offset x + textLength x) eqn:Ho; [done|].
  split_and!; [done|done|lia].
Qed.

Lemma locateEntry_throws s o :
  locateEntry s o = TypeError → s = [].
Proof.
  destruct o as [o|]; [|done]. rewrite locateEntry_scan. simpl.
  destruct s as [|x s]; [done|]. intros H.
  destruct (scan o (x :: s)) as [|k] eqn:Hk; [simpl in H; discriminate H|].
  pose proof (scan_le_length o (x :: s)) as Hle. rewrite Hk in Hle.
  destruct (S k <? length (x :: s))%nat eqn:Hlt; [discriminate H|].
  unfold prev in H.
  apply Nat.ltb_ge in Hlt.
  destruct ((x :: s) !! k) as [c|] eqn:Hc.
  - by destruct (o <? offset c + textLength c).
  - apply lookup_ge_None in Hc. lia.
Qed.

(** ** One boundary of [ensureExactSpan] *)

Lemma ensureExactSpan_boundary start end_ s :
  ensureExactSpan start end_ s = bind (boundary start) (λ _, boundary end_) s.
Proof.
  unfold ensureExactSpan, boundary, bind, read.
  by destruct (locateEntry s start) as [[le|]|].
Qed.

Lemma copyClasses_id cl : copyClasses cl = cl.
Proof.
  unfold copyClasses.
  assert (∀ l (acc : gset string),
    foldl (λ acc c, acc ∪ {[c]}) acc l = acc ∪ list_to_set l) as H.
  { induction l as [|c l IH]; intros acc; simpl.
    - by rewrite (right_id_L ∅ (∪)).
    - by rewrite IH, (assoc_L (∪)). }
  rewrite H. rewrite list_to_set_elements_L. by rewrite (left_id_L ∅ (∪)).
Qed.

Lemma scan_same_offsets o (s s' : Store) :
  offset <$> s = offset <$> s' → scan o s = scan o s'.
Proof.
  revert s'. induction s as [|x s IH]; intros [|x' s'] H; try done.
  rewrite !fmap_cons in H. injection H as Hx Hs.
  simpl. rewrite Hx. by rewrite (IH s').
Qed.

Lemma sorted_offsets (R : relation Z) (s : Store) :
  StronglySorted (λ a b, R (offset a) (offset b)) s ↔ StronglySorted R (offset <$> s).
Proof.
  induction s as [|x s IH]; simpl.
  { split; constructor. }
  split; inversion 1; subst; constructor; try (by apply IH).
  - by apply Forall_fmap.
  - by apply Forall_fmap.
Qed.

Lemma sorted_same_offsets (s s' : Store) :
  offset <$> s = offset <$> s' → sorted s → sorted s'.
Proof.
  unfold sorted. intros H. by rewrite !(sorted_offsets Z.le), H.
Qed.

Lemma strictly_sorted_same_offsets (s s' : Store) :
  offset <$> s = offset <$> s' → strictly_sorted s → strictly_sorted s'.
Proof.
  unfold strictly_sorted. intros H. by rewrite !(sorted_offsets Z.lt), H.
Qed.

Lemma fmap_offset_insert (s : Store) i e e' :
  s !! i = Some e → offset e' = offset e →
  offset <$> <[i:=e']> s = offset <$> s.
Proof.
  intros Hi He. rewrite list_fmap_insert, He.
  apply list_insert_id. by rewrite list_lookup_fmap, Hi.
Qed.

Lemma splitEntry_split_at s k e a :
  sorted s → s !! k = Some e → scan a s = S k →
  splitEntry (Z.of_nat k) e a s = (split_at s k e a, Ok tt).
Proof.
  intros Hs Hk Hscan. unfold splitEntry. rewrite copyClasses_id, Nat2Z.id.
  set (e' := set_text _ e). set (n := mkEntry a _ _ _).
  assert (offset <$> <[k:=e']> s = offset <$> s) as Hoff
    by (by apply (fmap_offset_insert _ _ e)).
  rewrite sort_by_offset_push by (by eapply sorted_same_offsets).
  change (offset n) with a. rewrite (scan_same_offsets _ _ _ Hoff), Hscan.
  unfold split_at, cut_head, cut_tail. fold e' n.
  pose proof (lookup_lt_Some _ _ _ Hk).
  rewrite (take_S_r _ _ e') by (by rewrite list_lookup_insert_eq).
  rewrite take_insert_ge, drop_insert_lt by lia.
  by rewrite <- app_assoc.
Qed.

Lemma boundary_Fin s a :
  sorted s →
  boundary (Fin a) s =
  match prev s (scan a s) with
  | None => (s, TypeError)
  | Some e =>
      if ((scan a s <? length s)%nat || (a <? offset e + textLength e))
         && negb (offset e =? a)
      then (split_at s (pred (scan a s)) e a, Ok tt)
      else (s, Ok tt)
  end.
Proof.
  intros Hs. unfold boundary, bind, read. rewrite locateEntry_scan.
  destruct (scan a s) as [|k] eqn:Hk.
  { simpl. by destruct (0 <? length s)%nat. }
  cbv zeta. unfold prev.
  replace (Z.of_nat (S k) - 1) with (Z.of_nat k) by lia.
  destruct (s !! k) as [e|] eqn:He; simpl.
  - destruct (S k <? length s)%nat eqn:Hlt; simpl.
    + destruct (negb (offset e =? a)); [|done]. by apply splitEntry_split_at.
    + destruct (a <? offset e + textLength e); simpl; [|done].
      destruct (negb (offset e =? a)); [|done]. by apply splitEntry_split_at.
  - by destruct (S k <? length s)%nat.
Qed.

Lemma textLength_nonneg e : 0 ≤ textLength e.
Proof. apply str_length_nonneg. Qed.

Lemma sorted_last s l x : sorted s → last s = Some l → x ∈ s → offset x ≤ offset l.
Proof.
  intros Hs Hl Hx. apply list_elem_of_lookup in Hx as [i Hi].
  rewrite last_lookup in Hl.
  eapply sorted_lookup; eauto. apply lookup_lt_Some in Hi. lia.
Qed.

Lemma aligned_scan s a :
  sorted s → aligned s (Fin a) →
  ∃ k x, scan a s = S k ∧ s !! k = Some x ∧
         (offset x = a ∨ (S k = length s ∧ offset x + textLength x ≤ a)).
Proof.
  intros Hs [(e & He & Hoff)|(l & Hl & Hend)].
  - apply list_elem_of_lookup in He as [i Hi].
    destruct (scan a s) as [|k] eqn:Hk.
    { pose proof (scan_sorted_ge a s i e Hs ltac:(lia) Hi). lia. }
    assert (i ≤ k)%nat as Hik.
    { destruct (decide (i ≤ k)%nat); [done|].
      pose proof (scan_sorted_ge a s i e Hs ltac:(lia) Hi). lia. }
    pose proof (scan_le_length a s).
    destruct (lookup_lt_is_Some_2 s k ltac:(lia)) as [x Hx].
    exists k, x. split_and!; [done..|]. left.
    pose proof (scan_lookup_lt a s k x ltac:(lia) Hx).
    pose proof (sorted_lookup _ _ _ _ _ Hs Hi Hx Hik). lia.
  - pose proof (textLength_nonneg l).
    assert (scan a s = length s) as Hk.
    { apply scan_all, Forall_forall. intros x Hx.
      pose proof (sorted_last _ _ _ Hs Hl Hx). lia. }
    rewrite last_lookup in Hl.
    destruct s as [|y s]; [done|]. simpl in *.
    exists (length s), l. rewrite Hk. split_and!; [done..|]. right. done.
Qed.

Lemma boundary_aligned s o :
  sorted s → aligned s o → boundary o s = (s, Ok tt).
Proof.
  intros Hs Ha. destruct o as [a|]; [|done].
  destruct (aligned_scan _ _ Hs Ha) as (k & x & Hk & Hx & Hc).
  rewrite boundary_Fin, Hk by done. simpl. rewrite Hx.
  destruct Hc as [Hc|[Hlen Hend]].
  - subst a. rewrite Z.eqb_refl. simpl. by rewrite andb_false_r.
  - rewrite <- Hlen, Nat.ltb_irrefl.
    destruct (a <? offset x + textLength x) eqn:E; [lia|]. done.
Qed.

(** What [locateEntry] answers for a boundary that needs no split. *)
Lemma locateEntry_aligned s a :
  sorted s → aligned s (Fin a) →
  locateEntry s (Fin a) = Ok None ∨
  ∃ e, locateEntry s (Fin a) = Ok (Some (mkLocated (Some e) (Z.of_nat (scan a s) - 1)))
       ∧ s !! pred (scan a s) = Some e ∧ offset e = a.
Proof.
  intros Hs Ha.
  destruct (aligned_scan _ _ Hs Ha) as (k & x & Hk & Hx & Hc).
  rewrite locateEntry_scan, Hk. cbv zeta. unfold prev. rewrite Hx. simpl.
  destruct Hc as [Hc|[Hlen Hend]].
  - destruct (S k <? length s)%nat; [right; by exists x|].
    destruct (a <? offset x + textLength x); [right; by exists x|by left].
  - rewrite <- Hlen, Nat.ltb_irrefl.
    destruct (a <? offset x + textLength x) eqn:E; [lia|]. by left.
Qed.

(** ** The store after a split *)

Lemma boundary_cases s o s' r :
  sorted s → boundary o s = (s', r) →
  (r = TypeError ∧ s' = s ∧ ∃ a, o = Fin a ∧ scan a s = 0%nat) ∨
  (r = Ok tt ∧ s' = s ∧ aligned s o) ∨
  (r = Ok tt ∧ ∃ a k e, o = Fin a ∧ splits s k e a ∧ s' = split_at s k e a).
Proof.
  intros Hs. destruct o as [a|].
  2:{ intros [= <- <-]. right; left. done. }
  rewrite boundary_Fin by done.
  destruct (scan a s) as [|k] eqn:Hk; simpl.
  { intros [= <- <-]. left. eauto. }
  pose proof (scan_le_length a s) as Hle.
  destruct (s !! k) as [e|] eqn:He.
  2:{ apply lookup_ge_None in He. lia. }
  pose proof (scan_lookup_lt a s k e ltac:(lia) He) as Hea.
  destruct (S k <? length s)%nat eqn:Hlt; simpl.
  - apply Nat.ltb_lt in Hlt.
    destruct (offset e =? a) eqn:Heq; simpl; intros [= <- <-]; right.
    + left. split_and!; [done..|]. left. exists e. split; [|lia].
      by eapply list_elem_of_lookup_2.
    + right. split; [done|]. exists a, k, e. unfold splits.
      split_and!; auto; lia.
  - apply Nat.ltb_ge in Hlt.
    destruct (a <? offset e + textLength e) eqn:Hend; simpl.
    + destruct (offset e =? a) eqn:Heq; simpl; intros [= <- <-]; right.
      * left. split_and!; [done..|]. left. exists e. split; [|lia].
        by eapply list_elem_of_lookup_2.
      * right. split; [done|]. exists a, k, e. unfold splits.
        split_and!; auto; lia.
    + intros [= <- <-]. right; left. split_and!; [done..|]. right.
      exists e. split; [|lia]. rewrite last_lookup.
      replace (pred (length s)) with k by lia. done.
Qed.

Lemma splits_decomp s k e a :
  sorted s → splits s k e a →
  ∃ l1 l2, s = l1 ++ e :: l2 ∧
           split_at s k e a = l1 ++ cut_head e a :: cut_tail e a :: l2 ∧
           (∀ x, x ∈ l1 → offset x ≤ offset e) ∧
           (∀ x, x ∈ l2 → a < offset x) ∧
           (l2 = [] → a < offset e + textLength e).
Proof.
  intros Hs (Hk & He & Hea & Hend).
  exists (take k s), (drop (S k) s). split_and!.
  - by rewrite take_drop_middle.
  - done.
  - intros x Hx. apply list_elem_of_lookup in Hx as [i Hi].
    apply lookup_take_Some in Hi as [Hi Hik].
    eapply sorted_lookup; eauto. lia.
  - intros x Hx. apply list_elem_of_lookup in Hx as [i Hi].
    rewrite lookup_drop in Hi.
    eapply (scan_sorted_ge a s); [done| |done]. lia.
  - intros Hnil. destruct Hend as [Hlt|]; [|done].
    apply (f_equal length) in Hnil. rewrite length_drop in Hnil. simpl in Hnil. lia.
Qed.

Lemma sorted_split_at s k e a :
  sorted s → splits s k e a → sorted (split_at s k e a).
Proof.
  intros Hs Hsp. pose proof Hsp as (_ & _ & Hea & _).
  destruct (splits_decomp _ _ _ _ Hs Hsp) as (l1 & l2 & -> & -> & H1 & H2 & _).
  unfold sorted in *.
  rewrite StronglySorted_app, !StronglySorted_cons, !Forall_forall in *.
  destruct Hs as (H12 & Hl1 & He & Hl2).
  split_and!; try done.
  - intros x1 x2 Hx1 Hx2. specialize (H1 x1 Hx1).
    rewrite !elem_of_cons in Hx2. destruct Hx2 as [->|[->|Hx2]]; simpl; try lia.
    specialize (H2 x2 Hx2). lia.
  - intros x Hx. rewrite elem_of_cons in Hx. destruct Hx as [->|Hx]; simpl; [lia|].
    specialize (H2 x Hx). lia.
  - intros x Hx. specialize (H2 x Hx). simpl. lia.
Qed.

Lemma strictly_sorted_split_at s k e a :
  strictly_sorted s → splits s k e a → strictly_sorted (split_at s k e a).
Proof.
  intros Hss Hsp. pose proof Hsp as (_ & _ & Hea & _).
  pose proof (strictly_sorted_sorted _ Hss) as Hs.
  destruct (splits_decomp _ _ _ _ Hs Hsp) as (l1 & l2 & -> & -> & H1 & H2 & _).
  unfold strictly_sorted in *.
  rewrite StronglySorted_app, !StronglySorted_cons, !Forall_forall in *.
  destruct Hss as (H12 & Hl1 & He & Hl2).
  split_and!; try done.
  - intros x1 x2 Hx1 Hx2.
    pose proof (H12 x1 e Hx1 ltac:(by left)) as Hx1e.
    rewrite !elem_of_cons in Hx2. destruct Hx2 as [->|[->|Hx2]]; simpl; try lia.
    specialize (H2 x2 Hx2). lia.
  - intros x Hx. rewrite elem_of_cons in Hx. destruct Hx as [->|Hx]; simpl; [lia|].
    specialize (H2 x Hx). lia.
Qed.

Lemma append_assoc (a b c : string) : (a +:+ b) +:+ c = a +:+ (b +:+ c).
Proof.
  induction a as [|x a IH]; [done|]. rewrite !append_String. by rewrite IH.
Qed.

Lemma document_text_app s1 s2 :
  document_text (s1 ++ s2) = document_text s1 +:+ document_text s2.
Proof.
  induction s1 as [|e s1 IH]; simpl; [done|]. by rewrite IH, append_assoc.
Qed.

Lemma cut_text e a :
  offset e ≤ a →
  textContent (node (cut_head e a)) +:+ textContent (node (cut_tail e a))
  = textContent (node e).
Proof. intros. simpl. apply slice_split. lia. Qed.

Lemma document_text_split_at s k e a :
  sorted s → splits s k e a → document_text (split_at s k e a) = document_text s.
Proof.
  intros Hs Hsp. pose proof Hsp as (_ & _ & Hea & _).
  destruct (splits_decomp _ _ _ _ Hs Hsp) as (l1 & l2 & -> & -> & _).
  rewrite !document_text_app. f_equal.
  change (document_text (cut_head e a :: cut_tail e a :: l2))
    with (textContent (node (cut_head e a))
          +:+ (textContent (node (cut_tail e a)) +:+ document_text l2)).
  rewrite <- append_assoc, cut_text by lia. done.
Qed.

Lemma cut_tail_end e a :
  offset e < a < offset e + textLength e →
  offset (cut_tail e a) + textLength (cut_tail e a) = offset e + textLength e.
Proof.
  intros. unfold textLength. simpl. rewrite slice_after_length by lia.
  unfold textLength in *. lia.
Qed.

Lemma docEnd_split_at s k e a :
  sorted s → splits s k e a → docEnd (split_at s k e a) = docEnd s.
Proof.
  intros Hs Hsp. pose proof Hsp as (_ & _ & Hea & _).
  destruct (splits_decomp _ _ _ _ Hs Hsp) as (l1 & l2 & -> & -> & _ & _ & Hend).
  unfold docEnd. rewrite !last_app. simpl.
  destruct l2 as [|y l2]; simpl.
  - f_equal. apply cut_tail_end. specialize (Hend eq_refl). lia.
  - done.
Qed.

Lemma docStart_split_at s k e a :
  sorted s → splits s k e a → docStart (split_at s k e a) = docStart s.
Proof.
  intros Hs Hsp.
  destruct (splits_decomp _ _ _ _ Hs Hsp) as (l1 & l2 & -> & -> & _).
  unfold docStart. by destruct l1.
Qed.

Lemma starts_split_at s k e a b :
  sorted s → splits s k e a →
  starts (split_at s k e a) b ↔ starts s b ∨ b = a.
Proof.
  intros Hs Hsp.
  destruct (splits_decomp _ _ _ _ Hs Hsp) as (l1 & l2 & -> & -> & _).
  unfold starts. split.
  - intros (x & Hx & <-). rewrite elem_of_app, !elem_of_cons in Hx.
    destruct Hx as [Hx|[->|[->|Hx]]].
    + left. exists x. split; [|done]. rewrite elem_of_app. by left.
    + left. exists e. split; [|done]. rewrite elem_of_app, elem_of_cons. auto.
    + by right.
    + left. exists x. split; [|done]. rewrite elem_of_app, elem_of_cons. auto.
  - intros [(x & Hx & <-)| ->].
    + rewrite elem_of_app, elem_of_cons in Hx. destruct Hx as [Hx|[->|Hx]].
      * exists x. split; [|done]. rewrite elem_of_app. by left.
      * exists (cut_head e a). split; [|done]. rewrite elem_of_app, elem_of_cons. auto.
      * exists x. split; [|done]. rewrite elem_of_app, !elem_of_cons. auto.
    + exists (cut_tail e a). split; [|done]. rewrite elem_of_app, !elem_of_cons. auto.
Qed.

Lemma aligned_alt s o :
  aligned s o ↔
  match o with
  | Infinity => True
  | Fin a => starts s a ∨ ∃ z, docEnd s = Some z ∧ z ≤ a
  end.
Proof.
  destruct o as [a|]; [|done]. unfold aligned, starts, docEnd. simpl.
  split; (intros [H|H]; [by left|right]).
  - destruct H as (l & -> & H). eauto.
  - destruct H as (z & Hz & H). destruct (last s) as [l|]; simplify_eq/=. eauto.
Qed.

Lemma aligned_split_at s k e a o :
  sorted s → splits s k e a → aligned s o → aligned (split_at s k e a) o.
Proof.
  intros Hs Hsp. rewrite !aligned_alt. destruct o as [b|]; [|done].
  rewrite docEnd_split_at, starts_split_at by done. tauto.
Qed.

Lemma aligned_split_at_self s k e a :
  sorted s → splits s k e a → aligned (split_at s k e a) (Fin a).
Proof.
  intros Hs Hsp. rewrite aligned_alt, starts_split_at by done. auto.
Qed.

(** ** What one boundary does to the store *)

Section boundary.
Context (s s' : Store) (o : Offset) (r : Res unit).
Hypothesis Hs : sorted s.
Hypothesis Hb : boundary o s = (s', r).

Lemma boundary_sorted : sorted s'.
Proof using Hs Hb.
  destruct (boundary_cases _ _ _ _ Hs Hb)
    as [(_ & -> & _)|[(_ & -> & _)|(_ & a & k & e & _ & Hsp & ->)]]; try done.
  by apply sorted_split_at.
Qed.

Lemma boundary_strictly_sorted : strictly_sorted s → strictly_sorted s'.
Proof using Hs Hb.
  destruct (boundary_cases _ _ _ _ Hs Hb)
    as [(_ & -> & _)|[(_ & -> & _)|(_ & a & k & e & _ & Hsp & ->)]]; try done.
  intros. by apply strictly_sorted_split_at.
Qed.

Lemma boundary_document_text : document_text s' = document_text s.
Proof using Hs Hb.
  destruct (boundary_cases _ _ _ _ Hs Hb)
    as [(_ & -> & _)|[(_ & -> & _)|(_ & a & k & e & _ & Hsp & ->)]]; try done.
  by apply document_text_split_at.
Qed.

Lemma boundary_docEnd : docEnd s' = docEnd s.
Proof using Hs Hb.
  destruct (boundary_cases _ _ _ _ Hs Hb)
    as [(_ & -> & _)|[(_ & -> & _)|(_ & a & k & e & _ & Hsp & ->)]]; try done.
  by apply docEnd_split_at.
Qed.

Lemma boundary_docStart : docStart s' = docStart s.
Proof using Hs Hb.
  destruct (boundary_cases _ _ _ _ Hs Hb)
    as [(_ & -> & _)|[(_ & -> & _)|(_ & a & k & e & _ & Hsp & ->)]]; try done.
  by apply docStart_split_at.
Qed.

Lemma boundary_aligned_self : r = Ok tt → aligned s' o.
Proof using Hs Hb.
  destruct (boundary_cases _ _ _ _ Hs Hb)
    as [(-> & _)|[(_ & -> & Ha)|(_ & a & k & e & -> & Hsp & ->)]]; try done.
  intros _. by apply aligned_split_at_self.
Qed.

Lemma boundary_aligned_other o' : aligned s o' → aligned s' o'.
Proof using Hs Hb.
  destruct (boundary_cases _ _ _ _ Hs Hb)
    as [(_ & -> & _)|[(_ & -> & _)|(_ & a & k & e & _ & Hsp & ->)]]; try done.
  by apply aligned_split_at.
Qed.

End boundary.

Lemma boundary_idem s o s' r :
  sorted s → boundary o s = (s', r) → boundary o s' = (s', r).
Proof.
  intros Hs Hb. destruct r as [[]|].
  - apply boundary_aligned; [by eapply boundary_sorted|by eapply boundary_aligned_self].
  - destruct (boundary_cases _ _ _ _ Hs Hb)
      as [(_ & -> & _)|[(? & _)|(? & _)]]; done.
Qed.

Lemma scan_pos s a : (0 < scan a s)%nat ↔ ∃ z, docStart s = Some z ∧ z ≤ a.
Proof.
  unfold docStart. destruct s as [|x s]; simpl.
  - split; [lia|]. by intros (? & ? & ?).
  - destruct (offset x >? a) eqn:E; split; try lia.
    + intros (? & ? & ?). simplify_eq. lia.
    + intros _. exists (offset x). split; [done|lia].
Qed.

Lemma boundary_returns s o s' r :
  sorted s → boundary o s = (s', r) → r = Ok tt ↔ not_before s o.
Proof.
  intros Hs Hb.
  destruct (boundary_cases _ _ _ _ Hs Hb)
    as [(-> & _ & a & -> & Hk)|[(-> & -> & Ha)|(-> & a & k & e & -> & Hsp & ->)]].
  - split; [done|]. simpl. rewrite <- scan_pos. lia.
  - split; [|done]. intros _. destruct o as [a|]; [|done]. simpl.
    destruct (aligned_scan _ _ Hs Ha) as (k & x & Hk & _).
    rewrite <- scan_pos. lia.
  - split; [|done]. intros _. simpl. destruct Hsp as (Hk & _).
    rewrite <- scan_pos. lia.
Qed.

Lemma sorted_docEnd s z x : sorted s → docEnd s = Some z → x ∈ s → offset x ≤ z.
Proof.
  unfold docEnd. intros Hs Hz Hx. destruct (last s) as [l|] eqn:Hl; simplify_eq/=.
  pose proof (sorted_last _ _ _ Hs Hl Hx). pose proof (textLength_nonneg l). lia.
Qed.

Lemma splits_inside s k e a : sorted s → splits s k e a → inside s (Fin a).
Proof.
  intros Hs (Hk & He & Hea & Hend). split.
  - rewrite <- scan_pos. lia.
  - unfold docEnd. rewrite last_lookup.
    pose proof (lookup_lt_Some _ _ _ He) as Hlen.
    destruct (lookup_lt_is_Some_2 s (pred (length s)) ltac:(lia)) as [l Hl].
    rewrite Hl. simpl. eexists; split; [done|]. cbv beta.
    destruct (decide (S k < length s)%nat) as [Hlt|Hge].
    + pose proof (scan_sorted_ge a s (pred (length s)) l Hs ltac:(lia) Hl).
      pose proof (textLength_nonneg l). lia.
    + destruct Hend as [?|Hend]; [lia|].
      replace (pred (length s)) with k in Hl by lia. by simplify_eq.
Qed.

(** The segment starts after a boundary: those before it, and the boundary
    itself when the call returns and the boundary is inside the document. *)
Lemma boundary_starts s o s' r b :
  sorted s → boundary o s = (s', r) →
  starts s' b ↔ starts s b ∨ (o = Fin b ∧ r = Ok tt ∧ inside s o).
Proof.
  intros Hs Hb.
  destruct (boundary_cases _ _ _ _ Hs Hb)
    as [(-> & -> & _)|[(-> & -> & Ha)|(-> & a & k & e & -> & Hsp & ->)]].
  - split; [auto|]. by intros [?|(_ & ? & _)].
  - split; [auto|]. intros [?|(-> & _ & Hin)]; [done|].
    destruct Ha as [?|(l & Hl & Hend)]; [done|].
    destruct Hin as (_ & z & Hz & Hlt). unfold docEnd in Hz. rewrite Hl in Hz.
    simplify_eq/=. lia.
  - rewrite starts_split_at by done. split.
    + intros [?| ->]; [by left|right]. split_and!; [done..|]. by eapply splits_inside.
    + intros [?|([= ->] & _)]; auto.
Qed.

(** ** ensureExactSpan *)

Lemma ensureExactSpan_cases start end_ s s' r :
  ensureExactSpan start end_ s = (s', r) →
  ∃ s1 r1, boundary start s = (s1, r1) ∧
    ((r1 = TypeError ∧ s' = s1 ∧ r = TypeError) ∨
     (r1 = Ok tt ∧ boundary end_ s1 = (s', r))).
Proof.
  rewrite ensureExactSpan_boundary. unfold bind.
  destruct (boundary start s) as [s1 [[]|]] eqn:H1; intros H.
  - exists s1, (Ok tt). eauto.
  - exists s1, TypeError. simplify_eq. eauto.
Qed.

Lemma inside_same s s' o :
  docStart s' = docStart s → docEnd s' = docEnd s → inside s' o ↔ inside s o.
Proof. intros H1 H2. destruct o; [|done]. simpl. by rewrite H1, H2. Qed.

Lemma not_before_same s s' o :
  docStart s' = docStart s → not_before s' o ↔ not_before s o.
Proof. intros H1. destruct o; [|done]. simpl. by rewrite H1. Qed.

Lemma boundary_outside s o s' r :
  sorted s → boundary o s = (s', r) → ¬ inside s o → s' = s.
Proof.
  intros Hs Hb Hout.
  destruct (boundary_cases _ _ _ _ Hs Hb)
    as [(_ & -> & _)|[(_ & -> & _)|(_ & a & k & e & -> & Hsp & ->)]]; try done.
  destruct Hout. by eapply splits_inside.
Qed.

Lemma ensureExactSpan_sorted start end_ s s' r :
  sorted s → ensureExactSpan start end_ s = (s', r) → sorted s'.
Proof.
  intros Hs H.
  destruct (ensureExactSpan_cases _ _ _ _ _ H)
    as (s1 & r1 & H1 & [(_ & -> & _)|(_ & H2)]).
  - by eapply boundary_sorted.
  - eapply boundary_sorted; [|done]. by eapply boundary_sorted.
Qed.

Lemma ensureExactSpan_strictly_sorted start end_ s s' r :
  strictly_sorted s → ensureExactSpan start end_ s = (s', r) → strictly_sorted s'.
Proof.
  intros Hss H. pose proof (strictly_sorted_sorted _ Hss) as Hs.
  destruct (ensureExactSpan_cases _ _ _ _ _ H)
    as (s1 & r1 & H1 & [(_ & -> & _)|(_ & H2)]).
  - by eapply boundary_strictly_sorted.
  - eapply boundary_strictly_sorted; [|done|].
    + by eapply boundary_sorted.
    + by eapply boundary_strictly_sorted.
Qed.

Lemma ensureExactSpan_document_text start end_ s s' r :
  sorted s → ensureExactSpan start end_ s = (s', r) →
  document_text s' = document_text s.
Proof.
  intros Hs H.
  destruct (ensureExactSpan_cases _ _ _ _ _ H)
    as (s1 & r1 & H1 & [(_ & -> & _)|(_ & H2)]).
  - by eapply boundary_document_text.
  - etrans; [eapply boundary_document_text; [|done]|].
    + by eapply boundary_sorted.
    + by eapply boundary_document_text.
Qed.

Lemma ensureExactSpan_docStart start end_ s s' r :
  sorted s → ensureExactSpan start end_ s = (s', r) → docStart s' = docStart s.
Proof.
  intros Hs H.
  destruct (ensureExactSpan_cases _ _ _ _ _ H)
    as (s1 & r1 & H1 & [(_ & -> & _)|(_ & H2)]).
  - by eapply boundary_docStart.
  - etrans; [eapply boundary_docStart; [|done]|].
    + by eapply boundary_sorted.
    + by eapply boundary_docStart.
Qed.

Lemma ensureExactSpan_docEnd start end_ s s' r :
  sorted s → ensureExactSpan start end_ s = (s', r) → docEnd s' = docEnd s.
Proof.
  intros Hs H.
  destruct (ensureExactSpan_cases _ _ _ _ _ H)
    as (s1 & r1 & H1 & [(_ & -> & _)|(_ & H2)]).
  - by eapply boundary_docEnd.
  - etrans; [eapply boundary_docEnd; [|done]|].
    + by eapply boundary_sorted.
    + by eapply boundary_docEnd.
Qed.

(** The call returns exactly when neither boundary is before the
    document. *)
Lemma ensureExactSpan_returns start end_ s s' r :
  sorted s → ensureExactSpan start end_ s = (s', r) →
  r = Ok tt ↔ not_before s start ∧ not_before s end_.
Proof.
  intros Hs H.
  destruct (ensureExactSpan_cases _ _ _ _ _ H)
    as (s1 & r1 & H1 & [(-> & -> & ->)|(-> & H2)]).
  - pose proof (boundary_returns _ _ _ _ Hs H1) as Hr. split; [done|].
    intros [? _]. by apply Hr.
  - pose proof (boundary_returns _ _ _ _ Hs H1) as Hr1.
    pose proof (boundary_sorted _ _ _ _ Hs H1) as Hs1.
    pose proof (boundary_returns _ _ _ _ Hs1 H2) as Hr2.
    rewrite Hr2, (not_before_same s s1 end_ (boundary_docStart _ _ _ _ Hs H1)).
    split; [|tauto]. intros. split; [|done]. by apply Hr1.
Qed.

Lemma ensureExactSpan_aligned start end_ s s' :
  sorted s → ensureExactSpan start end_ s = (s', Ok tt) →
  aligned s' start ∧ aligned s' end_.
Proof.
  intros Hs H.
  destruct (ensureExactSpan_cases _ _ _ _ _ H)
    as (s1 & r1 & H1 & [(_ & _ & ?)|(-> & H2)]); [done|].
  pose proof (boundary_sorted _ _ _ _ Hs H1) as Hs1. split.
  - apply (boundary_aligned_other s1 s' end_ (Ok tt) Hs1 H2).
    apply (boundary_aligned_self s s1 start (Ok tt) Hs H1 eq_refl).
  - apply (boundary_aligned_self s1 s' end_ (Ok tt) Hs1 H2 eq_refl).
Qed.

Lemma ensureExactSpan_starts start end_ s s' c :
  sorted s → ensureExactSpan start end_ s = (s', Ok tt) →
  starts s' c ↔
  starts s c ∨ (start = Fin c ∧ inside s start) ∨ (end_ = Fin c ∧ inside s end_).
Proof.
  intros Hs H.
  destruct (ensureExactSpan_cases _ _ _ _ _ H)
    as (s1 & r1 & H1 & [(_ & _ & ?)|(-> & H2)]); [done|].
  pose proof (boundary_sorted _ _ _ _ Hs H1) as Hs1.
  rewrite (boundary_starts s1 end_ s' _ c Hs1 H2).
  rewrite (boundary_starts s start s1 _ c Hs H1).
  rewrite (inside_same s s1 end_ (boundary_docStart _ _ _ _ Hs H1)
             (boundary_docEnd _ _ _ _ Hs H1)).
  tauto.
Qed.

(** What [ensureExactSpan] gives when it returns: a segment starts at
    [start] and a segment starts at [end] whenever that boundary is inside
    the document; for a boundary that is [Infinity] or lies beyond the
    document no split is made: the store is the one the call with
    [Infinity] in its place leaves, and the only new segment starts are the
    boundaries inside the document.  The call returns when neither boundary
    is before the first segment. *)
Theorem ensureExactSpan_exact_span (s : Store) (start end_ : Offset) :
  sorted s →
  (not_before s start → not_before s end_ →
   ∃ s', ensureExactSpan start end_ s = (s', Ok tt)) ∧
  (∀ s', ensureExactSpan start end_ s = (s', Ok tt) →
     (inside s start → ∃ a, start = Fin a ∧ starts s' a) ∧
     (inside s end_ → ∃ b, end_ = Fin b ∧ starts s' b) ∧
     (¬ inside s start → ensureExactSpan Infinity end_ s = (s', Ok tt)) ∧
     (¬ inside s end_ → ensureExactSpan start Infinity s = (s', Ok tt)) ∧
     (∀ c, starts s' c ↔
           starts s c ∨ (start = Fin c ∧ inside s start)
           ∨ (end_ = Fin c ∧ inside s end_))).
Proof.
  intros Hs. split.
  - intros H1 H2. destruct (ensureExactSpan start end_ s) as [s' r] eqn:H.
    exists s'. f_equal. by apply (ensureExactSpan_returns _ _ _ _ _ Hs H).
  - intros s' H. split_and!.
    + intros Hin. destruct start as [a|]; [|done]. exists a. split; [done|].
      rewrite (ensureExactSpan_starts _ _ _ _ _ Hs H). auto.
    + intros Hin. destruct end_ as [b|]; [|done]. exists b. split; [done|].
      rewrite (ensureExactSpan_starts _ _ _ _ _ Hs H). auto.
    + intros Hout.
      destruct (ensureExactSpan_cases _ _ _ _ _ H)
        as (s1 & r1 & H1 & [(_ & _ & ?)|(-> & H2)]); [done|].
      rewrite (boundary_outside _ _ _ _ Hs H1 Hout) in H2.
      by rewrite ensureExactSpan_boundary.
    + intros Hout.
      destruct (ensureExactSpan_cases _ _ _ _ _ H)
        as (s1 & r1 & H1 & [(_ & _ & ?)|(-> & H2)]); [done|].
      pose proof (boundary_sorted _ _ _ _ Hs H1) as Hs1.
      rewrite <- (inside_same s s1 end_ (boundary_docStart _ _ _ _ Hs H1)
                    (boundary_docEnd _ _ _ _ Hs H1)) in Hout.
      rewrite (boundary_outside _ _ _ _ Hs1 H2 Hout).
      rewrite ensureExactSpan_boundary. unfold bind. by rewrite H1.
    + intros c. by apply ensureExactSpan_starts.
Qed.

(** C2: the guarantee does not hold after every call.  With a [start]
    before the first segment [locateEntry] answers [{entry: undefined,
    index: -1}], [ensureExactSpan] reads [startEntry.entry.offset] and
    throws a [TypeError]: the store is as it was and [end_] has not been
    looked at, so no segment starts at an [end_] inside the document at
    which none started before. *)
Theorem ensureExactSpan_start_before_first
    (s : Store) (a z : Z) (end_ : Offset) :
  docStart s = Some z → a < z →
  ensureExactSpan (Fin a) end_ s = (s, TypeError) ∧
  ∀ b, end_ = Fin b → ¬ starts s b →
       ¬ starts (ensureExactSpan (Fin a) end_ s).1 b.
Proof.
  intros Hz Ha.
  assert (ensureExactSpan (Fin a) end_ s = (s, TypeError)) as H.
  { destruct s as [|h t]; [done|]. injection Hz as Hz.
    unfold ensureExactSpan, bind, read. cbn [locateEntry locate_loop].
    by rewrite (proj2 (Z.gtb_lt (offset h) a)) by lia. }
  split; [done|]. intros b _ Hb. by rewrite H.
Qed.

(** The split [ensureExactSpan] makes for a located entry whose offset is
    not the boundary. *)
Lemma located_splits s a le e :
  locateEntry s (Fin a) = Ok (Some le) → entry le = Some e → offset e ≠ a →
  ∃ k, index le = Z.of_nat k ∧ splits s k e a.
Proof.
  intros Hl He Hne.
  destruct (locateEntry_found _ _ _ _ Hl He) as (k & Hk & Hi & Hk' & Hle & Hend).
  exists k. split; [done|]. unfold splits. split_and!; [done..|lia|done].
Qed.

(** C3: every split [ensureExactSpan] performs keeps the concatenation of
    the segment texts, hence the length of the document, and leaves the
    offsets of the store strictly increasing; so does the whole call. *)
Theorem split_preserves_text_and_order (s : Store) :
  strictly_sorted s →
  (∀ a le e s' r,
     locateEntry s (Fin a) = Ok (Some le) → entry le = Some e → offset e ≠ a →
     splitEntry (index le) e a s = (s', r) →
     document_text s' = document_text s ∧
     document_length s' = document_length s ∧
     strictly_sorted s') ∧
  (∀ start end_ s' r,
     ensureExactSpan start end_ s = (s', r) →
     document_text s' = document_text s ∧
     document_length s' = document_length s ∧
     strictly_sorted s').
Proof.
  intros Hss. pose proof (strictly_sorted_sorted _ Hss) as Hs. split.
  - intros a le e s' r Hl He Hne Hsplit.
    destruct (located_splits _ _ _ _ Hl He Hne) as (k & Hi & Hsp).
    pose proof Hsp as (Hk & Hk' & _).
    rewrite Hi, splitEntry_split_at in Hsplit by done. simplify_eq.
    pose proof (document_text_split_at _ _ _ _ Hs Hsp) as Ht.
    split_and!; [done| |by apply strictly_sorted_split_at].
    unfold document_length. by rewrite Ht.
  - intros start end_ s' r H.
    pose proof (ensureExactSpan_document_text _ _ _ _ _ Hs H) as Ht.
    split_and!; [done| |by eapply ensureExactSpan_strictly_sorted].
    unfold document_length. by rewrite Ht.
Qed.

Lemma ensureExactSpan_again start end_ s s' r :
  sorted s →
  ensureExactSpan start end_ s = (s', r) →
  ensureExactSpan start end_ s' = (s', r).
Proof.
  intros Hs H.
  destruct (ensureExactSpan_cases _ _ _ _ _ H)
    as (s1 & r1 & H1 & [(-> & -> & ->)|(-> & H2)]).
  - rewrite ensureExactSpan_boundary. unfold bind.
    by rewrite (boundary_idem _ _ _ _ Hs H1).
  - pose proof (boundary_sorted _ _ _ _ Hs H1) as Hs1.
    pose proof (boundary_sorted _ _ _ _ Hs1 H2) as Hs2.
    rewrite ensureExactSpan_boundary. unfold bind.
    rewrite (boundary_aligned s' start Hs2).
    + by apply (boundary_idem s1).
    + apply (boundary_aligned_other s1 s' end_ r Hs1 H2).
      apply (boundary_aligned_self s s1 start (Ok tt) Hs H1 eq_refl).
Qed.

(** C7: a second call of [ensureExactSpan] with the same arguments leaves
    the store as the first call left it, whatever the arguments: no segment
    is made and no text or offset changes; it ends as the first one did. *)
Theorem ensureExactSpan_idempotent (s s' : Store) (start end_ : Offset) (r : Res unit) :
  sorted s →
  ensureExactSpan start end_ s = (s', r) →
  ensureExactSpan start end_ s' = (s', r).
Proof. apply ensureExactSpan_again. Qed.

(** ** locateEntry and offsetToLineColumn *)

Lemma locateEntry_Infinity s : locateEntry s Infinity = Ok None.
Proof. done. Qed.

(** In a store whose segments do not overlap, the segment that contains an
    offset is the one [locateEntry] returns. *)
Lemma locateEntry_contains s k e a :
  sorted s → s !! k = Some e →
  (∀ y, s !! S k = Some y → offset e + textLength e ≤ offset y) →
  offset e ≤ a < offset e + textLength e →
  locateEntry s (Fin a) = Ok (Some (mkLocated (Some e) (Z.of_nat k))).
Proof.
  intros Hs He Hnext Ha.
  assert (scan a s = S k) as Hk.
  { apply scan_unique.
    - intros i x Hi Hx. pose proof (sorted_lookup _ _ _ _ _ Hs Hx He ltac:(lia)). lia.
    - intros y Hy. specialize (Hnext y Hy). lia.
    - apply lookup_lt_Some in He. lia. }
  rewrite locateEntry_scan, Hk. cbv zeta. unfold prev. rewrite He.
  replace (Z.of_nat (S k) - 1) with (Z.of_nat k) by lia.
  destruct (S k <? length s)%nat; [done|].
  destruct (a <? offset e + textLength e) eqn:E; [done|lia].
Qed.

(** At or behind the end of the last segment nothing is found. *)
Lemma locateEntry_past_end s l a :
  sorted s → last s = Some l → offset l + textLength l ≤ a →
  locateEntry s (Fin a) = Ok None.
Proof.
  intros Hs Hl Ha. pose proof (textLength_nonneg l).
  assert (scan a s = length s) as Hk.
  { apply scan_all, Forall_forall. intros x Hx.
    pose proof (sorted_last _ _ _ Hs Hl Hx). lia. }
  rewrite locateEntry_scan. cbv zeta. rewrite Hk, Nat.ltb_irrefl.
  rewrite last_lookup in Hl. destruct s as [|y s]; [done|]. simpl in *.
  rewrite Hl. destruct (a <? offset l + textLength l) eqn:E; [lia|done].
Qed.

(** C1, as the code has it: in a store in the order of its offsets, for an
    offset from the start of the first segment up to the end of the last
    one, [locateEntry] returns the last segment that starts at or before
    the offset, with its index; this is the segment whose range contains
    the offset when the segments do not overlap and one of them contains
    it.  At or behind the end of the last segment, and for [Infinity], it
    returns "not found". *)
Theorem locateEntry_spec (s : Store) (a : Z) :
  sorted s →
  (∀ f l, head s = Some f → last s = Some l →
     offset f ≤ a < offset l + textLength l →
     ∃ k e, locateEntry s (Fin a) = Ok (Some (mkLocated (Some e) (Z.of_nat k))) ∧
            s !! k = Some e ∧ offset e ≤ a ∧
            ∀ i x, s !! i = Some x → (k < i)%nat → a < offset x) ∧
  (∀ k e, s !! k = Some e →
     (∀ y, s !! S k = Some y → offset e + textLength e ≤ offset y) →
     offset e ≤ a < offset e + textLength e →
     locateEntry s (Fin a) = Ok (Some (mkLocated (Some e) (Z.of_nat k)))) ∧
  (∀ l, last s = Some l → offset l + textLength l ≤ a →
     locateEntry s (Fin a) = Ok None) ∧
  locateEntry s Infinity = Ok None.
Proof.
  intros Hs. split_and!.
  - intros f l Hf Hl Ha.
    assert (0 < scan a s)%nat as Hpos.
    { apply scan_pos. unfold docStart. rewrite Hf. simpl. exists (offset f).
      split; [done|lia]. }
    destruct (scan a s) as [|k] eqn:Hk; [lia|].
    pose proof (scan_le_length a s) as Hlen. rewrite Hk in Hlen.
    destruct (lookup_lt_is_Some_2 s k ltac:(lia)) as [e He].
    exists k, e. split_and!; [|done| |].
    + rewrite locateEntry_scan. cbv zeta. rewrite Hk. unfold prev. rewrite He.
      replace (Z.of_nat (S k) - 1) with (Z.of_nat k) by lia.
      destruct (S k <? length s)%nat eqn:Hlt; [done|].
      apply Nat.ltb_ge in Hlt. rewrite last_lookup in Hl.
      replace (pred (length s)) with k in Hl by lia.
      rewrite He in Hl. injection Hl as <-.
      destruct (a <? offset e + textLength e) eqn:E; [done|lia].
    + eapply scan_lookup_lt; [|done]. lia.
    + intros i x Hx Hi. eapply (scan_sorted_ge a s i); [done| |done]. lia.
  - intros k e. by apply locateEntry_contains.
  - intros l. by apply locateEntry_past_end.
  - done.
Qed.

(** C10: below the offset of the first segment [locateEntry] returns a
    result whose entry is [undefined], with index -1, and
    [offsetToLineColumn] throws. *)
Theorem locateEntry_before_first (s : Store) (f : Entry) (a : Z) :
  head s = Some f → a < offset f →
  locateEntry s (Fin a) = Ok (Some (mkLocated None (-1))) ∧
  offsetToLineColumn s (Fin a) = TypeError.
Proof.
  intros Hf Ha. destruct s as [|x s]; simplify_eq/=.
  unfold offsetToLineColumn. simpl.
  destruct (offset f >? a) eqn:E; [done|lia].
Qed.

(** C6: when [locateEntry] finds a segment, [offsetToLineColumn] returns its
    line and its column moved by the distance to the start of the segment;
    when nothing is found, which is the case at or behind the end of the
    last segment, it returns the line of the last segment and its column
    moved by that distance, at most by the length of its text; for
    [Infinity] that is the length of its text. *)
Theorem offsetToLineColumn_spec (s : Store) (a : Z) :
  (∀ le e,
     locateEntry s (Fin a) = Ok (Some le) → entry le = Some e →
     offsetToLineColumn s (Fin a)
     = Ok (mkPosition (line e) (Fin (column e + (a - offset e))))) ∧
  (∀ l,
     locateEntry s (Fin a) = Ok None → last s = Some l →
     offset l + textLength l ≤ a ∧
     offsetToLineColumn s (Fin a)
     = Ok (mkPosition (line l)
             (Fin (column l + Z.min (textLength l) (a - offset l))))) ∧
  (∀ l,
     sorted s → last s = Some l → offset l + textLength l ≤ a →
     offsetToLineColumn s (Fin a)
     = Ok (mkPosition (line l)
             (Fin (column l + Z.min (textLength l) (a - offset l))))) ∧
  (∀ l,
     last s = Some l →
     offsetToLineColumn s Infinity
     = Ok (mkPosition (line l) (Fin (column l + textLength l)))).
Proof.
  split_and!.
  - intros le e Hl He. unfold offsetToLineColumn. rewrite Hl, He. simpl.
    do 3 f_equal. lia.
  - intros l Hl Hlast. split.
    + destruct (locateEntry_not_found _ _ Hl) as (l' & Hl' & _ & Hend).
      by simplify_eq.
    + unfold offsetToLineColumn. by rewrite Hl, Hlast.
  - intros l Hs Hlast Hend. unfold offsetToLineColumn.
    by rewrite (locateEntry_past_end _ _ _ Hs Hlast Hend), Hlast.
  - intros l Hlast. unfold offsetToLineColumn. simpl. by rewrite Hlast.
Qed.

(** ** The loops of decorateSpan and clearSpan *)

Lemma set_classes_id e : set_classes (classList (node e)) e = e.
Proof. by destruct e as [? ? ? []]. Qed.

Lemma set_classes_set_classes X Y e :
  set_classes X (set_classes Y e) = set_classes X e.
Proof. done. Qed.

Lemma forM_classes g classes i e s :
  0 ≤ i → s !! Z.to_nat i = Some e →
  forM_ classes (λ c, classList_update (g c) i) s
  = (<[Z.to_nat i := set_classes (apply_classes g classes (classList (node e))) e]> s,
     Ok tt).
Proof.
  intros Hi. revert s e. induction classes as [|c classes IH]; intros s e He; simpl.
  - unfold ret. by rewrite set_classes_id, list_insert_id.
  - unfold bind, classList_update at 1, lookupZ.
    destruct (i <? 0) eqn:E; [lia|]. rewrite He.
    pose proof (lookup_lt_Some _ _ _ He).
    erewrite IH; [|by rewrite list_lookup_insert_eq].
    by rewrite list_insert_insert_eq.
Qed.

Lemma retag_range_lookup G i j s k :
  retag_range G i j s !! k
  = (λ e, if decide (i ≤ Z.of_nat k < j)
          then set_classes (G (classList (node e))) e else e) <$> s !! k.
Proof. unfold retag_range. by rewrite list_lookup_imap. Qed.

Lemma retag_range_empty G i j s : j ≤ i → retag_range G i j s = s.
Proof.
  intros Hij. apply list_eq. intros k. rewrite retag_range_lookup.
  destruct (s !! k); simpl; [|done]. case_decide; [lia|done].
Qed.

Lemma retag_range_length G i j s : length (retag_range G i j s) = length s.
Proof. unfold retag_range. by rewrite length_imap. Qed.

Lemma forM_range g classes i j s :
  0 ≤ i → j ≤ Z.of_nat (length s) →
  forM_ (seqZ i (j - i)) (λ i, forM_ classes (λ c, classList_update (g c) i)) s
  = (retag_range (apply_classes g classes) i j s, Ok tt).
Proof.
  remember (Z.to_nat (j - i)) as n eqn:Hn. revert i s Hn.
  induction n as [|n IH]; intros i s Hn Hi Hj.
  { rewrite seqZ_nil by lia. simpl. unfold ret. by rewrite retag_range_empty by lia. }
  rewrite seqZ_cons by lia. simpl. unfold bind.
  destruct (lookup_lt_is_Some_2 s (Z.to_nat i) ltac:(lia)) as [e He].
  rewrite (forM_classes g classes i e s Hi He).
  replace (Z.pred (j - i)) with (j - Z.succ i) by lia.
  rewrite IH; [|lia|lia|rewrite length_insert; lia].
  f_equal. apply list_eq. intros k. rewrite !retag_range_lookup.
  destruct (decide (k = Z.to_nat i)) as [->|Hne].
  - rewrite list_lookup_insert_eq by lia. rewrite He. simpl.
    rewrite decide_False by lia. rewrite decide_True by lia. done.
  - rewrite list_lookup_insert_ne by done.
    destruct (s !! k); simpl; [|done]. f_equal.
    destruct (decide (Z.succ i ≤ Z.of_nat k < j)), (decide (i ≤ Z.of_nat k < j));
      try done; lia.
Qed.

Lemma decorateSpan_tag_selected start end_ classes s :
  decorateSpan start end_ classes s
  = bind (ensureExactSpan start end_)
      (λ _, tag_selected add_class start end_ classes) s.
Proof.
  unfold decorateSpan, spanSelection, tag_selected, bind, read.
  destruct (ensureExactSpan start end_ s) as [s2 [[]|]]; [|done].
  destruct (locateEntry s2 start) as [[se|]|]; try done;
    by destruct (locateEntry s2 end_) as [ee|].
Qed.

Lemma clearSpan_tag_selected start end_ classes s :
  clearSpan start end_ classes s
  = bind (ensureExactSpan start end_)
      (λ _, tag_selected remove_class start end_ classes) s.
Proof. done. Qed.

Lemma locateEntry_aligned_index s o :
  sorted s → aligned s o →
  ∃ x, locateEntry s o = Ok x ∧
       ∀ le, x = Some le → 0 ≤ index le < Z.of_nat (length s).
Proof.
  intros Hs Ha. destruct o as [a|].
  2:{ exists None. done. }
  destruct (locateEntry_aligned _ _ Hs Ha) as [->|(e & -> & He & _)].
  { exists None. done. }
  eexists. split; [done|]. intros le [= <-]. simpl.
  destruct (aligned_scan _ _ Hs Ha) as (k & x & Hk & _).
  pose proof (scan_le_length a s). lia.
Qed.

Lemma tag_selected_aligned g start end_ classes s :
  sorted s → aligned s start → aligned s end_ →
  tag_selected g start end_ classes s
  = (retag_range (apply_classes g classes)
       (selection s start end_).1 (selection s start end_).2 s, Ok tt).
Proof.
  intros Hs Ha Hb.
  destruct (locateEntry_aligned_index _ _ Hs Ha) as (x & Hx & Hxi).
  destruct (locateEntry_aligned_index _ _ Hs Hb) as (y & Hy & Hyi).
  unfold tag_selected, selection, bind, read. rewrite Hx, Hy.
  destruct x as [se|]; simpl.
  2:{ unfold ret. by rewrite retag_range_empty. }
  specialize (Hxi se eq_refl).
  destruct y as [ee|]; simpl.
  - specialize (Hyi ee eq_refl). apply forM_range; [lia|].
    destruct (index ee =? 0); lia.
  - apply forM_range; lia.
Qed.

(** ** Stores that differ in their class lists only *)

Lemma shape_offsets s s' : shape s = shape s' → offset <$> s = offset <$> s'.
Proof.
  unfold shape. intros H. apply (f_equal (fmap fst)) in H.
  by rewrite <- !list_fmap_compose in H.
Qed.

Lemma shape_length s s' : shape s = shape s' → length s = length s'.
Proof. unfold shape. intros H. apply (f_equal length) in H. by rewrite !length_fmap in H. Qed.

Lemma shape_lookup s s' k e :
  shape s = shape s' → s !! k = Some e →
  ∃ e', s' !! k = Some e' ∧ offset e' = offset e ∧ textLength e' = textLength e.
Proof.
  unfold shape. intros H He. apply (f_equal (λ l, l !! k)) in H.
  rewrite !list_lookup_fmap, He in H. simpl in H.
  destruct (s' !! k) as [e'|]; simplify_eq/=. eauto.
Qed.

Lemma shape_sorted s s' : shape s = shape s' → sorted s → sorted s'.
Proof. intros H. apply sorted_same_offsets. by apply shape_offsets. Qed.

Lemma shape_starts s s' a : shape s = shape s' → starts s a → starts s' a.
Proof.
  intros H (e & He & Hoff). apply list_elem_of_lookup in He as [k Hk].
  destruct (shape_lookup _ _ _ _ H Hk) as (e' & Hk' & Hoff' & _).
  exists e'. split; [by eapply list_elem_of_lookup_2|lia].
Qed.

Lemma shape_docEnd s s' : shape s = shape s' → docEnd s = docEnd s'.
Proof.
  intros H. unfold docEnd. rewrite !last_lookup, <- (shape_length _ _ H).
  destruct (s !! pred (length s)) as [l|] eqn:Hl.
  - destruct (shape_lookup _ _ _ _ H Hl) as (l' & -> & Ho & Ht). simpl. by rewrite Ho, Ht.
  - apply lookup_ge_None in Hl. rewrite (lookup_ge_None_2 s'); [done|].
    by rewrite <- (shape_length _ _ H).
Qed.

Lemma shape_aligned s s' o : shape s = shape s' → aligned s o → aligned s' o.
Proof.
  intros H. rewrite !aligned_alt. destruct o as [a|]; [|done].
  rewrite (shape_docEnd _ _ H). intros [?|?]; [left|by right].
  by eapply shape_starts.
Qed.

Lemma shape_located_index s s' o :
  shape s = shape s' →
  located_index (locateEntry s o) = located_index (locateEntry s' o).
Proof.
  intros H. destruct o as [a|]; [|done].
  rewrite !locateEntry_scan. cbv zeta.
  rewrite <- (scan_same_offsets a s s' (shape_offsets _ _ H)).
  rewrite <- (shape_length _ _ H).
  destruct (scan a s <? length s)%nat; [done|].
  destruct (scan a s) as [|k]; simpl.
  { done. }
  destruct (s !! k) as [c|] eqn:Hc.
  - destruct (shape_lookup _ _ _ _ H Hc) as (c' & -> & Ho & Ht). rewrite Ho, Ht.
    by destruct (a <? offset c + textLength c).
  - apply lookup_ge_None in Hc. rewrite (lookup_ge_None_2 s'); [done|].
    by rewrite <- (shape_length _ _ H).
Qed.

Lemma shape_selection s s' start end_ :
  shape s = shape s' → selection s start end_ = selection s' start end_.
Proof.
  intros H. unfold selection.
  by rewrite !(shape_located_index s s' _ H), (shape_length _ _ H).
Qed.

Lemma retag_range_shape G i j s : shape (retag_range G i j s) = shape s.
Proof.
  unfold shape. apply list_eq. intros k.
  rewrite !list_lookup_fmap, retag_range_lookup.
  destruct (s !! k); simpl; [|done]. by case_decide.
Qed.

Lemma apply_add_class T cl : apply_classes add_class T cl = cl ∪ list_to_set T.
Proof.
  unfold apply_classes. revert cl. induction T as [|c T IH]; intros cl; simpl.
  - by rewrite (right_id_L ∅ (∪)).
  - rewrite IH. unfold add_class. by rewrite (assoc_L (∪)).
Qed.

Lemma apply_remove_class T cl : apply_classes remove_class T cl = cl ∖ list_to_set T.
Proof.
  unfold apply_classes. revert cl. induction T as [|c T IH]; intros cl; simpl.
  - apply set_eq. intros x. rewrite elem_of_difference, elem_of_empty. tauto.
  - rewrite IH. unfold remove_class. apply set_eq. intros x.
    rewrite !elem_of_difference, elem_of_union, elem_of_singleton. tauto.
Qed.

(** ** The segment a segment was cut from *)

Lemma origin_self s e : e ∈ s → origin s e e.
Proof. intros He. split_and!; [done|lia|auto]. Qed.

Lemma origin_trans s s1 e'' e' e :
  (∀ c, starts s c → starts s1 c) →
  origin s1 e'' e' → origin s e' e → origin s e'' e.
Proof.
  intros Hst (H1 & H2 & H3) (H4 & H5 & H6). split_and!; [done|lia|].
  intros x Hx Hle. apply H6; [done|].
  destruct (Hst (offset x)) as (x1 & Hx1 & Hoff); [by exists x|].
  rewrite <- Hoff. apply H3; [done|lia].
Qed.

Lemma origin_same_offset s e1 e2 p :
  offset e1 = offset e2 → origin s e1 p → origin s e2 p.
Proof. unfold origin. intros ->. done. Qed.

Lemma split_at_origin s k e a e' :
  sorted s → splits s k e a → e' ∈ split_at s k e a →
  ∃ p, origin s e' p ∧ classList (node e') = classList (node p).
Proof.
  intros Hs Hsp. pose proof Hsp as (_ & _ & Hea & _).
  destruct (splits_decomp _ _ _ _ Hs Hsp) as (l1 & l2 & -> & -> & H1 & H2 & _).
  rewrite elem_of_app, !elem_of_cons. intros [He'|[->|[->|He']]].
  - exists e'. split; [|done]. apply origin_self. rewrite elem_of_app. by left.
  - exists e. split; [|done]. apply (origin_same_offset _ e); [done|].
    apply origin_self. rewrite elem_of_app, elem_of_cons. auto.
  - exists e. split; [|done]. split_and!.
    + rewrite elem_of_app, elem_of_cons. auto.
    + simpl. lia.
    + intros x Hx. simpl. rewrite elem_of_app, elem_of_cons in Hx.
      destruct Hx as [Hx|[->|Hx]]; [by auto|lia|].
      specialize (H2 x Hx). lia.
  - exists e'. split; [|done]. apply origin_self. rewrite elem_of_app, elem_of_cons. auto.
Qed.

Lemma boundary_origin s o s' r e' :
  sorted s → boundary o s = (s', r) → e' ∈ s' →
  ∃ p, origin s e' p ∧ classList (node e') = classList (node p).
Proof.
  intros Hs Hb He'.
  destruct (boundary_cases _ _ _ _ Hs Hb)
    as [(_ & -> & _)|[(_ & -> & _)|(_ & a & k & e & _ & Hsp & ->)]].
  - exists e'. split; [by apply origin_self|done].
  - exists e'. split; [by apply origin_self|done].
  - by eapply split_at_origin.
Qed.

Lemma boundary_starts_mono s o s' r c :
  sorted s → boundary o s = (s', r) → starts s c → starts s' c.
Proof. intros Hs Hb Hc. rewrite (boundary_starts _ _ _ _ _ Hs Hb). by left. Qed.

Lemma ensureExactSpan_starts_mono start end_ s s' r c :
  sorted s → ensureExactSpan start end_ s = (s', r) → starts s c → starts s' c.
Proof.
  intros Hs H Hc.
  destruct (ensureExactSpan_cases _ _ _ _ _ H)
    as (s1 & r1 & H1 & [(_ & -> & _)|(_ & H2)]).
  - by eapply boundary_starts_mono.
  - pose proof (boundary_sorted _ _ _ _ Hs H1) as Hs1.
    apply (boundary_starts_mono s1 end_ s' r c Hs1 H2).
    apply (boundary_starts_mono s start s1 r1 c Hs H1 Hc).
Qed.

Lemma ensureExactSpan_origin start end_ s s' r e' :
  sorted s → ensureExactSpan start end_ s = (s', r) → e' ∈ s' →
  ∃ p, origin s e' p ∧ classList (node e') = classList (node p).
Proof.
  intros Hs H He'.
  destruct (ensureExactSpan_cases _ _ _ _ _ H)
    as (s1 & r1 & H1 & [(_ & -> & _)|(_ & H2)]).
  - by eapply boundary_origin.
  - pose proof (boundary_sorted _ _ _ _ Hs H1) as Hs1.
    destruct (boundary_origin _ _ _ _ _ Hs1 H2 He') as (p1 & Ho1 & Hc1).
    destruct (boundary_origin _ _ _ _ p1 Hs H1 ltac:(by destruct Ho1))
      as (p & Ho & Hc).
    exists p. split; [|congruence].
    apply (origin_trans s s1 e' p1 p); [|done..].
    intros c. apply (boundary_starts_mono s start s1 r1 c Hs H1).
Qed.

Lemma strictly_sorted_offset_inj s x y :
  strictly_sorted s → x ∈ s → y ∈ s → offset x = offset y → x = y.
Proof.
  intros Hs Hx Hy Hxy.
  apply list_elem_of_lookup in Hx as [i Hi]. apply list_elem_of_lookup in Hy as [j Hj].
  destruct (decide (i = j)) as [->|Hne]; [congruence|].
  destruct (decide (i < j)%nat).
  - pose proof (strictly_sorted_lookup _ _ _ _ _ Hs Hi Hj ltac:(lia)). lia.
  - pose proof (strictly_sorted_lookup _ _ _ _ _ Hs Hj Hi ltac:(lia)). lia.
Qed.

(** Every segment after [decorateSpan] or [clearSpan] carries the tags of
    the segment it was cut from, changed by the inner loop at most. *)
Lemma tag_selected_origin (R : relation (gset string)) g start end_ classes s s' r e' :
  (∀ cl, R cl cl) → (∀ cl, R cl (apply_classes g classes cl)) →
  sorted s →
  bind (ensureExactSpan start end_) (λ _, tag_selected g start end_ classes) s = (s', r) →
  e' ∈ s' →
  ∃ p, origin s e' p ∧ R (classList (node p)) (classList (node e')).
Proof.
  intros Hrefl Hg Hs. unfold bind.
  destruct (ensureExactSpan start end_ s) as [s0 [[]|]] eqn:H0.
  2:{ intros [= <- <-] He'.
      destruct (ensureExactSpan_origin _ _ _ _ _ _ Hs H0 He') as (p & Hp & ->). eauto. }
  pose proof (ensureExactSpan_sorted _ _ _ _ _ Hs H0) as Hs0.
  destruct (ensureExactSpan_aligned _ _ _ _ Hs H0) as [Ha Hb].
  rewrite tag_selected_aligned by done. intros [= <- <-] He'.
  apply list_elem_of_lookup in He' as [k Hk]. rewrite retag_range_lookup in Hk.
  destruct (s0 !! k) as [e0|] eqn:Hk0; simplify_eq/=.
  destruct (ensureExactSpan_origin _ _ _ _ _ e0 Hs H0
              ltac:(by eapply list_elem_of_lookup_2)) as (p & Hp & Hc).
  exists p. case_decide; simpl; rewrite ?Hc; eauto.
Qed.

Lemma tag_selected_starts g start end_ classes s s' r c :
  sorted s →
  bind (ensureExactSpan start end_) (λ _, tag_selected g start end_ classes) s = (s', r) →
  starts s c → starts s' c.
Proof.
  intros Hs. unfold bind.
  destruct (ensureExactSpan start end_ s) as [s0 [[]|]] eqn:H0.
  2:{ intros [= <- <-]. by eapply ensureExactSpan_starts_mono. }
  pose proof (ensureExactSpan_sorted _ _ _ _ _ Hs H0) as Hs0.
  destruct (ensureExactSpan_aligned _ _ _ _ Hs H0) as [Ha Hb].
  rewrite tag_selected_aligned by done. intros [= <- <-] Hc.
  apply (shape_starts s0); [symmetry; apply retag_range_shape|].
  apply (ensureExactSpan_starts_mono start end_ s s0 (Ok tt) c Hs H0 Hc).
Qed.

(** [decorateSpan] and [clearSpan] keep the order of the store. *)
Lemma tag_selected_shape g start end_ classes s s' r :
  sorted s →
  bind (ensureExactSpan start end_) (λ _, tag_selected g start end_ classes) s = (s', r) →
  shape s' = shape (ensureExactSpan start end_ s).1.
Proof.
  intros Hs. unfold bind.
  destruct (ensureExactSpan start end_ s) as [s0 [[]|]] eqn:H0.
  2:{ by intros [= <- <-]. }
  pose proof (ensureExactSpan_sorted _ _ _ _ _ Hs H0) as Hs0.
  destruct (ensureExactSpan_aligned _ _ _ _ Hs H0) as [Ha Hb].
  rewrite tag_selected_aligned by done. intros [= <- <-].
  apply retag_range_shape.
Qed.

Lemma decorateSpan_sorted start end_ classes s s' r :
  sorted s → decorateSpan start end_ classes s = (s', r) → sorted s'.
Proof.
  intros Hs H. rewrite decorateSpan_tag_selected in H.
  apply (shape_sorted (ensureExactSpan start end_ s).1).
  - symmetry. by eapply tag_selected_shape.
  - destruct (ensureExactSpan start end_ s) as [s0 r0] eqn:H0.
    by eapply ensureExactSpan_sorted.
Qed.

Lemma clearSpan_sorted start end_ classes s s' r :
  sorted s → clearSpan start end_ classes s = (s', r) → sorted s'.
Proof.
  intros Hs H. rewrite clearSpan_tag_selected in H.
  apply (shape_sorted (ensureExactSpan start end_ s).1).
  - symmetry. by eapply tag_selected_shape.
  - destruct (ensureExactSpan start end_ s) as [s0 r0] eqn:H0.
    by eapply ensureExactSpan_sorted.
Qed.

(** A segment of the store stays in it, at its offset and with its tags,
    through the splits. *)
Lemma split_at_persist s k e a x :
  sorted s → splits s k e a → x ∈ s →
  ∃ x', x' ∈ split_at s k e a ∧ offset x' = offset x ∧
        classList (node x') = classList (node x).
Proof.
  intros Hs Hsp.
  destruct (splits_decomp _ _ _ _ Hs Hsp) as (l1 & l2 & -> & -> & _).
  rewrite elem_of_app, elem_of_cons. intros [Hx|[->|Hx]].
  - exists x. split_and!; [|done..]. rewrite elem_of_app. by left.
  - exists (cut_head e a). split_and!; [|done..]. rewrite elem_of_app, elem_of_cons. auto.
  - exists x. split_and!; [|done..]. rewrite elem_of_app, !elem_of_cons. auto.
Qed.

Lemma boundary_persist s o s' r x :
  sorted s → boundary o s = (s', r) → x ∈ s →
  ∃ x', x' ∈ s' ∧ offset x' = offset x ∧ classList (node x') = classList (node x).
Proof.
  intros Hs Hb Hx.
  destruct (boundary_cases _ _ _ _ Hs Hb)
    as [(_ & -> & _)|[(_ & -> & _)|(_ & a & k & e & _ & Hsp & ->)]]; [by eauto..|].
  by apply split_at_persist.
Qed.

Lemma ensureExactSpan_persist start end_ s s' r x :
  sorted s → ensureExactSpan start end_ s = (s', r) → x ∈ s →
  ∃ x', x' ∈ s' ∧ offset x' = offset x ∧ classList (node x') = classList (node x).
Proof.
  intros Hs H Hx.
  destruct (ensureExactSpan_cases _ _ _ _ _ H)
    as (s1 & r1 & H1 & [(_ & -> & _)|(_ & H2)]).
  - by eapply boundary_persist.
  - pose proof (boundary_sorted _ _ _ _ Hs H1) as Hs1.
    destruct (boundary_persist _ _ _ _ x Hs H1 Hx) as (x1 & Hx1 & Ho1 & Hc1).
    destruct (boundary_persist _ _ _ _ x1 Hs1 H2 Hx1) as (x2 & Hx2 & Ho2 & Hc2).
    exists x2. split_and!; [done|congruence..].
Qed.

Lemma tag_selected_persist (R : relation (gset string)) g start end_ classes s s' r x :
  (∀ cl, R cl cl) → (∀ cl, R cl (apply_classes g classes cl)) →
  sorted s →
  bind (ensureExactSpan start end_) (λ _, tag_selected g start end_ classes) s = (s', r) →
  x ∈ s →
  ∃ x', x' ∈ s' ∧ offset x' = offset x ∧ R (classList (node x)) (classList (node x')).
Proof.
  intros Hrefl Hg Hs. unfold bind.
  destruct (ensureExactSpan start end_ s) as [s0 [[]|]] eqn:H0.
  2:{ intros [= <- <-] Hx.
      destruct (ensureExactSpan_persist _ _ _ _ _ x Hs H0 Hx) as (x' & Hx' & Ho & Hc).
      exists x'. rewrite Hc. eauto. }
  pose proof (ensureExactSpan_sorted _ _ _ _ _ Hs H0) as Hs0.
  destruct (ensureExactSpan_aligned _ _ _ _ Hs H0) as [Ha Hb].
  rewrite tag_selected_aligned by done. intros [= <- <-] Hx.
  destruct (ensureExactSpan_persist _ _ _ _ _ x Hs H0 Hx) as (x0 & Hx0 & Ho & Hc).
  apply list_elem_of_lookup in Hx0 as [k Hk].
  eexists. split; [eapply list_elem_of_lookup_2; by rewrite retag_range_lookup, Hk|].
  simpl. case_decide; simpl; rewrite <- ?Hc; eauto.
Qed.

(** C9: [decorateSpan] removes no tag and [clearSpan] adds none.  Every
    segment of the store before the call is in the store after it, at the
    same offset, with a superset (for [clearSpan]: a subset) of its tags; and
    every segment after the call, those the call made by splitting included,
    carries a superset (a subset) of the tags of the segment it was part
    of.  This holds whether the call returns or throws. *)
Theorem decorate_monotone_clear_antitone
    (s : Store) (start end_ : Offset) (classes : list string) :
  sorted s →
  (∀ s' r, decorateSpan start end_ classes s = (s', r) →
     (∀ e, e ∈ s → ∃ e', e' ∈ s' ∧ offset e' = offset e ∧
                         classList (node e) ⊆ classList (node e')) ∧
     (∀ e', e' ∈ s' → ∃ p, origin s e' p ∧
                           classList (node p) ⊆ classList (node e'))) ∧
  (∀ s' r, clearSpan start end_ classes s = (s', r) →
     (∀ e, e ∈ s → ∃ e', e' ∈ s' ∧ offset e' = offset e ∧
                         classList (node e') ⊆ classList (node e)) ∧
     (∀ e', e' ∈ s' → ∃ p, origin s e' p ∧
                           classList (node e') ⊆ classList (node p))).
Proof.
  intros Hs.
  assert (∀ cl : gset string, cl ⊆ apply_classes add_class classes cl) as Hadd.
  { intros cl. rewrite apply_add_class. apply union_subseteq_l. }
  assert (∀ cl : gset string, apply_classes remove_class classes cl ⊆ cl) as Hrem.
  { intros cl. rewrite apply_remove_class. by apply subseteq_difference_l. }
  split.
  - intros s' r H. rewrite decorateSpan_tag_selected in H. split.
    + intros e He.
      apply (tag_selected_persist (⊆) add_class start end_ classes s s' r e);
        done.
    + intros e' He'.
      apply (tag_selected_origin (⊆) add_class start end_ classes s s' r e');
        done.
  - intros s' r H. rewrite clearSpan_tag_selected in H. split.
    + intros e He.
      apply (tag_selected_persist (λ X Y : gset string, Y ⊆ X) remove_class
               start end_ classes s s' r e); done.
    + intros e' He'.
      apply (tag_selected_origin (λ X Y : gset string, Y ⊆ X) remove_class
               start end_ classes s s' r e'); done.
Qed.

(** ** Ranges *)

(** In a store whose boundaries are in place, a range that ends behind the
    first segment and does not end behind its start selects nothing. *)
Lemma selection_empty s start end_ z :
  sorted s → aligned s start → aligned s end_ →
  docStart s = Some z → offset_lt (Fin z) end_ → offset_le end_ start →
  (selection s start end_).2 ≤ (selection s start end_).1.
Proof.
  intros Hs Ha Hb Hz Hlt Hle. unfold selection.
  destruct start as [a|]; [|done].
  destruct end_ as [b|]; [|done]. simpl in Hlt, Hle.
  destruct (locateEntry_aligned _ _ Hs Ha) as [->|(ea & Hfa & Hea & Hoa)]; [done|].
  destruct (locateEntry_aligned _ _ Hs Hb) as [Hnone|(eb & Hfb & Heb & Hob)].
  - destruct (locateEntry_not_found _ _ Hnone) as (l & Hl & _ & Hend).
    rewrite (locateEntry_past_end s l a Hs Hl) in Hfa by lia. done.
  - rewrite Hfa, Hfb. simpl. pose proof (scan_mono b a s Hle).
    destruct (aligned_scan _ _ Hs Hb) as (k & x & Hk & Hx & _).
    rewrite Hk in *. simpl in Heb. simplify_eq.
    destruct k as [|k].
    + unfold docStart in Hz. rewrite head_lookup, Heb in Hz. simplify_eq/=. lia.
    + destruct (Z.eqb_spec (Z.of_nat (S (S k)) - 1) 0); lia.
Qed.

(** C4, as the code has it: for a range that does not end behind its start,
    and ends behind the start of the first segment, [decorateSpan] and
    [clearSpan] return and change no class list, but they do run
    [ensureExactSpan]: they leave the store that call leaves, in which
    segments may have been split at [start] and at [end]. *)
Theorem empty_range_only_splits
    (s : Store) (start end_ : Offset) (classes : list string) (z : Z) :
  sorted s → docStart s = Some z →
  offset_lt (Fin z) end_ → offset_le end_ start →
  ∃ s', ensureExactSpan start end_ s = (s', Ok tt) ∧
        decorateSpan start end_ classes s = (s', Ok tt) ∧
        clearSpan start end_ classes s = (s', Ok tt).
Proof.
  intros Hs Hz Hlt Hle.
  destruct (ensureExactSpan start end_ s) as [s' r] eqn:H.
  assert (r = Ok tt) as ->.
  { apply (ensureExactSpan_returns _ _ _ _ _ Hs H). split.
    - destruct start as [a|]; [|done]. destruct end_ as [b|]; [|done].
      simpl in *. exists z. split; [done|lia].
    - destruct end_ as [b|]; [|done]. simpl in *. exists z. split; [done|lia]. }
  exists s'. split; [done|].
  pose proof (ensureExactSpan_sorted _ _ _ _ _ Hs H) as Hs'.
  destruct (ensureExactSpan_aligned _ _ _ _ Hs H) as [Ha Hb].
  pose proof (ensureExactSpan_docStart _ _ _ _ _ Hs H) as Hz'. rewrite Hz in Hz'.
  pose proof (selection_empty _ _ _ _ Hs' Ha Hb Hz' Hlt Hle) as Hsel.
  rewrite decorateSpan_tag_selected, clearSpan_tag_selected. unfold bind. rewrite H.
  rewrite !tag_selected_aligned by done.
  by rewrite !retag_range_empty by done.
Qed.

(** ** decorateSpan followed by clearSpan *)

Lemma ensureExactSpan_aligned_noop start end_ s :
  sorted s → aligned s start → aligned s end_ →
  ensureExactSpan start end_ s = (s, Ok tt).
Proof.
  intros Hs Ha Hb. rewrite ensureExactSpan_boundary. unfold bind.
  rewrite (boundary_aligned s start Hs Ha). by apply boundary_aligned.
Qed.


(** ** The store the builder makes *)

Lemma separated_sorted s : separated s → sorted s.
Proof.
  induction 1 as [|a l _ IH Ha]; constructor; [done|].
  eapply Forall_impl; [exact Ha|]. simpl. intros b.
  pose proof (textLength_nonneg a). lia.
Qed.

Lemma between_app off1 off2 off3 es1 es2 :
  between off1 off2 es1 → between off2 off3 es2 → between off1 off3 (es1 ++ es2).
Proof.
  intros (Hs1 & Hle1 & Hf1) (Hs2 & Hle2 & Hf2). rewrite Forall_forall in Hf1, Hf2.
  split_and!; [|lia|].
  - apply StronglySorted_app_2; [|done..].
    intros x1 x2 Hx1 Hx2. specialize (Hf1 x1 Hx1). specialize (Hf2 x2 Hx2). lia.
  - apply Forall_app. rewrite !Forall_forall. split; intros x Hx.
    + specialize (Hf1 x Hx). lia.
    + specialize (Hf2 x Hx). lia.
Qed.

Lemma between_nil off off' : off ≤ off' → between off off' [].
Proof. intros. split_and!; [constructor|done|constructor]. Qed.

Lemma foldl_pushChild ln cs res off col :
  ∃ es off' col',
    foldl (pushChild ln) (res, off, col) cs = (res ++ es, off', col') ∧
    between off off' es ∧
    Forall (λ e, line e = ln ∧ SpanElement (node e) ∈ cs) es ∧
    (∀ nd, SpanElement nd ∈ cs → ∃ e, e ∈ es ∧ node e = nd).
Proof.
  revert res off col. induction cs as [|c cs IH]; intros res off col; simpl.
  { exists [], off, col. rewrite app_nil_r. split_and!; [done| |done|].
    - by apply between_nil.
    - intros nd Hnd. by apply elem_of_nil in Hnd. }
  destruct c as [t|nd|].
  - destruct (IH res off col) as (es & off' & col' & -> & Hb & Hf & Hex).
    exists es, off', col'. split_and!; [done..| |].
    + eapply Forall_impl; [exact Hf|]. simpl. intros e [? ?]. split; [done|]. by right.
    + intros nd Hnd. apply elem_of_cons in Hnd as [?|Hnd]; [done|]. by apply Hex.
  - set (e := mkEntry off ln col nd).
    destruct (IH (res ++ [e]) (off + str_length (textContent nd))
                (col + str_length (textContent nd)))
      as (es & off' & col' & -> & Hb & Hf & Hex).
    exists (e :: es), off', col'. split_and!.
    + by rewrite <- app_assoc.
    + apply (between_app off (off + str_length (textContent nd)) off' [e] es); [|done].
      pose proof (str_length_nonneg (textContent nd)).
      split_and!; [repeat constructor|lia|].
      repeat constructor; simpl; unfold textLength; simpl; lia.
    + constructor.
      * split; [done|]. by left.
      * eapply Forall_impl; [exact Hf|]. simpl. intros x [? ?]. split; [done|]. by right.
    + intros nd' Hnd. apply elem_of_cons in Hnd as [[= ->]|Hnd].
      * exists e. split; [by left|done].
      * destruct (Hex nd' Hnd) as (x & Hx & Hxn). exists x. split; [by right|done].
  - destruct (IH res off col) as (es & off' & col' & -> & Hb & Hf & Hex).
    exists es, off', col'. split_and!; [done..| |].
    + eapply Forall_impl; [exact Hf|]. simpl. intros e [? ?]. split; [done|]. by right.
    + intros nd Hnd. apply elem_of_cons in Hnd as [?|Hnd]; [done|]. by apply Hex.
Qed.

Section builder_properties.
Variable Number : string → JSNum.

Lemma foldl_pushLine ls res off :
  ∃ es off',
    foldl (pushLine Number) (res, off) ls = (res ++ es, off') ∧
    between off off' es ∧
    Forall (λ e, ∃ l, l ∈ ls ∧ line e = Number (pop (split_dash (id l)))
                      ∧ SpanElement (node e) ∈ childNodes l) es ∧
    (∀ l nd, l ∈ ls → SpanElement nd ∈ childNodes l →
             ∃ e, e ∈ es ∧ node e = nd ∧ line e = Number (pop (split_dash (id l)))).
Proof.
  revert res off. induction ls as [|l ls IH]; intros res off; simpl.
  { exists [], off. rewrite app_nil_r. split_and!; [done| |done|].
    - by apply between_nil.
    - intros l nd Hl. by apply elem_of_nil in Hl. }
  destruct (foldl_pushChild (Number (pop (split_dash (id l)))) (childNodes l) res off 1)
    as (es1 & off1 & col1 & H1 & Hb1 & Hf1 & Hex1).
  rewrite H1.
  destruct (IH (res ++ es1) (off1 + 1)) as (es2 & off2 & -> & Hb2 & Hf2 & Hex2).
  exists (es1 ++ es2), off2. split_and!.
  - by rewrite <- app_assoc.
  - apply (between_app off (off1 + 1) off2); [|done].
    destruct Hb1 as (? & ? & Hf). split_and!; [done|lia|].
    eapply Forall_impl; [exact Hf|]. simpl. lia.
  - apply Forall_app. split.
    + eapply Forall_impl; [exact Hf1|]. simpl. intros e [? ?].
      exists l. split_and!; [by left|done..].
    + eapply Forall_impl; [exact Hf2|]. simpl. intros e (l' & ? & ? & ?).
      exists l'. split_and!; [by right|done..].
  - intros l' nd Hl' Hnd. apply elem_of_cons in Hl' as [->|Hl'].
    + destruct (Hex1 nd Hnd) as (e & He & Hn). exists e.
      rewrite Forall_forall in Hf1. destruct (Hf1 e He) as [Hline _].
      split_and!; [|done..]. apply elem_of_app. by left.
    + destruct (Hex2 l' nd Hl' Hnd) as (e & He & Hn & Hline). exists e.
      split_and!; [|done..]. apply elem_of_app. by right.
Qed.

(** The store the constructor leaves is in order and its segments do not
    overlap. *)
Lemma initializeEntryPoints_separated n : separated (initializeEntryPoints Number n).
Proof.
  unfold initializeEntryPoints.
  destruct (foldl_pushLine (lines n) [] (initialOffset Number (sourceOffset n)))
    as (es & off' & -> & (Hsep & _) & _). done.
Qed.

Lemma initializeEntryPoints_sorted n : sorted (initializeEntryPoints Number n).
Proof. apply separated_sorted, initializeEntryPoints_separated. Qed.

Lemma constructor_sorted n : sorted (constructor Number n).
Proof. apply initializeEntryPoints_sorted. Qed.

(** C8, as the code has it: the builder does not fail on a line whose
    identifier [Number] does not resolve; it is a total function, and
    every segment of such a line is recorded with the line [NaN]. *)
Theorem initializeEntryPoints_unresolved_line (n : CodeNode) (l : Line) (nd : Node) :
  l ∈ lines n → SpanElement nd ∈ childNodes l →
  Number (pop (split_dash (id l))) = NaN →
  ∃ e, e ∈ initializeEntryPoints Number n ∧ node e = nd ∧ line e = NaN.
Proof.
  intros Hl Hnd HNaN. unfold initializeEntryPoints.
  destruct (foldl_pushLine (lines n) [] (initialOffset Number (sourceOffset n)))
    as (es & off' & -> & _ & _ & Hex).
  destruct (Hex l nd Hl Hnd) as (e & He & Hn & Hline).
  exists e. split_and!; [done..|]. by rewrite Hline.
Qed.
End builder_properties.

(** ** The worked documents *)

Example constructor_doc_chars : constructor decimalNumber abcd_chars = doc_chars.
Proof. reflexivity. Qed.

Example constructor_doc_lines : constructor decimalNumber abcd_lines = doc_lines.
Proof. reflexivity. Qed.

(** The scenario of the specification: [decorate(1, 4, ["hl"])] tags the
    segments at the offsets 1 and 3 only. *)
Example decorate_1_4 :
  decorateSpan (Fin 1) (Fin 4) ["hl"%string] doc_chars
  = ([seg 0 1 1 "a" ∅; seg 1 1 2 "b" {["hl"%string]};
      seg 3 2 1 "c" {["hl"%string]}; seg 4 2 2 "d" ∅], Ok tt).
Proof. vm_compute. reflexivity. Qed.

Example offsetToLineColumn_4 :
  offsetToLineColumn doc_chars (Fin 4) = Ok (mkPosition (Num 2) (Fin 2)).
Proof. reflexivity. Qed.

Example offsetToLineColumn_10 :
  offsetToLineColumn doc_chars (Fin 10) = Ok (mkPosition (Num 2) (Fin 3)).
Proof. reflexivity. Qed.

(** At the offset of the line break the segment before it is returned. *)
Example locateEntry_line_break :
  locateEntry doc_chars (Fin 2) = Ok (Some (mkLocated (Some (seg 1 1 2 "b" ∅)) 1)).
Proof. reflexivity. Qed.

(** A range that ends at the offset of the first segment has the end index
    0, which [||] takes for "not found": the tags go on every segment from
    [start] on. *)
Example decorate_0_0 :
  decorateSpan (Fin 0) (Fin 0) ["hl"%string] doc_lines
  = ([seg 0 1 1 "ab" {["hl"%string]}; seg 3 2 1 "cd" {["hl"%string]}], Ok tt).
Proof. vm_compute. reflexivity. Qed.

(** A boundary before the first segment makes [ensureExactSpan] throw. *)
Example ensureExactSpan_negative :
  ensureExactSpan (Fin (-1)) (Fin 1) doc_lines = (doc_lines, TypeError).
Proof. reflexivity. Qed.

(** The call [ensureExactSpan(-1, 1)] on "ab" / "cd": 1 is inside the
    document and no segment starts there, before the call or after it. *)
Lemma ensureExactSpan_start_before_first_witness :
  docStart doc_lines = Some 0 ∧ -1 < 0 ∧
  inside doc_lines (Fin 1) ∧ ¬ starts doc_lines 1 ∧
  ensureExactSpan (Fin (-1)) (Fin 1) doc_lines = (doc_lines, TypeError) ∧
  ¬ starts (ensureExactSpan (Fin (-1)) (Fin 1) doc_lines).1 1.
Proof.
  assert (¬ starts doc_lines 1) as Hno.
  { intros (e & He & Ho). unfold doc_lines in He.
    rewrite !elem_of_cons, elem_of_nil in He.
    destruct He as [->|[->|[]]]; simpl in Ho; lia. }
  destruct (ensureExactSpan_start_before_first doc_lines (-1) 0 (Fin 1) eq_refl
              ltac:(lia)) as [Hthrow Hstarts].
  split; [reflexivity|]. split; [lia|].
  split; [split; [exists 0|exists 5]; (split; [reflexivity|lia])|].
  split; [exact Hno|]. split; [exact Hthrow|].
  exact (Hstarts 1 eq_refl Hno).
Defined.

Lemma ensureExactSpan_exact_span_witness :
  sorted doc_lines ∧
  ∃ s', ensureExactSpan (Fin 1) (Fin 4) doc_lines = (s', Ok tt) ∧
        starts s' 1 ∧ starts s' 4.
Proof.
  assert (sorted doc_lines) as Hs by solve_sorted.
  split; [exact Hs|].
  destruct (ensureExactSpan_exact_span doc_lines (Fin 1) (Fin 4) Hs) as [Hret Hpost].
  destruct Hret as [s' Hs'].
  { exists 0. split; [reflexivity|lia]. }
  { exists 0. split; [reflexivity|lia]. }
  exists s'. split; [exact Hs'|].
  destruct (Hpost s' Hs') as (Hstart & Hend & _).
  split.
  - destruct Hstart as (a & Ha & Hst).
    { split; [exists 0|exists 5]; (split; [reflexivity|lia]). }
    injection Ha as <-. exact Hst.
  - destruct Hend as (b & Hb & Hst).
    { split; [exists 0|exists 5]; (split; [reflexivity|lia]). }
    injection Hb as <-. exact Hst.
Defined.

Lemma split_preserves_text_and_order_witness :
  strictly_sorted doc_lines ∧
  document_text (fst (splitEntry 0 (seg 0 1 1 "ab" ∅) 1 doc_lines))
  = document_text doc_lines ∧
  strictly_sorted (fst (splitEntry 0 (seg 0 1 1 "ab" ∅) 1 doc_lines)) ∧
  strictly_sorted (fst (ensureExactSpan (Fin 1) (Fin 4) doc_lines)).
Proof.
  assert (strictly_sorted doc_lines) as Hs by solve_sorted.
  split; [exact Hs|].
  destruct (split_preserves_text_and_order doc_lines Hs) as [Hsplit Hcall].
  destruct (Hsplit 1 (mkLocated (Some (seg 0 1 1 "ab" ∅)) 0) (seg 0 1 1 "ab" ∅)
              (fst (splitEntry 0 (seg 0 1 1 "ab" ∅) 1 doc_lines))
              (snd (splitEntry 0 (seg 0 1 1 "ab" ∅) 1 doc_lines)))
    as (Ht & _ & Hss); [reflexivity|reflexivity|simpl; lia|reflexivity|].
  split; [exact Ht|]. split; [exact Hss|].
  destruct (Hcall (Fin 1) (Fin 4)
              (fst (ensureExactSpan (Fin 1) (Fin 4) doc_lines))
              (snd (ensureExactSpan (Fin 1) (Fin 4) doc_lines)))
    as (_ & _ & Hss'); [reflexivity|exact Hss'].
Defined.

Lemma ensureExactSpan_idempotent_witness :
  sorted doc_lines ∧
  ensureExactSpan (Fin 1) (Fin 4) doc_lines = (doc_lines_1_4, Ok tt) ∧
  ensureExactSpan (Fin 1) (Fin 4) doc_lines_1_4 = (doc_lines_1_4, Ok tt).
Proof.
  assert (sorted doc_lines) as Hs by solve_sorted.
  assert (ensureExactSpan (Fin 1) (Fin 4) doc_lines = (doc_lines_1_4, Ok tt)) as H
    by reflexivity.
  split; [exact Hs|]. split; [exact H|].
  exact (ensureExactSpan_idempotent doc_lines doc_lines_1_4 (Fin 1) (Fin 4) (Ok tt) Hs H).
Defined.

Lemma locateEntry_before_first_witness :
  head doc_chars = Some (seg 0 1 1 "a" ∅) ∧ -1 < offset (seg 0 1 1 "a" ∅) ∧
  locateEntry doc_chars (Fin (-1)) = Ok (Some (mkLocated None (-1))) ∧
  offsetToLineColumn doc_chars (Fin (-1)) = TypeError.
Proof.
  split; [reflexivity|]. split; [simpl; lia|].
  apply (locateEntry_before_first doc_chars (seg 0 1 1 "a" ∅) (-1)).
  - reflexivity.
  - simpl. lia.
Defined.

Lemma offsetToLineColumn_spec_witness :
  offsetToLineColumn doc_chars (Fin 4) = Ok (mkPosition (Num 2) (Fin (2 + (4 - 4)))) ∧
  offsetToLineColumn doc_chars (Fin 10)
  = Ok (mkPosition (Num 2) (Fin (2 + Z.min 1 (10 - 4)))).
Proof.
  split.
  - destruct (offsetToLineColumn_spec doc_chars 4) as (Hfound & _ & _ & _).
    apply (Hfound (mkLocated (Some (seg 4 2 2 "d" ∅)) 3) (seg 4 2 2 "d" ∅));
      reflexivity.
  - destruct (offsetToLineColumn_spec doc_chars 10) as (_ & Hnone & _ & _).
    destruct (Hnone (seg 4 2 2 "d" ∅)) as [_ H]; [reflexivity|reflexivity|].
    exact H.
Defined.

(** C4 at [start = end = 1] on "ab" / "cd": no class list changes, but the
    segment "ab" is split. *)
Lemma decorateSpan_empty_range_splits :
  offset_le (Fin 1) (Fin 1) ∧
  decorateSpan (Fin 1) (Fin 1) ["hl"%string] doc_lines
  = ([seg 0 1 1 "a" ∅; seg 1 1 2 "b" ∅; seg 3 2 1 "cd" ∅], Ok tt) ∧
  clearSpan (Fin 1) (Fin 1) ["hl"%string] doc_lines
  = ([seg 0 1 1 "a" ∅; seg 1 1 2 "b" ∅; seg 3 2 1 "cd" ∅], Ok tt) ∧
  length (fst (decorateSpan (Fin 1) (Fin 1) ["hl"%string] doc_lines))
  ≠ length doc_lines.
Proof.
  split; [simpl; lia|]. split; [reflexivity|]. split; [reflexivity|].
  simpl. lia.
Qed.

Lemma empty_range_only_splits_witness :
  sorted doc_lines ∧ docStart doc_lines = Some 0 ∧
  offset_lt (Fin 0) (Fin 1) ∧ offset_le (Fin 1) (Fin 4) ∧
  ∃ s', ensureExactSpan (Fin 4) (Fin 1) doc_lines = (s', Ok tt) ∧
        decorateSpan (Fin 4) (Fin 1) ["hl"%string] doc_lines = (s', Ok tt) ∧
        clearSpan (Fin 4) (Fin 1) ["hl"%string] doc_lines = (s', Ok tt).
Proof.
  assert (sorted doc_lines) as Hs by solve_sorted.
  assert (offset_lt (Fin 0) (Fin 1)) as Hlt by (simpl; lia).
  assert (offset_le (Fin 1) (Fin 4)) as Hle by (simpl; lia).
  split; [exact Hs|]. split; [reflexivity|]. split; [exact Hlt|]. split; [exact Hle|].
  exact (empty_range_only_splits doc_lines (Fin 4) (Fin 1) ["hl"%string] 0
           Hs eq_refl Hlt Hle).
Defined.



Lemma decorate_monotone_clear_antitone_witness :
  sorted doc_lines ∧
  ∀ e', e' ∈ fst (decorateSpan (Fin 1) (Fin 4) ["hl"%string] doc_lines) →
        ∃ p, origin doc_lines e' p ∧ classList (node p) ⊆ classList (node e').
Proof.
  assert (sorted doc_lines) as Hs by solve_sorted.
  split; [exact Hs|].
  destruct (decorate_monotone_clear_antitone doc_lines (Fin 1) (Fin 4)
              ["hl"%string] Hs) as [Hdec _].
  destruct (Hdec (fst (decorateSpan (Fin 1) (Fin 4) ["hl"%string] doc_lines))
              (snd (decorateSpan (Fin 1) (Fin 4) ["hl"%string] doc_lines)))
    as [_ H].
  - apply surjective_pairing.
  - exact H.
Defined.

(** C8 on the line "cb1-x": the builder returns a store, and the line of
    its segment is [NaN]. *)
Lemma initializeEntryPoints_records_NaN :
  constructor decimalNumber unnumbered = [mkEntry 0 NaN 1 (mkNode "ab" ∅)].
Proof. reflexivity. Qed.

Lemma initializeEntryPoints_unresolved_line_witness :
  mkLine "cb1-x" [OtherNode; span "ab"] ∈ lines unnumbered ∧
  span "ab" ∈ childNodes (mkLine "cb1-x" [OtherNode; span "ab"]) ∧
  decimalNumber (pop (split_dash "cb1-x")) = NaN ∧
  ∃ e, e ∈ initializeEntryPoints decimalNumber unnumbered ∧
       node e = mkNode "ab" ∅ ∧ line e = NaN.
Proof.
  assert (mkLine "cb1-x" [OtherNode; span "ab"] ∈ lines unnumbered) as Hl
    by (simpl; apply elem_of_cons; left; reflexivity).
  assert (SpanElement (mkNode "ab" ∅)
          ∈ childNodes (mkLine "cb1-x" [OtherNode; span "ab"])) as Hc
    by (simpl; apply elem_of_cons; right; apply elem_of_cons; left; reflexivity).
  split; [exact Hl|]. split; [exact Hc|]. split; [reflexivity|].
  exact (initializeEntryPoints_unresolved_line decimalNumber unnumbered
           (mkLine "cb1-x" [OtherNode; span "ab"]) (mkNode "ab" ∅) Hl Hc eq_refl).
Defined.

(** C1 on "ab" / "cd": at the offset 2 of the line break the segment
    returned is "b", whose range ends at 2; and at the offset -1 the answer
    is a result object without an entry, not "not found". *)
Lemma locateEntry_not_as_stated :
  locateEntry doc_chars (Fin 2) = Ok (Some (mkLocated (Some (seg 1 1 2 "b" ∅)) 1)) ∧
  ¬ (offset (seg 1 1 2 "b" ∅) ≤ 2
     < offset (seg 1 1 2 "b" ∅) + textLength (seg 1 1 2 "b" ∅)) ∧
  locateEntry doc_chars (Fin (-1)) = Ok (Some (mkLocated None (-1))) ∧
  locateEntry doc_chars (Fin (-1)) ≠ Ok None.
Proof.
  split; [reflexivity|]. split; [vm_compute; intros [_ H]; discriminate H|].
  split; [reflexivity|]. discriminate.
Qed.

Lemma locateEntry_spec_witness :
  sorted doc_chars ∧
  locateEntry doc_chars (Fin 3) = Ok (Some (mkLocated (Some (seg 3 2 1 "c" ∅)) 2)) ∧
  locateEntry doc_chars (Fin 5) = Ok None.
Proof.
  assert (sorted doc_chars) as Hs by solve_sorted.
  split; [exact Hs|].
  destruct (locateEntry_spec doc_chars 3 Hs) as (_ & Hcontains & _).
  destruct (locateEntry_spec doc_chars 5 Hs) as (_ & _ & Hpast & _).
  split.
  - apply (Hcontains 2%nat (seg 3 2 1 "c" ∅)).
    + reflexivity.
    + intros y Hy. injection Hy as <-. vm_compute. discriminate.
    + vm_compute. split; [discriminate|reflexivity].
  - apply (Hpast (seg 4 2 2 "d" ∅)).
    + reflexivity.
    + vm_compute. discriminate.
Defined.

(** * Further properties of the code *)

(** ** The two definitions of a method *)

(** X1: the [clearSpan] with the generator, which the class defines first,
    and the [clearSpan] in force do the same to every store; so do
    [decorateSpan] and its form without the generator. *)
Theorem generator_forms_agree (start end_ : Offset) (classes : list string) (s : Store) :
  clearSpan_generator start end_ classes s = clearSpan start end_ classes s ∧
  decorateSpan start end_ classes s = decorateSpan_direct start end_ classes s.
Proof.
  unfold clearSpan_generator, clearSpan, decorateSpan, decorateSpan_direct,
    spanSelection, bind, read.
  destruct (ensureExactSpan start end_ s) as [s2 [[]|]]; [|done].
  destruct (locateEntry s2 start) as [[se|]|]; try done;
    by destruct (locateEntry s2 end_) as [ee|].
Qed.

(** ** normalizeCodeRange *)

Lemma append_nil_r (s : string) : s +:+ EmptyString = s.
Proof. induction s as [|c s IH]; [done|]. by rewrite append_String, IH. Qed.

Lemma normalizeChildren_no_text cs :
  Forall (λ c, is_text c = false) (normalizeChildren cs).
Proof. induction cs as [|[t|nd|] cs IH]; simpl; by constructor. Qed.

Lemma normalizeChildren_id cs :
  Forall (λ c, is_text c = false) cs → normalizeChildren cs = cs.
Proof.
  induction 1 as [|c cs Hc _ IH]; simpl; [done|].
  destruct c; simpl in *; [done|by rewrite IH..].
Qed.

Lemma normalizeChildren_length cs : length (normalizeChildren cs) = length cs.
Proof. induction cs as [|[t|nd|] cs IH]; simpl; by rewrite ?IH. Qed.

Lemma normalizeChildren_lookup cs i c :
  cs !! i = Some c → is_text c = false → normalizeChildren cs !! i = Some c.
Proof.
  revert i. induction cs as [|c' cs IH]; intros [|i] Hi Hc; simplify_eq/=.
  - by destruct c.
  - destruct c'; simpl; by apply IH.
Qed.

Lemma normalizeChildren_lookup_text cs i t :
  cs !! i = Some (TextNode t) →
  normalizeChildren cs !! i
  = Some (SpanElement (mkNode (t +:+ wholeText_rest (drop (S i) cs)) ∅)).
Proof.
  revert i. induction cs as [|c' cs IH]; intros [|i] Hi; simplify_eq/=.
  - done.
  - destruct c'; simpl; by apply IH.
Qed.

(** X2: after [normalizeCodeRange] no line has a naked text node: each one
    was replaced, in its place, by a span without classes that holds its
    [wholeText]; every other child is where it was; and a second run
    changes nothing. *)
Theorem normalizeCodeRange_spec (n : CodeNode) :
  sourceOffset (normalizeCodeRange n) = sourceOffset n ∧
  Forall (λ l, Forall (λ c, is_text c = false) (childNodes l))
    (lines (normalizeCodeRange n)) ∧
  Forall2 (λ l l',
    id l' = id l ∧
    length (childNodes l') = length (childNodes l) ∧
    (∀ i c, childNodes l !! i = Some c → is_text c = false →
            childNodes l' !! i = Some c) ∧
    (∀ i t, childNodes l !! i = Some (TextNode t) →
            childNodes l' !! i
            = Some (SpanElement
                      (mkNode (t +:+ wholeText_rest (drop (S i) (childNodes l))) ∅))))
    (lines n) (lines (normalizeCodeRange n)) ∧
  normalizeCodeRange (normalizeCodeRange n) = normalizeCodeRange n.
Proof.
  destruct n as [x ls]. unfold normalizeCodeRange. simpl. split_and!.
  - done.
  - apply Forall_fmap, Forall_forall. intros l _. simpl.
    apply normalizeChildren_no_text.
  - apply Forall2_fmap_r, Forall_Forall2_diag, Forall_forall. intros l _. simpl.
    split_and!; [done|apply normalizeChildren_length| |].
    + intros i c. apply normalizeChildren_lookup.
    + intros i t. apply normalizeChildren_lookup_text.
  - f_equal. rewrite <- list_fmap_compose. apply list_fmap_ext.
    intros i l _. simpl. f_equal.
    apply normalizeChildren_id, normalizeChildren_no_text.
Qed.

(** ** The builder *)

Lemma foldl_pushChild_eq ln cs res off col :
  foldl (pushChild ln) (res, off, col) cs
  = (res ++ line_entries ln off col cs, off + line_length cs, col + line_length cs).
Proof.
  unfold line_length.
  revert res off col. induction cs as [|c cs IH]; intros res off col; simpl.
  { rewrite app_nil_r. unfold str_length. simpl. by rewrite !Z.add_0_r. }
  destruct c as [t|nd|]; simpl; rewrite IH; try done.
  rewrite <- app_assoc. simpl. rewrite str_length_app.
  f_equal; [f_equal|]; lia.
Qed.

Lemma foldl_pushLine_eq Number ls res off :
  (foldl (pushLine Number) (res, off) ls).1 = res ++ store_of Number off ls.
Proof.
  revert res off. induction ls as [|l ls IH]; intros res off; simpl.
  { by rewrite app_nil_r. }
  rewrite foldl_pushChild_eq, IH. by rewrite <- app_assoc.
Qed.

Lemma initializeEntryPoints_store_of Number n :
  initializeEntryPoints Number n
  = store_of Number (initialOffset Number (sourceOffset n)) (lines n).
Proof. unfold initializeEntryPoints. by rewrite foldl_pushLine_eq. Qed.

Lemma document_text_line_entries ln off col cs :
  document_text (line_entries ln off col cs) = line_text cs.
Proof.
  revert off col. induction cs as [|[t|nd|] cs IH]; intros off col; simpl; try done.
  by rewrite IH.
Qed.

Lemma document_text_store_of Number off ls :
  document_text (store_of Number off ls)
  = foldr (λ l acc, line_text (childNodes l) +:+ acc) EmptyString ls.
Proof.
  revert off. induction ls as [|l ls IH]; intros off; simpl; [done|].
  by rewrite document_text_app, document_text_line_entries, IH.
Qed.

Lemma line_text_normalizeChildren cs :
  no_adjacent_text cs → line_text (normalizeChildren cs) = raw_line_text cs.
Proof.
  induction cs as [|c cs IH]; simpl; [done|].
  destruct c as [t|nd|]; simpl.
  - intros [Hnext Hrest]. rewrite (IH Hrest). f_equal.
    destruct cs as [|[t'|nd'|] cs]; simpl; try done; apply append_nil_r.
  - intros H. by rewrite IH.
  - intros H. by rewrite IH.
Qed.

(** X3: the texts of the segments the builder makes, put together in the
    order of the store, are the texts of the spans of the lines in the
    order of the document; built by the constructor on a document in which
    no two text nodes are neighbours, they are all the text of the lines,
    that of the naked text nodes included. *)
Theorem builder_keeps_text (Number : string → JSNum) (n : CodeNode) :
  document_text (initializeEntryPoints Number n) = surface_text n ∧
  (Forall (λ l, no_adjacent_text (childNodes l)) (lines n) →
   document_text (constructor Number n)
   = foldr (λ l acc, raw_line_text (childNodes l) +:+ acc) EmptyString (lines n)).
Proof.
  split.
  - by rewrite initializeEntryPoints_store_of, document_text_store_of.
  - intros Hn. unfold constructor.
    rewrite initializeEntryPoints_store_of, document_text_store_of.
    destruct n as [x ls]. cbn [lines normalizeCodeRange] in *. clear x.
    induction Hn as [|l ls Hl _ IH]; [done|].
    rewrite fmap_cons. cbn [foldr childNodes].
    by rewrite IH, line_text_normalizeChildren.
Qed.

Lemma builder_keeps_text_witness :
  Forall (λ l, no_adjacent_text (childNodes l))
    (lines (mkCodeNode None [mkLine "cb1-1" [OtherNode; TextNode "a"; span "b"]])) ∧
  document_text
    (constructor decimalNumber
       (mkCodeNode None [mkLine "cb1-1" [OtherNode; TextNode "a"; span "b"]]))
  = "ab"%string.
Proof.
  assert (Forall (λ l, no_adjacent_text (childNodes l))
    (lines (mkCodeNode None [mkLine "cb1-1" [OtherNode; TextNode "a"; span "b"]])))
    as H by (repeat constructor).
  split; [exact H|].
  destruct (builder_keeps_text decimalNumber
    (mkCodeNode None [mkLine "cb1-1" [OtherNode; TextNode "a"; span "b"]])) as [_ Hc].
  exact (Hc H).
Defined.

Lemma line_entries_head ln off col cs y :
  line_entries ln off col cs !! 0%nat = Some y →
  line y = ln ∧ offset y = off ∧ column y = col.
Proof.
  induction cs as [|[t|nd|] cs IH]; simpl; try done. by intros [= <-].
Qed.

Lemma line_entries_bounds ln off col cs x :
  x ∈ line_entries ln off col cs →
  off ≤ offset x ∧ offset x + textLength x ≤ off + line_length cs.
Proof.
  unfold line_length.
  revert off col. induction cs as [|[t|nd|] cs IH]; intros off col; simpl.
  - by intros ?%elem_of_nil.
  - apply IH.
  - rewrite str_length_app. pose proof (str_length_nonneg (textContent nd)).
    pose proof (str_length_nonneg (line_text cs)).
    intros [->|Hx]%elem_of_cons.
    + unfold textLength. simpl. lia.
    + specialize (IH _ _ Hx). lia.
  - apply IH.
Qed.

Lemma line_entries_succ ln off col cs i x y :
  line_entries ln off col cs !! i = Some x →
  line_entries ln off col cs !! S i = Some y →
  line y = line x ∧ offset y = offset x + textLength x
  ∧ column y = column x + textLength x.
Proof.
  revert off col i. induction cs as [|[t|nd|] cs IH]; intros off col i; simpl; try done.
  - apply IH.
  - destruct i as [|i]; simpl.
    + intros [= <-] Hy. by apply line_entries_head in Hy as (-> & -> & ->).
    + apply IH.
  - apply IH.
Qed.

Lemma store_of_head Number off ls y :
  store_of Number off ls !! 0%nat = Some y → column y = 1 ∧ off ≤ offset y.
Proof.
  revert off. induction ls as [|l ls IH]; intros off; simpl; [done|].
  destruct (line_entries (Number (pop (split_dash (id l)))) off 1 (childNodes l))
    as [|x es] eqn:He; simpl.
  - intros Hy. apply IH in Hy. pose proof (str_length_nonneg (line_text (childNodes l))).
    unfold line_length in *. lia.
  - intros [= <-]. assert (Hx : (x :: es) !! 0%nat = Some x) by done.
    rewrite <- He in Hx. apply line_entries_head in Hx as (_ & -> & ->). lia.
Qed.

Lemma store_of_succ Number off ls i x y :
  store_of Number off ls !! i = Some x →
  store_of Number off ls !! S i = Some y →
  follows x y.
Proof.
  revert off i. induction ls as [|l ls IH]; intros off i; simpl; [done|].
  set (es := line_entries (Number (pop (split_dash (id l)))) off 1 (childNodes l)).
  intros Hx Hy.
  destruct (decide (S i < length es)%nat) as [Hlt|Hge].
  - rewrite lookup_app_l in Hx, Hy by lia. left. by eapply line_entries_succ.
  - destruct (decide (i < length es)%nat) as [Hi|Hi].
    + rewrite lookup_app_l in Hx by lia. rewrite lookup_app_r in Hy by lia.
      replace (S i - length es)%nat with 0%nat in Hy by lia.
      apply store_of_head in Hy as [Hc Ho].
      destruct (line_entries_bounds _ _ _ _ x (list_elem_of_lookup_2 _ _ _ Hx)) as [_ Hend].
      right. split; [done|lia].
    + rewrite lookup_app_r in Hx, Hy by lia.
      replace (S i - length es)%nat with (S (i - length es)) in Hy by lia.
      by eapply IH.
Qed.

(** X4: in the store the builder makes, the first segment has the column 1,
    and of two neighbours the second one either is in the same line, and
    starts at the offset and the column at which the first one ends, or
    has the column 1 and starts at least one offset, the line break, behind
    the end of the first one. *)
Theorem builder_bookkeeping (Number : string → JSNum) (n : CodeNode) :
  (∀ f, head (initializeEntryPoints Number n) = Some f →
        column f = 1 ∧ initialOffset Number (sourceOffset n) ≤ offset f) ∧
  (∀ i x y,
     initializeEntryPoints Number n !! i = Some x →
     initializeEntryPoints Number n !! S i = Some y →
     follows x y).
Proof.
  rewrite initializeEntryPoints_store_of. split.
  - intros f Hf. rewrite head_lookup in Hf. by apply store_of_head in Hf.
  - intros i x y. apply store_of_succ.
Qed.

Lemma builder_bookkeeping_witness :
  head (initializeEntryPoints decimalNumber abcd_chars) = Some (seg 0 1 1 "a" ∅) ∧
  initializeEntryPoints decimalNumber abcd_chars !! 1%nat = Some (seg 1 1 2 "b" ∅) ∧
  initializeEntryPoints decimalNumber abcd_chars !! 2%nat = Some (seg 3 2 1 "c" ∅) ∧
  column (seg 0 1 1 "a" ∅) = 1 ∧
  follows (seg 1 1 2 "b" ∅) (seg 3 2 1 "c" ∅).
Proof.
  destruct (builder_bookkeeping decimalNumber abcd_chars) as [Hhead Hnext].
  split; [reflexivity|]. split; [reflexivity|]. split; [reflexivity|].
  split.
  - exact (proj1 (Hhead (seg 0 1 1 "a" ∅) eq_refl)).
  - exact (Hnext 1%nat (seg 1 1 2 "b" ∅) (seg 3 2 1 "c" ∅) eq_refl eq_refl).
Defined.

(** ** The source offset *)

Lemma line_entries_shift ln off col cs d :
  line_entries ln (off + d) col cs = shift d (line_entries ln off col cs).
Proof.
  unfold shift. revert off col. induction cs as [|[t|nd|] cs IH]; intros off col; simpl; try done.
  f_equal.
  replace (off + d + str_length (textContent nd))
    with (off + str_length (textContent nd) + d) by lia.
  apply IH.
Qed.

Lemma store_of_shift Number off ls d :
  store_of Number (off + d) ls = shift d (store_of Number off ls).
Proof.
  revert off. induction ls as [|l ls IH]; intros off; simpl; [done|].
  unfold shift in *. rewrite fmap_app. f_equal.
  - apply line_entries_shift.
  - replace (off + d + line_length (childNodes l) + 1)
      with (off + line_length (childNodes l) + 1 + d) by lia.
    apply IH.
Qed.

Lemma scan_shift d a s : scan (a + d) (shift d s) = scan a s.
Proof.
  unfold shift. induction s as [|x s IH]; [done|].
  rewrite fmap_cons. cbn [scan offset]. rewrite IH.
  destruct (offset x + d >? a + d) eqn:E1, (offset x >? a) eqn:E2; try done; lia.
Qed.

Lemma offsetToLineColumn_shift d a s :
  offsetToLineColumn (shift d s) (Fin (a + d)) = offsetToLineColumn s (Fin a).
Proof.
  unfold offsetToLineColumn. rewrite !locateEntry_scan. cbv zeta.
  rewrite scan_shift. unfold shift at 1. rewrite length_fmap.
  assert (∀ k, prev (shift d s) k
    = (λ e, mkEntry (offset e + d) (line e) (column e) (node e)) <$> prev s k) as Hprev.
  { intros [|k]; simpl; [done|]. unfold shift. by rewrite list_lookup_fmap. }
  rewrite Hprev.
  destruct (scan a s <? length s)%nat.
  - simpl. destruct (prev s (scan a s)) as [e|]; simpl; [|done].
    do 3 f_equal. lia.
  - destruct (prev s (scan a s)) as [c|]; simpl; [|done].
    unfold textLength at 1. simpl. fold (textLength c).
    destruct (a + d <? offset c + d + textLength c) eqn:E1,
             (a <? offset c + textLength c) eqn:E2; try lia; simpl.
    + do 3 f_equal. lia.
    + unfold shift. rewrite fmap_last. destruct (last s) as [l|]; simpl; [|done].
      do 3 f_equal. unfold textLength. simpl. lia.
Qed.

(** X5: a source offset [x] that [Number] reads as [z] moves every segment
    by [-z] and leaves lines, columns and texts as they are, so that
    [offsetToLineColumn] answers at [a] what it answers at [a + z] without
    the source offset; an absent or empty source offset, or one that is
    not a number, moves nothing. *)
Theorem source_offset_shifts (Number : string → JSNum) (n : CodeNode) :
  (∀ x z, sourceOffset n = Some x → x ≠ EmptyString → Number x = Num z →
     initializeEntryPoints Number n
     = shift (- z) (initializeEntryPoints Number (mkCodeNode None (lines n))) ∧
     ∀ a, offsetToLineColumn (initializeEntryPoints Number n) (Fin a)
          = offsetToLineColumn
              (initializeEntryPoints Number (mkCodeNode None (lines n))) (Fin (a + z))) ∧
  ((sourceOffset n = None ∨ sourceOffset n = Some EmptyString
    ∨ ∃ x, sourceOffset n = Some x ∧ Number x = NaN) →
   initializeEntryPoints Number n
   = initializeEntryPoints Number (mkCodeNode None (lines n))).
Proof.
  rewrite !initializeEntryPoints_store_of. simpl. split.
  - intros x z Hx Hne Hz.
    assert (initialOffset Number (sourceOffset n) = 0 + - z) as ->.
    { rewrite Hx. destruct x; [done|]. simpl. by rewrite Hz. }
    rewrite store_of_shift. split; [done|]. intros a.
    replace a with ((a + z) + - z) at 1 by lia. apply offsetToLineColumn_shift.
  - intros [->|[->|(x & -> & Hx)]]; try done.
    destruct x; [done|]. simpl. by rewrite Hx.
Qed.

Lemma source_offset_shifts_witness :
  sourceOffset (mkCodeNode (Some "2"%string) (lines abcd_chars)) = Some "2"%string ∧
  decimalNumber "2" = Num 2 ∧
  initializeEntryPoints decimalNumber (mkCodeNode (Some "2"%string) (lines abcd_chars))
  = shift (- 2) (initializeEntryPoints decimalNumber (mkCodeNode None (lines abcd_chars))).
Proof.
  split; [reflexivity|]. split; [reflexivity|].
  destruct (source_offset_shifts decimalNumber
              (mkCodeNode (Some "2"%string) (lines abcd_chars))) as [H _].
  destruct (H "2"%string 2) as [Heq _]; [reflexivity|discriminate|reflexivity|].
  exact Heq.
Defined.

(** ** The order kept by the methods *)

Lemma slice_before_length s k :
  0 ≤ k → str_length (slice s 0 (Some k)) = Z.min k (str_length s).
Proof.
  intros. rewrite slice_before by done. unfold str_length.
  rewrite length_str_take. lia.
Qed.

Lemma cut_head_length e a :
  offset e ≤ a → textLength (cut_head e a) = Z.min (a - offset e) (textLength e).
Proof. intros. unfold textLength. simpl. apply slice_before_length. lia. Qed.

Lemma cut_tail_length e a :
  offset e ≤ a →
  textLength (cut_tail e a) = textLength e - Z.min (a - offset e) (textLength e).
Proof. intros. unfold textLength. simpl. apply slice_after_length. lia. Qed.

Lemma separated_lookup s i j x y :
  separated s → s !! i = Some x → s !! j = Some y → (i < j)%nat →
  offset x + textLength x ≤ offset y.
Proof.
  intros Hs. revert i j. induction Hs as [|z l _ IH Hz]; intros i j Hi Hj Hij.
  { by rewrite lookup_nil in Hi. }
  destruct i as [|i], j as [|j]; simpl in *; simplify_eq; try lia.
  - rewrite Forall_forall in Hz. apply Hz. by eapply list_elem_of_lookup_2.
  - eapply IH; eauto. lia.
Qed.

Lemma separated_split_at s k e a :
  separated s → splits s k e a → separated (split_at s k e a).
Proof.
  intros Hsep Hsp. pose proof Hsp as (_ & _ & Hea & _).
  pose proof (separated_sorted _ Hsep) as Hs.
  destruct (splits_decomp _ _ _ _ Hs Hsp) as (l1 & l2 & -> & -> & H1 & H2 & _).
  pose proof (cut_head_length e a ltac:(lia)) as Hh.
  pose proof (cut_tail_length e a ltac:(lia)) as Ht.
  pose proof (textLength_nonneg e) as He0.
  unfold separated in *.
  rewrite StronglySorted_app, !StronglySorted_cons, !Forall_forall in *.
  destruct Hsep as (H12 & Hl1 & He & Hl2).
  split_and!; try done.
  - intros x1 x2 Hx1 Hx2.
    pose proof (H12 x1 e Hx1 ltac:(by left)) as Hx1e.
    rewrite !elem_of_cons in Hx2. destruct Hx2 as [->|[->|Hx2]].
    + done.
    + simpl. lia.
    + apply H12; [done|]. by right.
  - intros x Hx. rewrite elem_of_cons in Hx. destruct Hx as [->|Hx].
    + rewrite Hh. simpl. lia.
    + specialize (He x Hx). rewrite Hh. simpl. lia.
  - intros x Hx. specialize (He x Hx). specialize (H2 x Hx). rewrite Ht. simpl. lia.
Qed.

Lemma boundary_separated s o s' r :
  separated s → boundary o s = (s', r) → separated s'.
Proof.
  intros Hsep Hb. pose proof (separated_sorted _ Hsep) as Hs.
  destruct (boundary_cases _ _ _ _ Hs Hb)
    as [(_ & -> & _)|[(_ & -> & _)|(_ & a & k & e & _ & Hsp & ->)]]; try done.
  by apply separated_split_at.
Qed.

Lemma ensureExactSpan_separated start end_ s s' r :
  separated s → ensureExactSpan start end_ s = (s', r) → separated s'.
Proof.
  intros Hsep H.
  destruct (ensureExactSpan_cases _ _ _ _ _ H)
    as (s1 & r1 & H1 & [(_ & -> & _)|(_ & H2)]).
  - by eapply boundary_separated.
  - eapply boundary_separated; [|exact H2]. by eapply boundary_separated.
Qed.

Lemma separated_shape s : separated s ↔ StronglySorted (λ p q : Z * Z, p.1 + p.2 ≤ q.1) (shape s).
Proof.
  unfold separated, shape. induction s as [|x s IH].
  { split; constructor. }
  rewrite fmap_cons, !StronglySorted_cons, IH, Forall_fmap. done.
Qed.

Lemma shape_separated s s' : shape s = shape s' → separated s → separated s'.
Proof. intros H. by rewrite !separated_shape, H. Qed.

Lemma tag_selected_separated g start end_ classes s s' r :
  separated s →
  bind (ensureExactSpan start end_) (λ _, tag_selected g start end_ classes) s = (s', r) →
  separated s'.
Proof.
  intros Hsep H. pose proof (separated_sorted _ Hsep) as Hs.
  apply (shape_separated (ensureExactSpan start end_ s).1).
  - symmetry. by eapply tag_selected_shape.
  - destruct (ensureExactSpan start end_ s) as [s0 r0] eqn:H0.
    by eapply ensureExactSpan_separated.
Qed.

Lemma reachable_separated Number n s : reachable Number n s → separated s.
Proof.
  induction 1 as [|s start end_ classes _ IH|s start end_ classes _ IH].
  - apply initializeEntryPoints_separated.
  - destruct (decorateSpan start end_ classes s) as [s' r] eqn:H.
    rewrite decorateSpan_tag_selected in H. by eapply tag_selected_separated.
  - destruct (clearSpan start end_ classes s) as [s' r] eqn:H.
    rewrite clearSpan_tag_selected in H. by eapply tag_selected_separated.
Qed.

(** X6: whatever calls of [decorateSpan] and [clearSpan] were made on a
    decorator, those that threw included, its store is in the order of the
    offsets and no segment reaches into the next one. *)
Theorem decorator_keeps_order (Number : string → JSNum) (n : CodeNode) (s : Store) :
  reachable Number n s →
  sorted s ∧
  ∀ i j x y, s !! i = Some x → s !! j = Some y → (i < j)%nat →
             offset x + textLength x ≤ offset y.
Proof.
  intros Hr. pose proof (reachable_separated _ _ _ Hr) as Hsep. split.
  - by apply separated_sorted.
  - intros i j x y. by apply separated_lookup.
Qed.

Lemma decorator_keeps_order_witness :
  reachable decimalNumber abcd_lines
    (decorateSpan (Fin 1) (Fin 4) ["hl"%string] (constructor decimalNumber abcd_lines)).1 ∧
  sorted (decorateSpan (Fin 1) (Fin 4) ["hl"%string]
            (constructor decimalNumber abcd_lines)).1.
Proof.
  assert (reachable decimalNumber abcd_lines
    (decorateSpan (Fin 1) (Fin 4) ["hl"%string] (constructor decimalNumber abcd_lines)).1)
    as Hr by (apply reachable_decorateSpan, reachable_constructor).
  split; [exact Hr|].
  exact (proj1 (decorator_keeps_order decimalNumber abcd_lines _ Hr)).
Defined.

(** ** What the splits leave as it was *)

Lemma scan_app o l1 l2 :
  scan o (l1 ++ l2)
  = if decide (scan o l1 = length l1) then (length l1 + scan o l2)%nat else scan o l1.
Proof.
  induction l1 as [|x l1 IH]; simpl; [done|].
  destruct (offset x >? o); [done|]. rewrite IH.
  destruct (decide (scan o l1 = length l1)), (decide (S (scan o l1) = S (length l1)));
    try done; lia.
Qed.

Lemma scan_split_at s k e a b :
  sorted s → splits s k e a →
  scan b (split_at s k e a) = if b <? a then scan b s else S (scan b s).
Proof.
  intros Hs Hsp. pose proof Hsp as (_ & _ & Hea & _).
  destruct (splits_decomp _ _ _ _ Hs Hsp) as (l1 & l2 & -> & -> & H1 & H2 & _).
  rewrite !scan_app. destruct (decide (scan b l1 = length l1)) as [Hall|Hsome].
  - simpl. destruct (offset e >? b) eqn:E1.
    { destruct (b <? a) eqn:E; [done|lia]. }
    destruct (a >? b) eqn:E2.
    + destruct (b <? a) eqn:E; [|lia].
      assert (scan b l2 = 0%nat) as ->; [|done].
      destruct l2 as [|y l2]; [done|]. simpl.
      specialize (H2 y ltac:(by left)). destruct (offset y >? b) eqn:E3; [done|lia].
    + destruct (b <? a) eqn:E; [lia|]. lia.
  - pose proof (scan_le_length b l1).
    destruct (lookup_lt_is_Some_2 l1 (scan b l1) ltac:(lia)) as [x Hx].
    pose proof (scan_lookup_eq _ _ _ Hx).
    specialize (H1 x (list_elem_of_lookup_2 _ _ _ Hx)).
    destruct (b <? a) eqn:E; [done|lia].
Qed.

Lemma length_split_at s k e a :
  s !! k = Some e → length (split_at s k e a) = S (length s).
Proof.
  intros Hk. apply lookup_lt_Some in Hk. unfold split_at.
  rewrite length_app, length_take. simpl. rewrite length_drop. lia.
Qed.

Lemma lookup_split_at s k e a i :
  s !! k = Some e →
  split_at s k e a !! i
  = if decide (i < k)%nat then s !! i
    else if decide (i = k) then Some (cut_head e a)
    else if decide (i = S k) then Some (cut_tail e a)
    else s !! pred i.
Proof.
  intros Hk. pose proof (lookup_lt_Some _ _ _ Hk) as Hlen. unfold split_at.
  assert (length (take k s) = k) as Htake by (rewrite length_take; lia).
  destruct (decide (i < k)%nat).
  { rewrite lookup_app_l by lia. by rewrite lookup_take_lt. }
  rewrite lookup_app_r by lia. rewrite Htake.
  destruct (decide (i = k)) as [->|].
  { by rewrite Nat.sub_diag. }
  destruct (decide (i = S k)) as [->|].
  { by replace (S k - k)%nat with 1%nat by lia. }
  replace (i - k)%nat with (S (S (i - k - 2))) by lia. simpl.
  rewrite lookup_drop. f_equal. lia.
Qed.

Lemma place_cut_head e a b : place b (cut_head e a) = place b e.
Proof. done. Qed.

Lemma place_cut_tail e a b : place b (cut_tail e a) = place b e.
Proof. unfold place. simpl. do 2 f_equal. lia. Qed.

(** [locateEntry] tells the same about every offset before and after a
    split. *)
Lemma located_place_split_at s k e a b :
  sorted s → splits s k e a →
  located_place b (locateEntry (split_at s k e a) (Fin b))
  = located_place b (locateEntry s (Fin b)).
Proof.
  intros Hs Hsp. pose proof Hsp as (Hk & He & Hea & Hend).
  pose proof (lookup_lt_Some _ _ _ He) as Hlen.
  rewrite !locateEntry_scan. cbv zeta.
  rewrite (scan_split_at _ _ _ _ _ Hs Hsp), (length_split_at _ _ _ _ He).
  pose proof (scan_le_length b s) as HK.
  destruct (b <? a) eqn:Hba.
  - apply Z.ltb_lt in Hba.
    pose proof (scan_mono b a s ltac:(lia)) as Hmono. rewrite Hk in Hmono.
    assert ((scan b s <? S (length s))%nat = true) as -> by (apply Nat.ltb_lt; lia).
    assert (place b <$> prev (split_at s k e a) (scan b s)
            = place b <$> prev s (scan b s)) as Hprev.
    { destruct (scan b s) as [|j]; [done|]. simpl.
      rewrite (lookup_split_at _ _ _ _ _ He).
      destruct (decide (j < k)%nat); [done|].
      destruct (decide (j = k)) as [->|]; [|lia]. by rewrite He. }
    destruct (scan b s <? length s)%nat eqn:Hlt; simpl.
    { by rewrite Hprev. }
    apply Nat.ltb_ge in Hlt. assert (scan b s = S k) as HKk by lia.
    rewrite HKk in *. simpl in *. rewrite He in *. simpl in *.
    destruct Hend as [?|Hend]; [lia|].
    destruct (b <? offset e + textLength e) eqn:E; [|lia]. simpl. by rewrite Hprev.
  - apply Z.ltb_ge in Hba.
    pose proof (scan_mono a b s ltac:(lia)) as Hmono. rewrite Hk in Hmono.
    change (S (scan b s) <? S (length s))%nat with (scan b s <? length s)%nat.
    destruct (scan b s) as [|j] eqn:HKj; [lia|]. simpl.
    rewrite (lookup_split_at _ _ _ _ _ He).
    destruct (decide (S j < k)%nat); [lia|].
    destruct (decide (S j = k)); [lia|]. simpl.
    destruct (decide (S j = S k)) as [[= ->]|Hne].
    + rewrite He. destruct (S k <? length s)%nat eqn:Hlt; simpl.
      { by rewrite place_cut_tail. }
      apply Nat.ltb_ge in Hlt. destruct Hend as [?|Hend]; [lia|].
      pose proof (cut_tail_end e a ltac:(lia)) as Hce.
      change (offset (cut_tail e a)) with a in Hce. rewrite Hce.
      destruct (b <? offset e + textLength e); simpl; [|done].
      by rewrite place_cut_tail.
    + destruct (S j <? length s)%nat; [done|].
      destruct (s !! j) as [c|]; [|done].
      by destruct (b <? offset c + textLength c).
Qed.

Lemma last_line_end_split_at s k e a :
  sorted s → splits s k e a →
  line_end <$> last (split_at s k e a) = line_end <$> last s.
Proof.
  intros Hs Hsp. pose proof Hsp as (_ & _ & Hea & _).
  destruct (splits_decomp _ _ _ _ Hs Hsp) as (l1 & l2 & -> & -> & _ & _ & Hend).
  rewrite !last_app. simpl. destruct l2 as [|y l2]; simpl; [|done].
  specialize (Hend eq_refl). unfold line_end. simpl. f_equal. f_equal.
  rewrite (cut_tail_length e a) by lia. lia.
Qed.

(** [offsetToLineColumn] through what [locateEntry] tells. *)
Lemma offsetToLineColumn_place s b :
  offsetToLineColumn s (Fin b)
  = match located_place b (locateEntry s (Fin b)) with
    | TypeError => TypeError
    | Ok None =>
        match line_end <$> last s with
        | Some (ln, c) => Ok (mkPosition ln (Fin c))
        | None => TypeError
        end
    | Ok (Some None) => TypeError
    | Ok (Some (Some (ln, c, _))) => Ok (mkPosition ln (Fin c))
    end.
Proof.
  unfold offsetToLineColumn.
  destruct (locateEntry s (Fin b)) as [[le|]|] eqn:Hl; simpl; [|  |done].
  - by destruct (entry le).
  - destruct (locateEntry_not_found _ _ Hl) as (l & -> & _ & Hend). simpl.
    do 3 f_equal. pose proof (textLength_nonneg l). lia.
Qed.

Lemma offsetToLineColumn_Infinity s :
  offsetToLineColumn s Infinity
  = match line_end <$> last s with
    | Some (ln, c) => Ok (mkPosition ln (Fin c))
    | None => TypeError
    end.
Proof. unfold offsetToLineColumn. simpl. by destruct (last s). Qed.

Lemma offsetToLineColumn_split_at s k e a o :
  sorted s → splits s k e a →
  offsetToLineColumn (split_at s k e a) o = offsetToLineColumn s o.
Proof.
  intros Hs Hsp. destruct o as [b|].
  - rewrite !offsetToLineColumn_place.
    by rewrite located_place_split_at, last_line_end_split_at.
  - rewrite !offsetToLineColumn_Infinity. by rewrite last_line_end_split_at.
Qed.

Lemma boundary_places s o s' r :
  sorted s → boundary o s = (s', r) →
  (∀ b, located_place b (locateEntry s' (Fin b))
        = located_place b (locateEntry s (Fin b))) ∧
  (∀ o', offsetToLineColumn s' o' = offsetToLineColumn s o').
Proof.
  intros Hs Hb.
  destruct (boundary_cases _ _ _ _ Hs Hb)
    as [(_ & -> & _)|[(_ & -> & _)|(_ & a & k & e & _ & Hsp & ->)]]; try done.
  split.
  - intros b. by apply located_place_split_at.
  - intros o'. by apply offsetToLineColumn_split_at.
Qed.

Lemma ensureExactSpan_places start end_ s s' r :
  sorted s → ensureExactSpan start end_ s = (s', r) →
  (∀ b, located_place b (locateEntry s' (Fin b))
        = located_place b (locateEntry s (Fin b))) ∧
  (∀ o', offsetToLineColumn s' o' = offsetToLineColumn s o').
Proof.
  intros Hs H.
  destruct (ensureExactSpan_cases _ _ _ _ _ H)
    as (s1 & r1 & H1 & [(_ & -> & _)|(_ & H2)]).
  - by eapply boundary_places.
  - pose proof (boundary_sorted _ _ _ _ Hs H1) as Hs1.
    destruct (boundary_places _ _ _ _ Hs H1) as [Hp1 Ho1].
    destruct (boundary_places _ _ _ _ Hs1 H2) as [Hp2 Ho2].
    split; intros; [by rewrite Hp2, Hp1|by rewrite Ho2, Ho1].
Qed.

(** X7: [ensureExactSpan] changes nothing that can be asked about an
    offset: before and after the call, whether it returns or throws,
    [locateEntry] finds for every offset a segment of the same line with
    the same tags, in which the offset has the same column, or finds
    nothing both times; and the text of the document is the same. *)
Theorem ensureExactSpan_keeps_places
    (s s' : Store) (start end_ : Offset) (r : Res unit) :
  sorted s →
  ensureExactSpan start end_ s = (s', r) →
  (∀ b, located_place b (locateEntry s' (Fin b))
        = located_place b (locateEntry s (Fin b))) ∧
  document_text s' = document_text s.
Proof.
  intros Hs H. split.
  - by apply (ensureExactSpan_places start end_ s s' r).
  - by eapply ensureExactSpan_document_text.
Qed.

Lemma ensureExactSpan_keeps_places_witness :
  sorted doc_tagged ∧
  ensureExactSpan (Fin 1) Infinity doc_tagged
  = ([seg 0 1 1 "a" {["hl"%string]}; seg 1 1 2 "b" {["hl"%string]}], Ok tt) ∧
  located_place 1
    (locateEntry [seg 0 1 1 "a" {["hl"%string]}; seg 1 1 2 "b" {["hl"%string]}] (Fin 1))
  = located_place 1 (locateEntry doc_tagged (Fin 1)).
Proof.
  assert (sorted doc_tagged) as Hs by solve_sorted.
  assert (ensureExactSpan (Fin 1) Infinity doc_tagged
    = ([seg 0 1 1 "a" {["hl"%string]}; seg 1 1 2 "b" {["hl"%string]}], Ok tt)) as H
    by (vm_compute; reflexivity).
  split; [exact Hs|]. split; [exact H|].
  exact (proj1 (ensureExactSpan_keeps_places _ _ _ _ _ Hs H) 1).
Defined.

(** ** What the class lists do not touch *)

Lemma geometry_shape s s' : geometry s = geometry s' → shape s = shape s'.
Proof.
  unfold geometry, shape. intros H.
  apply (f_equal (fmap (λ p : Z * Z * JSNum * Z, (p.1.1.1, p.1.1.2)))) in H.
  by rewrite <- !list_fmap_compose in H.
Qed.

Lemma geometry_lookup s s' k e :
  geometry s = geometry s' → s !! k = Some e →
  ∃ e', s' !! k = Some e' ∧ offset e' = offset e ∧ textLength e' = textLength e
        ∧ line e' = line e ∧ column e' = column e.
Proof.
  unfold geometry. intros H He. apply (f_equal (λ l, l !! k)) in H.
  rewrite !list_lookup_fmap, He in H. simpl in H.
  destruct (s' !! k) as [e'|]; simplify_eq/=. eauto 10.
Qed.

Lemma geometry_prev s s' k :
  geometry s = geometry s' →
  match prev s k, prev s' k with
  | Some e, Some e' =>
      offset e' = offset e ∧ textLength e' = textLength e
      ∧ line e' = line e ∧ column e' = column e
  | None, None => True
  | _, _ => False
  end.
Proof.
  intros H. destruct k as [|k]; simpl; [done|].
  destruct (s !! k) as [e|] eqn:He.
  - destruct (geometry_lookup _ _ _ _ H He) as (e' & -> & ?). done.
  - apply lookup_ge_None in He. rewrite (lookup_ge_None_2 s'); [done|].
    by rewrite <- (shape_length _ _ (geometry_shape _ _ H)).
Qed.

Lemma geometry_last s s' :
  geometry s = geometry s' → line_end <$> last s = line_end <$> last s'.
Proof.
  intros H. pose proof (shape_length _ _ (geometry_shape _ _ H)) as Hlen.
  rewrite !last_lookup, <- Hlen.
  pose proof (geometry_prev s s' (length s) H) as Hp.
  destruct (length s) as [|m] eqn:Hm; simpl in *.
  { destruct s, s'; simpl in *; done. }
  destruct (s !! m) as [l|], (s' !! m) as [l'|]; try done.
  destruct Hp as (? & Ht & Hl & Hc). unfold line_end. simpl. by rewrite Ht, Hl, Hc.
Qed.

Lemma geometry_offsetToLineColumn s s' o :
  geometry s = geometry s' → offsetToLineColumn s o = offsetToLineColumn s' o.
Proof.
  intros H. pose proof (geometry_shape _ _ H) as Hsh.
  pose proof (geometry_last _ _ H) as Hlast.
  destruct o as [b|].
  2:{ by rewrite !offsetToLineColumn_Infinity, Hlast. }
  rewrite !offsetToLineColumn_place, <- Hlast.
  rewrite !locateEntry_scan. cbv zeta.
  rewrite <- (scan_same_offsets b s s' (shape_offsets _ _ Hsh)).
  rewrite <- (shape_length _ _ Hsh).
  pose proof (geometry_prev s s' (scan b s) H) as Hp.
  destruct (prev s (scan b s)) as [e|], (prev s' (scan b s)) as [e'|]; try done.
  - destruct Hp as (Ho & Ht & Hl & Hc).
    destruct (scan b s <? length s)%nat; simpl.
    + unfold place. by rewrite Ho, Hl, Hc.
    + rewrite Ho, Ht. destruct (b <? offset e + textLength e); simpl; [|done].
      unfold place. by rewrite Ho, Hl, Hc.
Qed.

Lemma retag_range_geometry G i j s : geometry (retag_range G i j s) = geometry s.
Proof.
  unfold geometry. apply list_eq. intros k.
  rewrite !list_lookup_fmap, retag_range_lookup.
  destruct (s !! k); simpl; [|done]. by case_decide.
Qed.

Lemma retag_range_document_text G i j s :
  document_text (retag_range G i j s) = document_text s.
Proof.
  assert (∀ s s' : Store,
    (textContent ∘ node) <$> s = (textContent ∘ node) <$> s' →
    document_text s = document_text s') as Htext.
  { induction s0 as [|x s0 IH]; intros [|x' s0'] H; try done.
    rewrite !fmap_cons in H. injection H as Hx Hrest. simpl in *.
    by rewrite Hx, (IH s0'). }
  apply Htext. apply list_eq. intros k.
  rewrite !list_lookup_fmap, retag_range_lookup.
  destruct (s !! k); simpl; [|done]. by case_decide.
Qed.

Lemma tag_selected_keeps g start end_ classes s s' r :
  sorted s →
  bind (ensureExactSpan start end_) (λ _, tag_selected g start end_ classes) s = (s', r) →
  (∀ o, offsetToLineColumn s' o = offsetToLineColumn s o) ∧
  document_text s' = document_text s.
Proof.
  intros Hs. unfold bind.
  destruct (ensureExactSpan start end_ s) as [s0 [[]|]] eqn:H0.
  2:{ intros [= <- <-]. split.
      - by apply (ensureExactSpan_places start end_ s s0 TypeError).
      - by eapply ensureExactSpan_document_text. }
  pose proof (ensureExactSpan_sorted _ _ _ _ _ Hs H0) as Hs0.
  destruct (ensureExactSpan_aligned _ _ _ _ Hs H0) as [Ha Hb].
  rewrite tag_selected_aligned by done. intros [= <- <-]. split.
  - intros o. rewrite (geometry_offsetToLineColumn _ s0) by apply retag_range_geometry.
    by apply (ensureExactSpan_places start end_ s s0 (Ok tt)).
  - rewrite retag_range_document_text. by eapply ensureExactSpan_document_text.
Qed.

Lemma reachable_keeps Number n s :
  reachable Number n s →
  (∀ o, offsetToLineColumn s o = offsetToLineColumn (constructor Number n) o) ∧
  document_text s = document_text (constructor Number n).
Proof.
  induction 1 as [|s start end_ classes Hr [IHo IHt]|s start end_ classes Hr [IHo IHt]].
  - done.
  - pose proof (separated_sorted _ (reachable_separated _ _ _ Hr)) as Hs.
    destruct (decorateSpan start end_ classes s) as [s' r] eqn:H.
    rewrite decorateSpan_tag_selected in H.
    destruct (tag_selected_keeps _ _ _ _ _ _ _ Hs H) as [Ho Ht]. simpl.
    split; [intros o; by rewrite Ho|by rewrite Ht].
  - pose proof (separated_sorted _ (reachable_separated _ _ _ Hr)) as Hs.
    destruct (clearSpan start end_ classes s) as [s' r] eqn:H.
    rewrite clearSpan_tag_selected in H.
    destruct (tag_selected_keeps _ _ _ _ _ _ _ Hs H) as [Ho Ht]. simpl.
    split; [intros o; by rewrite Ho|by rewrite Ht].
Qed.

(** X8: whatever calls of [decorateSpan] and [clearSpan] were made on a
    decorator, those that threw included, [offsetToLineColumn] answers for
    every offset what it answered right after the construction, and the
    texts of the segments put together are the text they were then. *)
Theorem decorator_keeps_positions (Number : string → JSNum) (n : CodeNode) (s : Store) :
  reachable Number n s →
  (∀ o, offsetToLineColumn s o = offsetToLineColumn (constructor Number n) o) ∧
  document_text s = document_text (constructor Number n).
Proof. apply reachable_keeps. Qed.

Lemma decorator_keeps_positions_witness :
  reachable decimalNumber abcd_lines
    (decorateSpan (Fin 1) (Fin 4) ["hl"%string] (constructor decimalNumber abcd_lines)).1 ∧
  offsetToLineColumn
    (decorateSpan (Fin 1) (Fin 4) ["hl"%string] (constructor decimalNumber abcd_lines)).1
    (Fin 4)
  = offsetToLineColumn (constructor decimalNumber abcd_lines) (Fin 4).
Proof.
  assert (reachable decimalNumber abcd_lines
    (decorateSpan (Fin 1) (Fin 4) ["hl"%string] (constructor decimalNumber abcd_lines)).1)
    as Hr by (apply reachable_decorateSpan, reachable_constructor).
  split; [exact Hr|].
  exact (proj1 (decorator_keeps_positions decimalNumber abcd_lines _ Hr) (Fin 4)).
Defined.

(** X9: in the store the constructor builds, and whatever calls of
    [decorateSpan] and [clearSpan] follow, [offsetToLineColumn] at the
    [d]-th character of a segment the constructor made is the line of that
    segment and its column moved by [d]. *)
Theorem decorator_positions
    (Number : string → JSNum) (n : CodeNode) (s : Store) (k : nat) (e : Entry) (d : Z) :
  reachable Number n s →
  constructor Number n !! k = Some e →
  0 ≤ d < textLength e →
  offsetToLineColumn s (Fin (offset e + d))
  = Ok (mkPosition (line e) (Fin (column e + d))).
Proof.
  intros Hr He Hd. rewrite (proj1 (reachable_keeps _ _ _ Hr)).
  pose proof (initializeEntryPoints_separated Number (normalizeCodeRange n)) as Hsep.
  fold (constructor Number n) in Hsep.
  unfold offsetToLineColumn.
  rewrite (locateEntry_contains (constructor Number n) k e (offset e + d));
    [|by apply separated_sorted|done| |lia].
  - simpl. do 3 f_equal. lia.
  - intros y Hy. eapply separated_lookup; [done|exact He|exact Hy|lia].
Qed.

Lemma decorator_positions_witness :
  reachable decimalNumber abcd_lines
    (decorateSpan (Fin 1) (Fin 4) ["hl"%string] (constructor decimalNumber abcd_lines)).1 ∧
  constructor decimalNumber abcd_lines !! 1%nat = Some (seg 3 2 1 "cd" ∅) ∧
  0 ≤ 1 < textLength (seg 3 2 1 "cd" ∅) ∧
  offsetToLineColumn
    (decorateSpan (Fin 1) (Fin 4) ["hl"%string] (constructor decimalNumber abcd_lines)).1
    (Fin (3 + 1))
  = Ok (mkPosition (Num 2) (Fin (1 + 1))).
Proof.
  assert (reachable decimalNumber abcd_lines
    (decorateSpan (Fin 1) (Fin 4) ["hl"%string] (constructor decimalNumber abcd_lines)).1)
    as Hr by (apply reachable_decorateSpan, reachable_constructor).
  assert (0 ≤ 1 < textLength (seg 3 2 1 "cd" ∅)) as Hd by (vm_compute; split; discriminate || reflexivity).
  split; [exact Hr|]. split; [reflexivity|]. split; [exact Hd|].
  exact (decorator_positions decimalNumber abcd_lines _ 1%nat (seg 3 2 1 "cd" ∅) 1
           Hr eq_refl Hd).
Defined.

(** ** The segments a call tags *)

Lemma last_docEnd s l : last s = Some l → docEnd s = Some (offset l + textLength l).
Proof. unfold docEnd. by intros ->. Qed.

Lemma strictly_sorted_index_le s i k x e :
  strictly_sorted s → s !! i = Some x → s !! k = Some e →
  (i ≤ k)%nat ↔ offset x ≤ offset e.
Proof.
  intros Hs Hx He. split.
  - intros Hik. eapply sorted_lookup; eauto using strictly_sorted_sorted.
  - intros Ho. destruct (decide (i ≤ k)%nat) as [|Hn]; [done|].
    pose proof (strictly_sorted_lookup s k i e x Hs He Hx ltac:(lia)). lia.
Qed.

Lemma strictly_sorted_index_lt s i k x e :
  strictly_sorted s → s !! i = Some x → s !! k = Some e →
  (i < k)%nat ↔ offset x < offset e.
Proof.
  intros Hs Hx He. split.
  - intros Hik. eapply strictly_sorted_lookup; eauto.
  - intros Ho. destruct (decide (i < k)%nat) as [|Hn]; [done|].
    pose proof (sorted_lookup s k i e x (strictly_sorted_sorted _ Hs) He Hx ltac:(lia)). lia.
Qed.

Lemma selection_start s a :
  sorted s → aligned s (Fin a) → inside s (Fin a) →
  ∃ i x, located_index (locateEntry s (Fin a)) = Some (Z.of_nat i) ∧
         s !! i = Some x ∧ offset x = a.
Proof.
  intros Hs Ha [_ (z & Hz & Hlt)].
  destruct (aligned_scan _ _ Hs Ha) as (k & x0 & Hk & _).
  destruct (locateEntry_aligned _ _ Hs Ha) as [Hn|(e & Hl & He & Ho)].
  - destruct (locateEntry_not_found _ _ Hn) as (l & Hl & _ & Hend).
    rewrite (last_docEnd _ _ Hl) in Hz. injection Hz as <-. lia.
  - rewrite Hk in Hl, He. simpl in He. exists k, e. rewrite Hl. simpl.
    split; [f_equal; lia|done].
Qed.

Lemma selection_end s b :
  strictly_sorted s → aligned s (Fin b) →
  (located_index (locateEntry s (Fin b)) = None ∧ ¬ inside s (Fin b)) ∨
  (∃ j y, located_index (locateEntry s (Fin b)) = Some (Z.of_nat j) ∧
          s !! j = Some y ∧ offset y = b ∧ inside s (Fin b)).
Proof.
  intros Hss Hb. pose proof (strictly_sorted_sorted _ Hss) as Hs.
  destruct (aligned_scan _ _ Hs Hb) as (k & x0 & Hk & _).
  destruct (locateEntry_aligned _ _ Hs Hb) as [Hn|(e & Hl & He & Ho)].
  - left. rewrite Hn. split; [done|]. intros [_ (z & Hz & Hlt)].
    destruct (locateEntry_not_found _ _ Hn) as (l & Hl & _ & Hend).
    rewrite (last_docEnd _ _ Hl) in Hz. injection Hz as <-. lia.
  - right. rewrite Hk in Hl, He. simpl in He. exists k, e. rewrite Hl. simpl.
    split; [f_equal; lia|]. split; [done|]. split; [done|].
    destruct (locateEntry_found _ _ _ _ Hl eq_refl) as (k' & Hk' & _ & _ & _ & Hin).
    assert (k' = k) as -> by congruence.
    split.
    + destruct s as [|h s']; [done|]. exists (offset h). split; [done|].
      rewrite <- Ho. apply (sorted_lookup (h :: s') 0 k h e Hs eq_refl He). lia.
    + destruct (last s) as [l|] eqn:Hlast.
      2:{ apply last_None in Hlast. subst s. done. }
      exists (offset l + textLength l). split; [by apply last_docEnd|].
      rewrite last_lookup in Hlast. pose proof (textLength_nonneg l).
      destruct Hin as [Hin|Hin].
      * pose proof (strictly_sorted_lookup s k (pred (length s)) e l Hss He Hlast
                      ltac:(lia)). lia.
      * destruct (decide (k = pred (length s))) as [->|Hne].
        { rewrite He in Hlast. injection Hlast as <-. lia. }
        pose proof (lookup_lt_Some _ _ _ He).
        pose proof (strictly_sorted_lookup s k (pred (length s)) e l Hss He Hlast
                      ltac:(lia)). lia.
Qed.

Lemma selection_in_span s a end_ k e :
  strictly_sorted s → aligned s (Fin a) → aligned s end_ →
  inside s (Fin a) → offset_lt (Fin a) end_ →
  s !! k = Some e →
  (selection s (Fin a) end_).1 ≤ Z.of_nat k < (selection s (Fin a) end_).2
  ↔ in_span s (Fin a) end_ e.
Proof.
  intros Hss Ha Hb Hin Hlt He. pose proof (strictly_sorted_sorted _ Hss) as Hs.
  destruct (selection_start _ _ Hs Ha Hin) as (i & x & Hi & Hx & Hxo).
  pose proof (strictly_sorted_index_le s i k x e Hss Hx He) as Hle.
  pose proof (lookup_lt_Some _ _ _ He) as Hk.
  unfold selection, in_span. rewrite Hi. simpl.
  destruct end_ as [b|].
  2:{ rewrite locateEntry_Infinity. simpl. split; [intros; split; [lia|by left]|lia]. }
  simpl in Hlt.
  destruct (selection_end _ _ Hss Hb) as [[-> Hout]|(j & y & -> & Hy & Hyo & Hyin)].
  - simpl. split; [intros; split; [lia|by right]|lia].
  - pose proof (strictly_sorted_index_lt s k j e y Hss He Hy) as Hlt'.
    destruct (Z.eqb_spec (Z.of_nat j) 0) as [Hj|Hj].
    { assert (j = 0%nat) as -> by lia.
      pose proof (sorted_lookup s 0 i y x Hs Hy Hx ltac:(lia)). lia. }
    simpl. split.
    + intros [? ?]. split; [lia|left; lia].
    + intros [? [?|?]]; [lia|done].
Qed.


Lemma tag_selected_on (P : Entry → Prop) g start end_ classes s s0 :
  sorted s → ensureExactSpan start end_ s = (s0, Ok tt) →
  (∀ k e, s0 !! k = Some e →
     (selection s0 start end_).1 ≤ Z.of_nat k < (selection s0 start end_).2 ↔ P e) →
  ∃ s', bind (ensureExactSpan start end_) (λ _, tag_selected g start end_ classes) s
        = (s', Ok tt) ∧
    length s' = length s0 ∧
    ∀ k e, s0 !! k = Some e →
      (P e → s' !! k = Some (set_classes (apply_classes g classes (classList (node e))) e)) ∧
      (¬ P e → s' !! k = Some e).
Proof.
  intros Hs H0 Hsel.
  pose proof (ensureExactSpan_sorted _ _ _ _ _ Hs H0) as Hs0.
  destruct (ensureExactSpan_aligned _ _ _ _ Hs H0) as [Ha Hb].
  unfold bind. rewrite H0, tag_selected_aligned by done.
  eexists. split; [done|]. split; [apply retag_range_length|].
  intros k e He. rewrite retag_range_lookup, He. simpl.
  specialize (Hsel k e He).
  split; intros HP; case_decide; tauto.
Qed.

Lemma tag_selected_in_span g start end_ classes s :
  strictly_sorted s → inside s start → offset_lt start end_ →
  ∃ s', bind (ensureExactSpan start end_) (λ _, tag_selected g start end_ classes) s
        = (s', Ok tt) ∧
    length s' = length (ensureExactSpan start end_ s).1 ∧
    ∀ k e, (ensureExactSpan start end_ s).1 !! k = Some e →
      (in_span s start end_ e →
         s' !! k = Some (set_classes (apply_classes g classes (classList (node e))) e)) ∧
      (¬ in_span s start end_ e → s' !! k = Some e).
Proof.
  intros Hss Hin Hlt. pose proof (strictly_sorted_sorted _ Hss) as Hs.
  destruct start as [a|]; [|done].
  destruct (ensureExactSpan (Fin a) end_ s) as [s0 r0] eqn:H0.
  assert (r0 = Ok tt) as ->.
  { apply (ensureExactSpan_returns _ _ _ _ _ Hs H0).
    destruct Hin as [(z & Hz & Hza) _]. split; [by exists z|].
    destruct end_ as [b|]; [|done]. exists z. simpl in Hlt. split; [done|lia]. }
  pose proof (ensureExactSpan_strictly_sorted _ _ _ _ _ Hss H0) as Hss0.
  destruct (ensureExactSpan_aligned _ _ _ _ Hs H0) as [Ha Hb].
  pose proof (ensureExactSpan_docStart _ _ _ _ _ Hs H0) as Hds.
  pose proof (ensureExactSpan_docEnd _ _ _ _ _ Hs H0) as Hde.
  simpl.
  apply (tag_selected_on (in_span s (Fin a) end_) g (Fin a) end_ classes s s0 Hs H0).
  intros k e He.
  rewrite (selection_in_span s0 a end_ k e Hss0 Ha Hb) by
    (done || by apply (inside_same s s0 (Fin a) Hds Hde)).
  unfold in_span. by rewrite (inside_same s s0 end_ Hds Hde).
Qed.

(** ** Calls one after the other *)

Lemma retag_range_ext G G' i j s :
  (∀ cl, G cl = G' cl) → retag_range G i j s = retag_range G' i j s.
Proof.
  intros HG. apply list_eq. intros k. rewrite !retag_range_lookup.
  destruct (s !! k); simpl; [|done]. case_decide; [|done]. by rewrite HG.
Qed.

Lemma retag_range_twice G1 G2 i j s :
  retag_range G2 i j (retag_range G1 i j s) = retag_range (G2 ∘ G1) i j s.
Proof.
  apply list_eq. intros k. rewrite !retag_range_lookup.
  destruct (s !! k); simpl; [|done]. by case_decide.
Qed.

Lemma tag_selected_outcome g start end_ classes s s' r :
  sorted s →
  bind (ensureExactSpan start end_) (λ _, tag_selected g start end_ classes) s = (s', r) →
  match r with
  | TypeError => ensureExactSpan start end_ s = (s', TypeError)
  | Ok _ =>
      ∃ s0, ensureExactSpan start end_ s = (s0, Ok tt) ∧
        s' = retag_range (apply_classes g classes)
               (selection s0 start end_).1 (selection s0 start end_).2 s0
  end.
Proof.
  intros Hs. unfold bind.
  destruct (ensureExactSpan start end_ s) as [s0 [[]|]] eqn:H0.
  2:{ by intros [= <- <-]. }
  pose proof (ensureExactSpan_sorted _ _ _ _ _ Hs H0) as Hs0.
  destruct (ensureExactSpan_aligned _ _ _ _ Hs H0) as [Ha Hb].
  rewrite tag_selected_aligned by done. intros [= <- <-]. by exists s0.
Qed.

Lemma tag_selected_then g1 g2 start end_ T1 T2 s s1 r :
  sorted s →
  bind (ensureExactSpan start end_) (λ _, tag_selected g1 start end_ T1) s = (s1, r) →
  bind (ensureExactSpan start end_) (λ _, tag_selected g2 start end_ T2) s1
  = match r with
    | TypeError => (s1, TypeError)
    | Ok _ =>
        let s0 := (ensureExactSpan start end_ s).1 in
        (retag_range (apply_classes g2 T2 ∘ apply_classes g1 T1)
           (selection s0 start end_).1 (selection s0 start end_).2 s0, Ok tt)
    end.
Proof.
  intros Hs H. pose proof (tag_selected_outcome _ _ _ _ _ _ _ Hs H) as Hout.
  destruct r as [[]|].
  - destruct Hout as (s0 & H0 & ->). rewrite H0. cbv zeta. cbn [fst].
    pose proof (ensureExactSpan_sorted _ _ _ _ _ Hs H0) as Hs0.
    destruct (ensureExactSpan_aligned _ _ _ _ Hs H0) as [Ha Hb].
    set (s1 := retag_range _ _ _ s0).
    assert (shape s1 = shape s0) as Hsh by apply retag_range_shape.
    assert (sorted s1) as Hs1 by (by apply (shape_sorted s0)).
    assert (aligned s1 start) as Ha1 by (by apply (shape_aligned s0)).
    assert (aligned s1 end_) as Hb1 by (by apply (shape_aligned s0)).
    unfold bind. rewrite (ensureExactSpan_aligned_noop _ _ _ Hs1 Ha1 Hb1).
    rewrite tag_selected_aligned by done.
    rewrite (shape_selection s1 s0) by done.
    unfold s1. by rewrite retag_range_twice.
  - unfold bind. by rewrite (ensureExactSpan_again _ _ _ _ _ Hs Hout).
Qed.

Lemma tag_selected_again g start end_ classes s s1 r :
  (∀ cl, apply_classes g classes (apply_classes g classes cl) = apply_classes g classes cl) →
  sorted s →
  bind (ensureExactSpan start end_) (λ _, tag_selected g start end_ classes) s = (s1, r) →
  bind (ensureExactSpan start end_) (λ _, tag_selected g start end_ classes) s1 = (s1, r).
Proof.
  intros Hg Hs H. rewrite (tag_selected_then g g _ _ _ _ s s1 r Hs H).
  pose proof (tag_selected_outcome _ _ _ _ _ _ _ Hs H) as Hout.
  destruct r as [[]|]; [|done].
  destruct Hout as (s0 & H0 & ->). rewrite H0. cbv zeta. cbn [fst].
  f_equal. by apply retag_range_ext.
Qed.

(** X12: on a store ordered by offset, a second [decorateSpan] with the
    same arguments changes nothing and ends as the first one did, whether
    that returned or threw; the same holds for [clearSpan]. *)
Theorem decorateSpan_clearSpan_idempotent
    (s : Store) (start end_ : Offset) (classes : list string) :
  sorted s →
  (∀ s1 r, decorateSpan start end_ classes s = (s1, r) →
           decorateSpan start end_ classes s1 = (s1, r)) ∧
  (∀ s1 r, clearSpan start end_ classes s = (s1, r) →
           clearSpan start end_ classes s1 = (s1, r)).
Proof.
  intros Hs. split; intros s1 r.
  - rewrite !decorateSpan_tag_selected. apply tag_selected_again; [|done].
    intros cl. by rewrite !apply_add_class, <- (assoc_L (∪)), (idemp_L (∪)).
  - rewrite !clearSpan_tag_selected. apply tag_selected_again; [|done].
    intros cl. by rewrite !apply_remove_class, difference_difference_l_L, (idemp_L (∪)).
Qed.

Lemma decorateSpan_clearSpan_idempotent_witness :
  (∀ s1 r, decorateSpan (Fin 1) (Fin 4) ["hl"%string] doc_lines = (s1, r) →
           decorateSpan (Fin 1) (Fin 4) ["hl"%string] s1 = (s1, r)) ∧
  (∀ s1 r, clearSpan (Fin 1) (Fin 4) ["hl"%string] doc_lines = (s1, r) →
           clearSpan (Fin 1) (Fin 4) ["hl"%string] s1 = (s1, r)).
Proof.
  apply (decorateSpan_clearSpan_idempotent doc_lines (Fin 1) (Fin 4) ["hl"%string]).
  solve_sorted.
Defined.

(** ** When a call throws, and how many segments it makes *)



(** ** The first revision of [locateEntry] *)

Lemma locate_loop_000_Infinity es i c : locate_loop_000 es i c Infinity = None.
Proof. revert i c. induction es as [|e es IH]; intros i c; simpl; [done|apply IH]. Qed.

Lemma locate_loop_000_Fin es i c o :
  locate_loop_000 es i c (Fin o)
  = match locate_loop es i c o with
    | Ok (Some le) =>
        if index le <? i + Z.of_nat (length es) - 1 then Some le else None
    | _ => None
    end.
Proof.
  revert i c. induction es as [|e es IH]; intros i c.
  - simpl. destruct c as [c|]; [|done].
    destruct (o <? offset c + textLength c); [|done]. simpl.
    by rewrite (proj2 (Z.ltb_ge _ _)) by lia.
  - cbn [locate_loop_000 locate_loop exceeds length].
    destruct (offset e >? o).
    + simpl. by rewrite (proj2 (Z.ltb_lt _ _)) by lia.
    + rewrite IH. by replace (i + 1 + Z.of_nat (length es) - 1)
        with (i + Z.of_nat (S (length es)) - 1) by lia.
Qed.

(** X15: the first revision of [locateEntry] (no early return for
    [Infinity], [undefined] after the loop) finds what the present one
    finds, but for the last segment: where the present one answers with
    the last index, and where it throws on an empty array, the first
    revision answers [undefined]. *)
Theorem locateEntry_000_spec (s : Store) (o : Offset) :
  locateEntry_000 s o
  = match locateEntry s o with
    | Ok (Some le) => if index le <? Z.of_nat (length s) - 1 then Some le else None
    | _ => None
    end.
Proof.
  unfold locateEntry_000, locateEntry. destruct o as [o|].
  - by rewrite locate_loop_000_Fin.
  - apply locate_loop_000_Infinity.
Qed.

(** ** The class names the DOM does not take *)

Lemma liftD_bind {A B} (m : M A) (k : A → M B) s :
  liftD (bind m k) s = bindD (liftD m) (λ a, liftD (k a)) s.
Proof. unfold liftD, bindD, bind. by destruct (m s) as [s' [a|]]. Qed.

Lemma bindD_ext {A B} (m : D A) (k k' : A → D B) s :
  (∀ a s', k a s' = k' a s') → bindD m k s = bindD m k' s.
Proof. intros H. unfold bindD. by destruct (m s) as [s' [a| |]]. Qed.

Lemma forD_lift {A} (l : list A) (f : A → D unit) (f' : A → M unit) s :
  (∀ x s', f x s' = liftD (f' x) s') →
  forD_ l f s = liftD (forM_ l f') s.
Proof.
  intros H. revert s. induction l as [|x l IH]; intros s; simpl; [done|].
  rewrite liftD_bind. unfold bindD. rewrite H.
  destruct (liftD (f' x) s) as [s' [[]| |]]; [apply IH|done..].
Qed.

Lemma classList_checked_valid g c i s :
  valid_token c = true →
  classList_checked g c i s = liftD (classList_update (g c) i) s.
Proof.
  intros Hc. unfold classList_checked, classList_update, liftD.
  destruct (lookupZ s i); [|done]. by rewrite Hc.
Qed.

Lemma forD_classes_valid g classes i s :
  Forall valid_token classes →
  forD_ classes (λ c, classList_checked g c i) s
  = liftD (forM_ classes (λ c, classList_update (g c) i)) s.
Proof.
  intros Hv. revert s. induction Hv as [|c cs Hc _ IH]; intros s; simpl; [done|].
  rewrite liftD_bind. unfold bindD.
  rewrite classList_checked_valid by (by apply Is_true_true).
  destruct (liftD (classList_update (g c) i) s) as [s' [[]| |]]; [apply IH|done..].
Qed.

Lemma decorateSpan_dom_valid start end_ classes s :
  Forall valid_token classes →
  decorateSpan_dom start end_ classes s = liftD (decorateSpan start end_ classes) s.
Proof.
  intros Hv. unfold decorateSpan_dom, decorateSpan. rewrite liftD_bind.
  apply bindD_ext. intros sel s'. apply forD_lift. intros i s''.
  by apply forD_classes_valid.
Qed.

Lemma clearSpan_dom_valid start end_ classes s :
  Forall valid_token classes →
  clearSpan_dom start end_ classes s = liftD (clearSpan start end_ classes) s.
Proof.
  intros Hv. unfold clearSpan_dom, clearSpan.
  rewrite liftD_bind. apply bindD_ext. intros _ s1.
  rewrite liftD_bind. apply bindD_ext. intros startEntry s2.
  rewrite liftD_bind. apply bindD_ext. intros endEntry s3.
  destruct startEntry as [se|]; [|done].
  rewrite liftD_bind. apply bindD_ext. intros len s4. cbv zeta.
  apply forD_lift. intros i s5. by apply forD_classes_valid.
Qed.

Lemma accepted_app_invalid T1 T2 :
  forallb valid_token T1 = false → accepted (T1 ++ T2) = accepted T1.
Proof.
  induction T1 as [|c cs IH]; simpl; [done|].
  destruct (valid_token c); simpl; [|done]. intros H. by rewrite IH.
Qed.

Lemma forallb_valid classes :
  forallb valid_token classes = true ↔ Forall valid_token classes.
Proof. by rewrite <- Is_true_true, forallb_True. Qed.

Lemma forD_classes g classes i e s :
  0 ≤ i → s !! Z.to_nat i = Some e →
  forD_ classes (λ c, classList_checked g c i) s
  = (<[Z.to_nat i :=
         set_classes (apply_classes g (accepted classes) (classList (node e))) e]> s,
     if forallb valid_token classes then Returned tt else Thrown_DOMException).
Proof.
  intros Hi. revert s e. induction classes as [|c classes IH]; intros s e He; simpl.
  - by rewrite set_classes_id, list_insert_id.
  - unfold bindD, classList_checked at 1, lookupZ.
    destruct (i <? 0) eqn:E; [lia|]. rewrite He.
    destruct (valid_token c); simpl.
    + pose proof (lookup_lt_Some _ _ _ He).
      erewrite IH; [|by rewrite list_lookup_insert_eq].
      by rewrite list_insert_insert_eq.
    + by rewrite set_classes_id, list_insert_id.
Qed.

Lemma retag_range_one G i s e :
  0 ≤ i → s !! Z.to_nat i = Some e →
  <[Z.to_nat i := set_classes (G (classList (node e))) e]> s
  = retag_range G i (i + 1) s.
Proof.
  intros Hi He. pose proof (lookup_lt_Some _ _ _ He).
  apply list_eq. intros k. rewrite retag_range_lookup.
  destruct (decide (k = Z.to_nat i)) as [->|Hne].
  - rewrite list_lookup_insert_eq by done. rewrite He. simpl.
    by rewrite decide_True by lia.
  - rewrite list_lookup_insert_ne by done.
    destruct (s !! k); simpl; [|done]. by rewrite decide_False by lia.
Qed.

Lemma forD_range g classes i j s :
  0 ≤ i → j ≤ Z.of_nat (length s) →
  forD_ (seqZ i (j - i)) (λ i, forD_ classes (λ c, classList_checked g c i)) s
  = tag_range_dom g classes i j s.
Proof.
  intros Hi Hj. unfold tag_range_dom.
  destruct (forallb valid_token classes) eqn:Hv.
  - rewrite (forD_lift _ _ (λ i, forM_ classes (λ c, classList_update (g c) i))).
    + unfold liftD. by rewrite forM_range.
    + intros x s'. by apply forD_classes_valid, forallb_valid.
  - destruct (decide (i < j)) as [Hij|Hij].
    + rewrite seqZ_cons by lia. simpl. unfold bindD.
      destruct (lookup_lt_is_Some_2 s (Z.to_nat i) ltac:(lia)) as [e He].
      rewrite (forD_classes g classes i e s Hi He), Hv.
      by rewrite (retag_range_one _ i s e).
    + by rewrite seqZ_nil by lia.
Qed.

Lemma tag_selected_dom_aligned g start end_ classes s :
  sorted s → aligned s start → aligned s end_ →
  tag_selected_dom g start end_ classes s
  = tag_range_dom g classes (selection s start end_).1 (selection s start end_).2 s.
Proof.
  intros Hs Ha Hb.
  destruct (locateEntry_aligned_index _ _ Hs Ha) as (x & Hx & Hxi).
  destruct (locateEntry_aligned_index _ _ Hs Hb) as (y & Hy & Hyi).
  unfold tag_selected_dom, selection, bindD, liftD, read. rewrite Hx, Hy.
  destruct x as [se|]; simpl.
  2:{ unfold tag_range_dom. rewrite retag_range_empty by done.
      rewrite decide_False by lia. by destruct (forallb _ _). }
  specialize (Hxi se eq_refl).
  destruct y as [ee|]; simpl.
  - specialize (Hyi ee eq_refl). apply forD_range; [lia|].
    destruct (index ee =? 0); lia.
  - apply forD_range; lia.
Qed.

Lemma decorateSpan_dom_tag_selected start end_ classes s :
  decorateSpan_dom start end_ classes s
  = bindD (liftD (ensureExactSpan start end_))
      (λ _, tag_selected_dom add_class start end_ classes) s.
Proof.
  unfold decorateSpan_dom, spanSelection, tag_selected_dom, bindD, liftD, bind, read.
  destruct (ensureExactSpan start end_ s) as [s2 [[]|]]; [|done].
  destruct (locateEntry s2 start) as [[se|]|]; try done;
    by destruct (locateEntry s2 end_) as [ee|].
Qed.

Lemma clearSpan_dom_tag_selected start end_ classes s :
  clearSpan_dom start end_ classes s
  = bindD (liftD (ensureExactSpan start end_))
      (λ _, tag_selected_dom remove_class start end_ classes) s.
Proof. done. Qed.

Lemma tag_selected_dom_cases g start end_ classes s :
  sorted s →
  bindD (liftD (ensureExactSpan start end_))
    (λ _, tag_selected_dom g start end_ classes) s
  = match ensureExactSpan start end_ s with
    | (s0, TypeError) => (s0, Thrown_TypeError)
    | (s0, Ok _) =>
        tag_range_dom g classes
          (selection s0 start end_).1 (selection s0 start end_).2 s0
    end.
Proof.
  intros Hs. unfold bindD, liftD.
  destruct (ensureExactSpan start end_ s) as [s0 [[]|]] eqn:H0; [|done].
  pose proof (ensureExactSpan_sorted _ _ _ _ _ Hs H0) as Hs0.
  destruct (ensureExactSpan_aligned _ _ _ _ Hs H0) as [Ha Hb].
  by apply tag_selected_dom_aligned.
Qed.

(** ** The segments a call tags, for all class names *)

Lemma liftD_Ok {A} (m : M A) s s' a : m s = (s', Ok a) → liftD m s = (s', Returned a).
Proof. unfold liftD. by intros ->. Qed.

(** X10: on a store with strictly increasing offsets, for a [start] inside
    the document, an [end_] behind it and class names the DOM takes,
    [decorateSpan] and [clearSpan] return, and in the store
    [ensureExactSpan] leaves they add the classes to, or remove them from,
    exactly the segments that start at or after [start] and before [end_]
    (all the segments from [start] on when [end_] is [Infinity] or at or
    behind the end of the document); every other segment, and everything
    but the class list, is as [ensureExactSpan] left it. *)
Theorem decorateSpan_clearSpan_in_span
    (s : Store) (start end_ : Offset) (classes : list string) :
  strictly_sorted s → inside s start → offset_lt start end_ →
  Forall valid_token classes →
  ∃ sd sc,
    decorateSpan_dom start end_ classes s = (sd, Returned tt) ∧
    clearSpan_dom start end_ classes s = (sc, Returned tt) ∧
    length sd = length (ensureExactSpan start end_ s).1 ∧
    length sc = length (ensureExactSpan start end_ s).1 ∧
    ∀ k e, (ensureExactSpan start end_ s).1 !! k = Some e →
      (in_span s start end_ e →
         sd !! k = Some (set_classes (classList (node e) ∪ list_to_set classes) e) ∧
         sc !! k = Some (set_classes (classList (node e) ∖ list_to_set classes) e)) ∧
      (¬ in_span s start end_ e → sd !! k = Some e ∧ sc !! k = Some e).
Proof.
  intros Hss Hin Hlt Hv.
  destruct (tag_selected_in_span add_class start end_ classes s Hss Hin Hlt)
    as (sd & Hd & Hld & Hsd).
  destruct (tag_selected_in_span remove_class start end_ classes s Hss Hin Hlt)
    as (sc & Hc & Hlc & Hsc).
  exists sd, sc. rewrite decorateSpan_dom_valid, clearSpan_dom_valid by done.
  split; [apply liftD_Ok; by rewrite decorateSpan_tag_selected|].
  split; [apply liftD_Ok; by rewrite clearSpan_tag_selected|].
  do 2 (split; [done|]). intros k e He.
  destruct (Hsd k e He) as [Hd1 Hd2]. destruct (Hsc k e He) as [Hc1 Hc2].
  split; intros HP.
  - rewrite <- apply_add_class, <- apply_remove_class. auto.
  - auto.
Qed.

Lemma decorateSpan_clearSpan_in_span_witness :
  ∃ sd sc,
    decorateSpan_dom (Fin 1) (Fin 4) ["hl"%string] doc_lines = (sd, Returned tt) ∧
    clearSpan_dom (Fin 1) (Fin 4) ["hl"%string] doc_lines = (sc, Returned tt) ∧
    length sd = length (ensureExactSpan (Fin 1) (Fin 4) doc_lines).1 ∧
    length sc = length (ensureExactSpan (Fin 1) (Fin 4) doc_lines).1 ∧
    ∀ k e, (ensureExactSpan (Fin 1) (Fin 4) doc_lines).1 !! k = Some e →
      (in_span doc_lines (Fin 1) (Fin 4) e →
         sd !! k = Some (set_classes (classList (node e) ∪ list_to_set ["hl"%string]) e) ∧
         sc !! k = Some (set_classes (classList (node e) ∖ list_to_set ["hl"%string]) e)) ∧
      (¬ in_span doc_lines (Fin 1) (Fin 4) e → sd !! k = Some e ∧ sc !! k = Some e).
Proof.
  apply (decorateSpan_clearSpan_in_span doc_lines (Fin 1) (Fin 4) ["hl"%string]).
  - solve_sorted.
  - split; [exists 0|exists 5]; split; (reflexivity || lia).
  - simpl. lia.
  - repeat constructor.
Defined.



(** ** A name the DOM does not take *)

Lemma not_valid classes :
  ¬ Forall valid_token classes → forallb valid_token classes = false.
Proof.
  intros H. destruct (forallb valid_token classes) eqn:E; [|done].
  by apply forallb_valid in E.
Qed.

Lemma tag_selected_dom_invalid g start end_ classes s :
  strictly_sorted s → inside s start → offset_lt start end_ →
  ¬ Forall valid_token classes →
  ∃ s', bindD (liftD (ensureExactSpan start end_))
          (λ _, tag_selected_dom g start end_ classes) s
        = (s', Thrown_DOMException) ∧
    ∀ k e, (ensureExactSpan start end_ s).1 !! k = Some e →
      (Fin (offset e) = start →
         s' !! k = Some (set_classes
                           (apply_classes g (accepted classes) (classList (node e))) e)) ∧
      (Fin (offset e) ≠ start → s' !! k = Some e).
Proof.
  intros Hss Hin Hlt Hv. pose proof (strictly_sorted_sorted _ Hss) as Hs.
  destruct start as [a|]; [|done].
  rewrite tag_selected_dom_cases by done.
  destruct (ensureExactSpan (Fin a) end_ s) as [s0 r0] eqn:H0.
  assert (r0 = Ok tt) as ->.
  { apply (ensureExactSpan_returns _ _ _ _ _ Hs H0).
    destruct Hin as [(z & Hz & Hza) _]. split; [by exists z|].
    destruct end_ as [b|]; [|done]. exists z. simpl in Hlt. split; [done|lia]. }
  pose proof (ensureExactSpan_strictly_sorted _ _ _ _ _ Hss H0) as Hss0.
  pose proof (strictly_sorted_sorted _ Hss0) as Hs0.
  destruct (ensureExactSpan_aligned _ _ _ _ Hs H0) as [Ha Hb].
  pose proof (ensureExactSpan_docStart _ _ _ _ _ Hs H0) as Hds.
  pose proof (ensureExactSpan_docEnd _ _ _ _ _ Hs H0) as Hde.
  assert (inside s0 (Fin a)) as Hin0 by (by apply (inside_same s s0 (Fin a) Hds Hde)).
  destruct (selection_start _ _ Hs0 Ha Hin0) as (i & x & Hi & Hx & Hxo).
  assert ((selection s0 (Fin a) end_).1 = Z.of_nat i) as Hsel1.
  { unfold selection. by rewrite Hi. }
  pose proof (proj2 (selection_in_span s0 a end_ i x Hss0 Ha Hb Hin0 Hlt Hx)) as Hsel.
  rewrite Hsel1 in Hsel.
  assert (Z.of_nat i < (selection s0 (Fin a) end_).2) as Hlt2.
  { apply Hsel. split; [simpl; lia|]. left. by rewrite Hxo. }
  unfold tag_range_dom. rewrite (not_valid _ Hv), Hsel1, decide_True by done.
  eexists. split; [done|]. simpl. intros k e He.
  rewrite retag_range_lookup, He. simpl.
  pose proof (strictly_sorted_index_le s0 i k x e Hss0 Hx He) as Hle.
  pose proof (strictly_sorted_index_le s0 k i e x Hss0 He Hx) as Hge.
  split.
  - intros [= Heq]. rewrite decide_True; [done|]. lia.
  - intros Hne. rewrite decide_False; [done|]. intros [H1 H2].
    assert (k = i) as -> by lia. rewrite Hx in He. injection He as <-.
    apply Hne. by rewrite Hxo.
Qed.

(** X16: with a class name the DOM does not take (the empty string, or one
    with white space), on a store with strictly increasing offsets and for
    a [start] inside the document and an [end_] behind it, [decorateSpan]
    and [clearSpan] throw a [DOMException]; by then the store is the one
    [ensureExactSpan] leaves, with the names before the first one not taken
    added to, or removed from, the segment that starts at [start] and no
    other. *)
Theorem decorateSpan_clearSpan_invalid_name
    (s : Store) (start end_ : Offset) (classes : list string) :
  strictly_sorted s → inside s start → offset_lt start end_ →
  ¬ Forall valid_token classes →
  ∃ sd sc,
    decorateSpan_dom start end_ classes s = (sd, Thrown_DOMException) ∧
    clearSpan_dom start end_ classes s = (sc, Thrown_DOMException) ∧
    ∀ k e, (ensureExactSpan start end_ s).1 !! k = Some e →
      (Fin (offset e) = start →
         sd !! k = Some (set_classes
                           (classList (node e) ∪ list_to_set (accepted classes)) e) ∧
         sc !! k = Some (set_classes
                           (classList (node e) ∖ list_to_set (accepted classes)) e)) ∧
      (Fin (offset e) ≠ start → sd !! k = Some e ∧ sc !! k = Some e).
Proof.
  intros Hss Hin Hlt Hv.
  destruct (tag_selected_dom_invalid add_class start end_ classes s Hss Hin Hlt Hv)
    as (sd & Hd & Hsd).
  destruct (tag_selected_dom_invalid remove_class start end_ classes s Hss Hin Hlt Hv)
    as (sc & Hc & Hsc).
  exists sd, sc.
  rewrite decorateSpan_dom_tag_selected, clearSpan_dom_tag_selected.
  do 2 (split; [done|]). intros k e He.
  destruct (Hsd k e He) as [Hd1 Hd2]. destruct (Hsc k e He) as [Hc1 Hc2].
  split; intros HP.
  - rewrite <- apply_add_class, <- apply_remove_class. auto.
  - auto.
Qed.

Lemma decorateSpan_clearSpan_invalid_name_witness :
  ∃ sd sc,
    decorateSpan_dom (Fin 0) (Fin 1) ["hl"; ""; "em"]%string doc_lines
    = (sd, Thrown_DOMException) ∧
    clearSpan_dom (Fin 0) (Fin 1) ["hl"; ""; "em"]%string doc_lines
    = (sc, Thrown_DOMException) ∧
    ∀ k e, (ensureExactSpan (Fin 0) (Fin 1) doc_lines).1 !! k = Some e →
      (Fin (offset e) = Fin 0 →
         sd !! k = Some (set_classes
                           (classList (node e)
                            ∪ list_to_set (accepted ["hl"; ""; "em"]%string)) e) ∧
         sc !! k = Some (set_classes
                           (classList (node e)
                            ∖ list_to_set (accepted ["hl"; ""; "em"]%string)) e)) ∧
      (Fin (offset e) ≠ Fin 0 → sd !! k = Some e ∧ sc !! k = Some e).
Proof.
  apply (decorateSpan_clearSpan_invalid_name doc_lines (Fin 0) (Fin 1)
           ["hl"; ""; "em"]%string).
  - solve_sorted.
  - split; [exists 0|exists 5]; split; (reflexivity || lia).
  - simpl. lia.
  - intros H. inversion H as [|? ? _ H2]. inversion H2 as [|? ? H3 _]. exact H3.
Defined.

(** ** Calls one after the other, for all class names *)

Lemma bindD_eq {A B} (m : D A) (k : A → D B) s :
  bindD m k s = match m s with
                | (s', Returned a) => k a s'
                | (s', Thrown_TypeError) => (s', Thrown_TypeError)
                | (s', Thrown_DOMException) => (s', Thrown_DOMException)
                end.
Proof. reflexivity. Qed.

Lemma tag_selected_dom_app g start end_ T1 T2 s :
  sorted s → Forall valid_token T2 →
  bindD (liftD (ensureExactSpan start end_))
    (λ _, tag_selected_dom g start end_ (T1 ++ T2)) s
  = bindD (bindD (liftD (ensureExactSpan start end_))
             (λ _, tag_selected_dom g start end_ T1))
      (λ _, bindD (liftD (ensureExactSpan start end_))
              (λ _, tag_selected_dom g start end_ T2)) s.
Proof.
  intros Hs Hv2. apply forallb_valid in Hv2.
  rewrite (bindD_eq (bindD _ _)), !tag_selected_dom_cases by done.
  destruct (ensureExactSpan start end_ s) as [s0 [[]|]] eqn:H0; [|done].
  pose proof (ensureExactSpan_sorted _ _ _ _ _ Hs H0) as Hs0.
  destruct (ensureExactSpan_aligned _ _ _ _ Hs H0) as [Ha Hb].
  set (i := (selection s0 start end_).1). set (j := (selection s0 start end_).2).
  unfold tag_range_dom. rewrite forallb_app, Hv2.
  destruct (forallb valid_token T1) eqn:Hv1; simpl.
  - set (s1 := retag_range (apply_classes g T1) i j s0).
    assert (shape s1 = shape s0) as Hsh by apply retag_range_shape.
    assert (sorted s1) as Hs1 by (by apply (shape_sorted s0)).
    assert (aligned s1 start) as Ha1 by (by apply (shape_aligned s0)).
    assert (aligned s1 end_) as Hb1 by (by apply (shape_aligned s0)).
    rewrite tag_selected_dom_cases by done.
    rewrite (ensureExactSpan_aligned_noop _ _ _ Hs1 Ha1 Hb1).
    rewrite (shape_selection s1 s0) by done. fold i j.
    unfold tag_range_dom. rewrite Hv2. unfold s1. rewrite retag_range_twice.
    f_equal. apply retag_range_ext. intros cl. unfold apply_classes. simpl.
    by rewrite foldl_app.
  - rewrite (accepted_app_invalid _ _ Hv1).
    destruct (decide (i < j)) as [Hij|Hij]; [done|].
    rewrite tag_selected_dom_cases by done.
    rewrite (ensureExactSpan_again _ _ _ _ _ Hs H0). fold i j.
    unfold tag_range_dom. rewrite Hv2. by rewrite retag_range_empty by lia.
Qed.

(** X13: on a store ordered by offset, one [decorateSpan] with the classes
    [T1 ++ T2] is a [decorateSpan] with [T1] followed, if that returned, by
    one with [T2] on the same range, same store and same outcome, as long
    as the DOM takes the names of [T2]; likewise for [clearSpan].  (With a
    name in [T2] that it does not take the two differ: the one call throws
    in the first segment, before any other segment has the names of
    [T1].) *)
Theorem decorateSpan_clearSpan_app
    (s : Store) (start end_ : Offset) (T1 T2 : list string) :
  sorted s → Forall valid_token T2 →
  decorateSpan_dom start end_ (T1 ++ T2) s
  = bindD (decorateSpan_dom start end_ T1) (λ _, decorateSpan_dom start end_ T2) s ∧
  clearSpan_dom start end_ (T1 ++ T2) s
  = bindD (clearSpan_dom start end_ T1) (λ _, clearSpan_dom start end_ T2) s.
Proof.
  intros Hs Hv. split.
  - rewrite decorateSpan_dom_tag_selected, (tag_selected_dom_app _ _ _ _ _ _ Hs Hv).
    rewrite (bindD_eq (bindD _ _)), (bindD_eq (decorateSpan_dom _ _ _)).
    rewrite <- decorateSpan_dom_tag_selected.
    destruct (decorateSpan_dom start end_ T1 s) as [s1 [[]| |]]; [|done..].
    by rewrite decorateSpan_dom_tag_selected.
  - rewrite clearSpan_dom_tag_selected, (tag_selected_dom_app _ _ _ _ _ _ Hs Hv).
    rewrite (bindD_eq (bindD _ _)), (bindD_eq (clearSpan_dom _ _ _)).
    rewrite <- clearSpan_dom_tag_selected.
    destruct (clearSpan_dom start end_ T1 s) as [s1 [[]| |]]; [|done..].
    by rewrite clearSpan_dom_tag_selected.
Qed.

Lemma decorateSpan_clearSpan_app_witness :
  decorateSpan_dom (Fin 1) (Fin 4) (["hl"%string] ++ ["em"%string]) doc_lines
  = bindD (decorateSpan_dom (Fin 1) (Fin 4) ["hl"%string])
      (λ _, decorateSpan_dom (Fin 1) (Fin 4) ["em"%string]) doc_lines ∧
  clearSpan_dom (Fin 1) (Fin 4) (["hl"%string] ++ ["em"%string]) doc_lines
  = bindD (clearSpan_dom (Fin 1) (Fin 4) ["hl"%string])
      (λ _, clearSpan_dom (Fin 1) (Fin 4) ["em"%string]) doc_lines.
Proof.
  apply (decorateSpan_clearSpan_app doc_lines (Fin 1) (Fin 4) ["hl"%string] ["em"%string]).
  - solve_sorted.
  - repeat constructor.
Defined.

(** The single call and the two calls differ when [T2] has a name the DOM
    does not take and two segments are in the range. *)
Example decorateSpan_app_invalid :
  decorateSpan_dom (Fin 0) Infinity (["a"%string] ++ [""%string]) doc_lines
  = ([seg 0 1 1 "ab" {["a"%string]}; seg 3 2 1 "cd" ∅], Thrown_DOMException) ∧
  bindD (decorateSpan_dom (Fin 0) Infinity ["a"%string])
    (λ _, decorateSpan_dom (Fin 0) Infinity [""%string]) doc_lines
  = ([seg 0 1 1 "ab" {["a"%string]}; seg 3 2 1 "cd" {["a"%string]}],
     Thrown_DOMException).
Proof. split; vm_compute; reflexivity. Qed.

(** ** When a call throws, for all class names *)




(** The call of the witness: it throws after the split. *)
Example decorateSpan_empty_name :
  decorateSpan_dom (Fin 0) (Fin 1) [""%string] doc_lines
  = ([seg 0 1 1 "a" ∅; seg 1 1 2 "b" ∅; seg 3 2 1 "cd" ∅], Thrown_DOMException).
Proof. vm_compute. reflexivity. Qed.

(** ** What no class name changes *)

Lemma tag_selected_dom_store g start end_ classes s s' r :
  sorted s →
  bindD (liftD (ensureExactSpan start end_))
    (λ _, tag_selected_dom g start end_ classes) s = (s', r) →
  ∃ s0 r0 G i j,
    ensureExactSpan start end_ s = (s0, r0) ∧ s' = retag_range G i j s0.
Proof.
  intros Hs. rewrite tag_selected_dom_cases by done.
  destruct (ensureExactSpan start end_ s) as [s0 r0] eqn:H0.
  destruct r0 as [[]|].
  - unfold tag_range_dom. destruct (forallb valid_token classes).
    + intros [= <- <-]. by eexists s0, _, _, _, _.
    + case_decide; intros [= <- <-]; [by eexists s0, _, _, _, _|].
      exists s0, (Ok tt), (λ cl, cl), 0, 0. by rewrite retag_range_empty.
  - intros [= <- <-]. exists s0, TypeError, (λ cl, cl), 0, 0.
    by rewrite retag_range_empty.
Qed.

Lemma tag_selected_dom_keeps g start end_ classes s s' r :
  sorted s →
  bindD (liftD (ensureExactSpan start end_))
    (λ _, tag_selected_dom g start end_ classes) s = (s', r) →
  sorted s' ∧ (separated s → separated s') ∧
  (∀ o, offsetToLineColumn s' o = offsetToLineColumn s o) ∧
  document_text s' = document_text s.
Proof.
  intros Hs H.
  destruct (tag_selected_dom_store _ _ _ _ _ _ _ Hs H) as (s0 & r0 & G & i & j & H0 & ->).
  pose proof (ensureExactSpan_sorted _ _ _ _ _ Hs H0) as Hs0.
  split_and!.
  - apply (shape_sorted s0); [|done]. symmetry. apply retag_range_shape.
  - intros Hsep. apply (shape_separated s0); [symmetry; apply retag_range_shape|].
    by apply (ensureExactSpan_separated _ _ _ _ _ Hsep H0).
  - intros o. rewrite (geometry_offsetToLineColumn _ s0) by apply retag_range_geometry.
    by apply (ensureExactSpan_places start end_ s s0 r0).
  - rewrite retag_range_document_text. by eapply ensureExactSpan_document_text.
Qed.

(** X17: whatever the class names, and whether the call returns, throws a
    [TypeError] or throws a [DOMException], [decorateSpan] and [clearSpan]
    keep a store that is ordered by offset in that order, keep segments that
    do not reach into later ones that way, and change neither the answer of
    [offsetToLineColumn] at any offset nor the text of the document. *)
Theorem decorateSpan_clearSpan_any_name
    (s : Store) (start end_ : Offset) (classes : list string) :
  sorted s →
  (∀ s' r, decorateSpan_dom start end_ classes s = (s', r) →
     sorted s' ∧ (separated s → separated s') ∧
     (∀ o, offsetToLineColumn s' o = offsetToLineColumn s o) ∧
     document_text s' = document_text s) ∧
  (∀ s' r, clearSpan_dom start end_ classes s = (s', r) →
     sorted s' ∧ (separated s → separated s') ∧
     (∀ o, offsetToLineColumn s' o = offsetToLineColumn s o) ∧
     document_text s' = document_text s).
Proof.
  intros Hs. split; intros s' r.
  - rewrite decorateSpan_dom_tag_selected. by apply tag_selected_dom_keeps.
  - rewrite clearSpan_dom_tag_selected. by apply tag_selected_dom_keeps.
Qed.

Lemma decorateSpan_clearSpan_any_name_witness :
  (∀ s' r, decorateSpan_dom (Fin 0) (Fin 1) ["hl"; "a b"]%string doc_lines = (s', r) →
     sorted s' ∧ (separated doc_lines → separated s') ∧
     (∀ o, offsetToLineColumn s' o = offsetToLineColumn doc_lines o) ∧
     document_text s' = document_text doc_lines) ∧
  (∀ s' r, clearSpan_dom (Fin 0) (Fin 1) ["hl"; "a b"]%string doc_lines = (s', r) →
     sorted s' ∧ (separated doc_lines → separated s') ∧
     (∀ o, offsetToLineColumn s' o = offsetToLineColumn doc_lines o) ∧
     document_text s' = document_text doc_lines).
Proof.
  apply (decorateSpan_clearSpan_any_name doc_lines (Fin 0) (Fin 1) ["hl"; "a b"]%string).
  solve_sorted.
Defined.



(** ** The same call again, for all class names *)

Lemma tag_selected_dom_again g start end_ classes s s1 r :
  (∀ T cl, apply_classes g T (apply_classes g T cl) = apply_classes g T cl) →
  sorted s →
  bindD (liftD (ensureExactSpan start end_))
    (λ _, tag_selected_dom g start end_ classes) s = (s1, r) →
  bindD (liftD (ensureExactSpan start end_))
    (λ _, tag_selected_dom g start end_ classes) s1 = (s1, r).
Proof.
  intros Hg Hs. rewrite tag_selected_dom_cases by done.
  destruct (ensureExactSpan start end_ s) as [s0 [[]|]] eqn:H0.
  2:{ intros [= <- <-].
      rewrite tag_selected_dom_cases by (by eapply ensureExactSpan_sorted).
      by rewrite (ensureExactSpan_again _ _ _ _ _ Hs H0). }
  pose proof (ensureExactSpan_sorted _ _ _ _ _ Hs H0) as Hs0.
  destruct (ensureExactSpan_aligned _ _ _ _ Hs H0) as [Ha Hb].
  set (i := (selection s0 start end_).1). set (j := (selection s0 start end_).2).
  assert (∀ G i' j', tag_range_dom g classes i j s0 = (retag_range G i' j' s0, r) →
    s1 = retag_range G i' j' s0 →
    bindD (liftD (ensureExactSpan start end_))
      (λ _, tag_selected_dom g start end_ classes) s1
    = tag_range_dom g classes i j s1) as Hstep.
  { intros G i' j' _ ->.
    assert (shape (retag_range G i' j' s0) = shape s0) as Hsh by apply retag_range_shape.
    assert (sorted (retag_range G i' j' s0)) as Hs1 by (by apply (shape_sorted s0)).
    rewrite tag_selected_dom_cases by done.
    rewrite ensureExactSpan_aligned_noop by (done || by apply (shape_aligned s0)).
    by rewrite (shape_selection _ s0). }
  unfold tag_range_dom at 1.
  destruct (forallb valid_token classes) eqn:Hv.
  - intros [= <- <-]. rewrite (Hstep (apply_classes g classes) i j); [| |done].
    + unfold tag_range_dom. rewrite Hv, retag_range_twice. f_equal.
      apply retag_range_ext. intros cl. apply Hg.
    + unfold tag_range_dom. by rewrite Hv.
  - destruct (decide (i < j)) as [Hij|Hij]; intros [= <- <-].
    + rewrite (Hstep (apply_classes g (accepted classes)) i (i + 1)); [| |done].
      * unfold tag_range_dom. rewrite Hv, decide_True by done.
        rewrite retag_range_twice. f_equal.
        apply retag_range_ext. intros cl. apply Hg.
      * unfold tag_range_dom. by rewrite Hv, decide_True.
    + rewrite (Hstep (λ cl, cl) 0 0);
        [|unfold tag_range_dom; rewrite Hv, decide_False by done|];
        rewrite ?retag_range_empty by done; try done.
      unfold tag_range_dom. by rewrite Hv, decide_False.
Qed.

(** X19: on a store ordered by offset and whatever the class names, a
    second [decorateSpan] with the same arguments changes nothing and ends
    as the first one did, also when that threw a [DOMException] in the
    middle of the class names; the same holds for [clearSpan]. *)
Theorem decorateSpan_clearSpan_again
    (s : Store) (start end_ : Offset) (classes : list string) :
  sorted s →
  (∀ s1 r, decorateSpan_dom start end_ classes s = (s1, r) →
           decorateSpan_dom start end_ classes s1 = (s1, r)) ∧
  (∀ s1 r, clearSpan_dom start end_ classes s = (s1, r) →
           clearSpan_dom start end_ classes s1 = (s1, r)).
Proof.
  intros Hs. split; intros s1 r.
  - rewrite !decorateSpan_dom_tag_selected. apply tag_selected_dom_again; [|done].
    intros T cl. by rewrite !apply_add_class, <- (assoc_L (∪)), (idemp_L (∪)).
  - rewrite !clearSpan_dom_tag_selected. apply tag_selected_dom_again; [|done].
    intros T cl. by rewrite !apply_remove_class, difference_difference_l_L, (idemp_L (∪)).
Qed.

Lemma decorateSpan_clearSpan_again_witness :
  (∀ s1 r, decorateSpan_dom (Fin 0) (Fin 1) ["hl"; ""]%string doc_lines = (s1, r) →
           decorateSpan_dom (Fin 0) (Fin 1) ["hl"; ""]%string s1 = (s1, r)) ∧
  (∀ s1 r, clearSpan_dom (Fin 0) (Fin 1) ["hl"; ""]%string doc_lines = (s1, r) →
           clearSpan_dom (Fin 0) (Fin 1) ["hl"; ""]%string s1 = (s1, r)).
Proof.
  apply (decorateSpan_clearSpan_again doc_lines (Fin 0) (Fin 1) ["hl"; ""]%string).
  solve_sorted.
Defined.
